(** * suseejs/duplicates: the duplicate-name handlers of [src/opt/index.ts]

    A shallow embedding of the bundle handlers [collector], [updater],
    [callExpression], [exportExpression], [importExpression] and of the two
    entry points [duplicateHandlers.renamed] and [duplicateHandlers.notRenamed].

    Conventions of the embedding.
    - A module's [content] is kept as its syntax tree.  [ts.createSourceFile]
      (text to tree) and the printer behind [transformFunction] (tree to text)
      belong to the TypeScript compiler and to [@suseejs/transformer]; a
      handler is the tree transformation sitting between the two.
    - Every JavaScript object that a handler mutates ([namesMap], the three
      [NamesSets] arrays, the [names] array of the name generator) is passed
      in and returned explicitly.
    - [node:path] is modelled for POSIX.
    - Of the helpers of the build, [getEntryPath] and the renaming of the
      emitted files are embedded, on ASCII text; what reads or writes files
      is left out. *)

From Stdlib Require Import List String Ascii Bool Arith Lia DecimalString.
From Stdlib Require DecimalNat.
Import ListNotations.
Open Scope string_scope.
Open Scope list_scope.

Set Implicit Arguments.
Set Warnings "-register-all".

(* ================================================================== *)
(** ** A small state monad: handlers that push to a shared array *)

Definition State (S A : Type) : Type := S -> A * S.

Definition ret {S A : Type} (a : A) : State S A := fun s => (a, s).

Definition bind {S A B : Type} (m : State S A) (k : A -> State S B) : State S B :=
  fun s => let (a, s') := m s in k a s'.

Notation "x <- m ;; k" := (bind m (fun x => k))
  (at level 61, m at next level, right associativity).

Section Traversals.
Context {S A B : Type}.
Variable f : A -> State S B.

(** [array.map(f)] when [f] has side effects: left to right. *)
Fixpoint mapM (l : list A) : State S (list B) :=
  match l with
  | [] => ret []
  | x :: xs => y <- f x ;; ys <- mapM xs ;; ret (y :: ys)
  end.

(** An optional child: visited when present. *)
Definition optM (o : option A) : State S (option B) :=
  match o with
  | None => ret None
  | Some x => y <- f x ;; ret (Some y)
  end.
End Traversals.

(* ================================================================== *)
(** ** Syntax trees

    One type for all nodes, as [ts.Node]: the [ts.isXxx] tests of the source
    are tests on the constructor.  Fields carry the names they have in the
    TypeScript AST.  Type annotations, type parameters, heritage clauses and
    tokens are left out: no handler inspects them and none of them contains a
    statement or an expression the handlers match. *)

Inductive Modifier : Type :=
  | ExportKeyword | DefaultKeyword | DeclareKeyword | AsyncKeyword | StaticKeyword.

Inductive DeclarationKind : Type := Const | Let | Var.

Inductive PhaseModifier : Type := TypeKeyword | DeferKeyword.

Inductive Node : Type :=
  | SourceFile (statements : list Node)
  | Identifier (text : string)
  | StringLiteral (text : string)
  | NumericLiteral (text : string)
  (* declarations *)
  | VariableStatement (modifiers : list Modifier) (declarationList : Node)
  | VariableDeclarationList (flags : DeclarationKind) (declarations : list Node)
  | VariableDeclaration (name : Node) (initializer : option Node)
  | ObjectBindingPattern (elements : list Node)
  | ArrayBindingPattern (elements : list Node)
  | BindingElement (propertyName : option Node) (name : Node) (initializer : option Node)
  | FunctionDeclaration (modifiers : list Modifier) (name : option Node)
                        (parameters : list Node) (body : option Node)
  | ParameterDeclaration (name : Node) (initializer : option Node)
  | ClassDeclaration (modifiers : list Modifier) (name : option Node) (members : list Node)
  | MethodDeclaration (modifiers : list Modifier) (name : Node)
                      (parameters : list Node) (body : option Node)
  | PropertyDeclaration (modifiers : list Modifier) (name : Node) (initializer : option Node)
  | EnumDeclaration (modifiers : list Modifier) (name : Node) (members : list Node)
  | EnumMember (name : Node) (initializer : option Node)
  | InterfaceDeclaration (modifiers : list Modifier) (name : Node)
  | TypeAliasDeclaration (modifiers : list Modifier) (name : Node)
  (* statements *)
  | Block (statements : list Node)
  | ExpressionStatement (expression : Node)
  | ReturnStatement (expression : option Node)
  | IfStatement (expression : Node) (thenStatement : Node) (elseStatement : option Node)
  (* expressions *)
  | CallExpression (expression : Node) (arguments : list Node)
  | PropertyAccessExpression (expression : Node) (name : Node)
  | NewExpression (expression : Node) (arguments : list Node)
  | ArrowFunction (parameters : list Node) (body : Node)
  | FunctionExpression (name : option Node) (parameters : list Node) (body : Node)
  | BinaryExpression (left : Node) (operatorToken : string) (right : Node)
  (* imports and exports *)
  | ImportDeclaration (importClause : option Node) (moduleSpecifier : Node)
  | ImportClause (phaseModifier : option PhaseModifier) (name : option Node)
                 (namedBindings : option Node)
  | NamespaceImport (name : Node)
  | NamedImports (elements : list Node)
  | ImportSpecifier (isTypeOnly : bool) (propertyName : option Node) (name : Node)
  | ExportDeclaration (isTypeOnly : bool) (exportClause : option Node)
                      (moduleSpecifier : option Node)
  | NamedExports (elements : list Node)
  | ExportSpecifier (isTypeOnly : bool) (propertyName : option Node) (name : Node)
  | ExportAssignment (isExportEquals : bool) (expression : Node).

(** The direct children of a node, in source order. *)
Definition optList {A : Type} (o : option A) : list A :=
  match o with None => [] | Some x => [x] end.

Definition children (node : Node) : list Node :=
  match node with
  | SourceFile ss => ss
  | Identifier _ | StringLiteral _ | NumericLiteral _ => []
  | VariableStatement _ dl => [dl]
  | VariableDeclarationList _ ds => ds
  | VariableDeclaration n i => n :: optList i
  | ObjectBindingPattern es | ArrayBindingPattern es => es
  | BindingElement p n i => optList p ++ n :: optList i
  | FunctionDeclaration _ n ps b => optList n ++ ps ++ optList b
  | ParameterDeclaration n i => n :: optList i
  | ClassDeclaration _ n ms => optList n ++ ms
  | MethodDeclaration _ n ps b => n :: ps ++ optList b
  | PropertyDeclaration _ n i => n :: optList i
  | EnumDeclaration _ n ms => n :: ms
  | EnumMember n i => n :: optList i
  | InterfaceDeclaration _ n | TypeAliasDeclaration _ n => [n]
  | Block ss => ss
  | ExpressionStatement e => [e]
  | ReturnStatement e => optList e
  | IfStatement e t f => e :: t :: optList f
  | CallExpression e args | NewExpression e args => e :: args
  | PropertyAccessExpression e n => [e; n]
  | ArrowFunction ps b => ps ++ [b]
  | FunctionExpression n ps b => optList n ++ ps ++ [b]
  | BinaryExpression l _ r => [l; r]
  | ImportDeclaration c m => optList c ++ [m]
  | ImportClause _ n b => optList n ++ optList b
  | NamespaceImport n => [n]
  | NamedImports es | NamedExports es => es
  | ImportSpecifier _ p n | ExportSpecifier _ p n => optList p ++ [n]
  | ExportDeclaration _ c m => optList c ++ optList m
  | ExportAssignment _ e => [e]
  end.

(** [ts.visitEachChild(node, visitor, context)]: the node rebuilt from the
    results of [visitor] on its children, visited in source order. *)
Definition visitEachChild {S : Type} (visitor : Node -> State S Node) (node : Node)
  : State S Node :=
  match node with
  | SourceFile ss => ss' <- mapM visitor ss ;; ret (SourceFile ss')
  | Identifier _ | StringLiteral _ | NumericLiteral _ => ret node
  | VariableStatement m dl => dl' <- visitor dl ;; ret (VariableStatement m dl')
  | VariableDeclarationList k ds =>
      ds' <- mapM visitor ds ;; ret (VariableDeclarationList k ds')
  | VariableDeclaration n i =>
      n' <- visitor n ;; i' <- optM visitor i ;; ret (VariableDeclaration n' i')
  | ObjectBindingPattern es => es' <- mapM visitor es ;; ret (ObjectBindingPattern es')
  | ArrayBindingPattern es => es' <- mapM visitor es ;; ret (ArrayBindingPattern es')
  | BindingElement p n i =>
      p' <- optM visitor p ;; n' <- visitor n ;; i' <- optM visitor i ;;
      ret (BindingElement p' n' i')
  | FunctionDeclaration m n ps b =>
      n' <- optM visitor n ;; ps' <- mapM visitor ps ;; b' <- optM visitor b ;;
      ret (FunctionDeclaration m n' ps' b')
  | ParameterDeclaration n i =>
      n' <- visitor n ;; i' <- optM visitor i ;; ret (ParameterDeclaration n' i')
  | ClassDeclaration m n ms =>
      n' <- optM visitor n ;; ms' <- mapM visitor ms ;; ret (ClassDeclaration m n' ms')
  | MethodDeclaration m n ps b =>
      n' <- visitor n ;; ps' <- mapM visitor ps ;; b' <- optM visitor b ;;
      ret (MethodDeclaration m n' ps' b')
  | PropertyDeclaration m n i =>
      n' <- visitor n ;; i' <- optM visitor i ;; ret (PropertyDeclaration m n' i')
  | EnumDeclaration m n ms =>
      n' <- visitor n ;; ms' <- mapM visitor ms ;; ret (EnumDeclaration m n' ms')
  | EnumMember n i => n' <- visitor n ;; i' <- optM visitor i ;; ret (EnumMember n' i')
  | InterfaceDeclaration m n => n' <- visitor n ;; ret (InterfaceDeclaration m n')
  | TypeAliasDeclaration m n => n' <- visitor n ;; ret (TypeAliasDeclaration m n')
  | Block ss => ss' <- mapM visitor ss ;; ret (Block ss')
  | ExpressionStatement e => e' <- visitor e ;; ret (ExpressionStatement e')
  | ReturnStatement e => e' <- optM visitor e ;; ret (ReturnStatement e')
  | IfStatement e t f =>
      e' <- visitor e ;; t' <- visitor t ;; f' <- optM visitor f ;;
      ret (IfStatement e' t' f')
  | CallExpression e args =>
      e' <- visitor e ;; args' <- mapM visitor args ;; ret (CallExpression e' args')
  | PropertyAccessExpression e n =>
      e' <- visitor e ;; n' <- visitor n ;; ret (PropertyAccessExpression e' n')
  | NewExpression e args =>
      e' <- visitor e ;; args' <- mapM visitor args ;; ret (NewExpression e' args')
  | ArrowFunction ps b =>
      ps' <- mapM visitor ps ;; b' <- visitor b ;; ret (ArrowFunction ps' b')
  | FunctionExpression n ps b =>
      n' <- optM visitor n ;; ps' <- mapM visitor ps ;; b' <- visitor b ;;
      ret (FunctionExpression n' ps' b')
  | BinaryExpression l op r =>
      l' <- visitor l ;; r' <- visitor r ;; ret (BinaryExpression l' op r')
  | ImportDeclaration c m =>
      c' <- optM visitor c ;; m' <- visitor m ;; ret (ImportDeclaration c' m')
  | ImportClause t n b =>
      n' <- optM visitor n ;; b' <- optM visitor b ;; ret (ImportClause t n' b')
  | NamespaceImport n => n' <- visitor n ;; ret (NamespaceImport n')
  | NamedImports es => es' <- mapM visitor es ;; ret (NamedImports es')
  | ImportSpecifier t p n =>
      p' <- optM visitor p ;; n' <- visitor n ;; ret (ImportSpecifier t p' n')
  | ExportDeclaration t c m =>
      c' <- optM visitor c ;; m' <- optM visitor m ;; ret (ExportDeclaration t c' m')
  | NamedExports es => es' <- mapM visitor es ;; ret (NamedExports es')
  | ExportSpecifier t p n =>
      p' <- optM visitor p ;; n' <- visitor n ;; ret (ExportSpecifier t p' n')
  | ExportAssignment q e => e' <- visitor e ;; ret (ExportAssignment q e')
  end.

(** [ts.forEachChild(node, cb)] with a callback that returns nothing: [cb]
    runs on every child in source order and the node is left as it is. *)
Definition forEachChild {S : Type} (cb : Node -> S -> S) (node : Node) (s : S) : S :=
  snd (visitEachChild (fun child s' => (child, cb child s')) node s).

(** [ts.visitEachChild] for a visitor without side effects. *)
Definition visitEachChildPure (visitor : Node -> Node) (node : Node) : Node :=
  fst (visitEachChild (fun child (u : unit) => (visitor child, u)) node tt).

(* ================================================================== *)
(** ** Shared data: [SuSee.DepsFile], [SuSee.NamesSets], [SuSee.DuplicatesNameMap] *)

Record DepsFile : Type := mkDeps { file : string; content : Node }.

Record NameEntry : Type := mkEntry { base : string; efile : string; newName : string }.

Definition NamesSets : Type := list NameEntry.

(** [Map<string, Set<{ file: string }>>].  A JavaScript [Set] compares
    objects by reference and every [{ file }] in the collector is a fresh
    object literal, so [add] never finds its argument already present: the
    set is the sequence of all the objects added and [size] is the number of
    additions.  The [Map] keeps the insertion order of its keys. *)
Definition DuplicatesNameMap : Type := list (string * list string).

Fixpoint has (namesMap : DuplicatesNameMap) (key : string) : bool :=
  match namesMap with
  | [] => false
  | (k, _) :: rest => if String.eqb k key then true else has rest key
  end.

Fixpoint get (namesMap : DuplicatesNameMap) (key : string) : option (list string) :=
  match namesMap with
  | [] => None
  | (k, v) :: rest => if String.eqb k key then Some v else get rest key
  end.

(** [namesMap.get(key)!.add({ file })] *)
Fixpoint add (namesMap : DuplicatesNameMap) (key : string) (f : string)
  : DuplicatesNameMap :=
  match namesMap with
  | [] => []
  | (k, v) :: rest =>
      if String.eqb k key then (k, v ++ [f]) :: rest else (k, v) :: add rest key f
  end.

(** [namesMap.set(key, new Set([{ file }]))] for a key that is not there. *)
Definition setNew (namesMap : DuplicatesNameMap) (key : string) (f : string)
  : DuplicatesNameMap :=
  namesMap ++ [(key, [f])].

Definition size (namesMap : DuplicatesNameMap) (key : string) : nat :=
  match get namesMap key with Some fs => List.length fs | None => 0 end.

(* ================================================================== *)
(** ** [collector] (index.ts 473-564) *)

(** The has / set / add sequence the collector runs for a declared name. *)
Definition record (namesMap : DuplicatesNameMap) (name file : string)
  : DuplicatesNameMap :=
  if negb (has namesMap name) then setNew namesMap name file
  else add namesMap name file.

(** The [if (isGlobalScope)] part of [visitNode] for one node: variable
    statements record every declaration whose name is an identifier;
    function, class, enum, interface and type alias declarations record
    [node.name?.text] when it is truthy. *)
Definition collectDeclared (file : string) (node : Node) (namesMap : DuplicatesNameMap)
  : DuplicatesNameMap :=
  match node with
  | VariableStatement _ (VariableDeclarationList _ declarations) =>
      fold_left
        (fun m decl =>
           match decl with
           | VariableDeclaration (Identifier name) _ => record m name file
           | _ => m
           end)
        declarations namesMap
  | FunctionDeclaration _ (Some (Identifier name)) _ _
  | ClassDeclaration _ (Some (Identifier name)) _
  | EnumDeclaration _ (Identifier name) _
  | InterfaceDeclaration _ (Identifier name)
  | TypeAliasDeclaration _ (Identifier name) =>
      if String.eqb name "" then namesMap else record namesMap name file
  | _ => namesMap
  end.

(** [visitNode(node, isGlobalScope)] of the collector.  A block runs
    [ts.visitNodes] over its statements with the flag off; a function
    declaration, function expression, arrow function, method or class
    declaration runs [ts.forEachChild] with the flag off; both return [node].
    Every other node goes through [ts.visitEachChild] with the flag kept. *)
Fixpoint visitNode (file : string) (node : Node) (isGlobalScope : bool) {struct node}
  : State DuplicatesNameMap Node :=
  fun namesMap =>
    let namesMap1 :=
      if isGlobalScope then collectDeclared file node namesMap else namesMap in
    match node with
    | Block statements =>
        let (_, namesMap2) :=
          mapM (fun child => visitNode file child false) statements namesMap1 in
        (node, namesMap2)
    | FunctionDeclaration _ _ _ _
    | FunctionExpression _ _ _
    | ArrowFunction _ _
    | MethodDeclaration _ _ _ _
    | ClassDeclaration _ _ _ =>
        (node,
         forEachChild (fun child s => snd (visitNode file child false s)) node namesMap1)
    | _ =>
        visitEachChild (fun child => visitNode file child isGlobalScope) node namesMap1
    end.

Definition collector (dep : DepsFile) : State DuplicatesNameMap DepsFile :=
  _content <- visitNode (file dep) (content dep) true ;;
  ret (mkDeps (file dep) _content).

(* ================================================================== *)
(** ** [uniqueName] / [dupName] (index.ts 55-92) *)

Definition decimal (n : nat) : string := NilEmpty.string_of_uint (Nat.to_uint n).

(** [getName(input)] of the object returned by [setPrefix({key, value})];
    [_fix] is [value], the state is the closure's [names] array. *)
Definition getName (_fix : string) (input : string) : State (list string) string :=
  fun names =>
    let length := List.length names in
    let _name :=
      if negb (String.eqb _fix "")
      then (_fix ++ input ++ "_" ++ decimal (length + 1))%string
      else ("$nyein" ++ input ++ "_" ++ decimal (length + 1))%string in
    (_name, names ++ [_name]).

(** [const dupName = uniqueName().setPrefix({key: "DuplicatesNames", value: "d_"})],
    created once when the module is loaded. *)
Definition dupName : string -> State (list string) string := getName "d_".

(* ================================================================== *)
(** ** [updater] (index.ts 575-671) *)

(** What the updater mutates: [names] of [dupName] and [callNameMap]. *)
Record Renames : Type := mkRenames { names : list string; callNameMap : NamesSets }.

(** [namesMap.has(base) && namesMap.get(base)!.size > 1] *)
Definition isDuplicated (namesMap : DuplicatesNameMap) (base : string) : bool :=
  has namesMap base && (1 <? size namesMap base)%nat.

(** [const newName = dupName.getName(base); callNameMap.push({base, file, newName})] *)
Definition rename (file base : string) : State Renames string :=
  fun st =>
    let (newName, names') := dupName base (names st) in
    (newName, mkRenames names' (callNameMap st ++ [mkEntry base file newName])).

Module Updater.

(** The callback of [node.declarationList.declarations.map]. *)
Definition updateDeclaration (namesMap : DuplicatesNameMap) (file : string) (decl : Node)
  : State Renames Node :=
  match decl with
  | VariableDeclaration (Identifier base) initializer =>
      if isDuplicated namesMap base
      then newName <- rename file base ;;
           ret (VariableDeclaration (Identifier newName) initializer)
      else ret decl
  | _ => ret decl
  end.

(** A variable statement is rebuilt from its mapped declarations and
    returned without visiting its children; a renamed function or class
    declaration is returned without visiting its children; everything else
    goes through [ts.visitEachChild].  The parser always puts a
    [VariableDeclarationList] under a variable statement; the second case
    only makes the function total. *)
Fixpoint visitor (namesMap : DuplicatesNameMap) (file : string) (node : Node)
  : State Renames Node :=
  match node with
  | VariableStatement modifiers (VariableDeclarationList flags declarations) =>
      newDeclarations <- mapM (updateDeclaration namesMap file) declarations ;;
      ret (VariableStatement modifiers (VariableDeclarationList flags newDeclarations))
  | VariableStatement _ _ => ret node
  | FunctionDeclaration modifiers (Some (Identifier base)) parameters body =>
      if isDuplicated namesMap base
      then newName <- rename file base ;;
           ret (FunctionDeclaration modifiers (Some (Identifier newName)) parameters body)
      else visitEachChild (visitor namesMap file) node
  | ClassDeclaration modifiers (Some (Identifier base)) members =>
      if isDuplicated namesMap base
      then newName <- rename file base ;;
           ret (ClassDeclaration modifiers (Some (Identifier newName)) members)
      else visitEachChild (visitor namesMap file) node
  | _ => visitEachChild (visitor namesMap file) node
  end.

End Updater.

Definition updater (namesMap : DuplicatesNameMap) (dep : DepsFile)
  : State Renames DepsFile :=
  _content <- Updater.visitor namesMap (file dep) (content dep) ;;
  ret (mkDeps (file dep) _content).

(* ================================================================== *)
(** ** [callExpression] (index.ts 130-232) *)

(** [map.find((m) => m.base === base && m.file === file)] *)
Definition findEntry (map : NamesSets) (b f : string) : option NameEntry :=
  find (fun m => String.eqb (base m) b && String.eqb (efile m) f) map.

(** The lookup every rewriting site repeats:
    [if (mapping) new_name = mapping.newName;
     else if (importMapping) new_name = importMapping.newName]. *)
Definition lookupNewName (callNameMap importNameMap : NamesSets) (base file : string)
  : option string :=
  let mapping := findEntry callNameMap base file in
  let importMapping := findEntry importNameMap base file in
  match mapping with
  | Some m => Some (newName m)
  | None =>
      match importMapping with
      | Some m => Some (newName m)
      | None => None
      end
  end.

(** [if (new_name)]: neither [null] nor the empty string. *)
Definition truthy (new_name : option string) : option string :=
  match new_name with
  | Some n => if String.eqb n "" then None else Some n
  | None => None
  end.

Module CallExpression.

Fixpoint visitor (callNameMap importNameMap : NamesSets) (file : string) (node : Node)
  : Node :=
  match node with
  | CallExpression (Identifier base) arguments =>
      match truthy (lookupNewName callNameMap importNameMap base file) with
      | Some new_name => CallExpression (Identifier new_name) arguments
      | None => visitEachChildPure (visitor callNameMap importNameMap file) node
      end
  | PropertyAccessExpression (Identifier base) name =>
      match truthy (lookupNewName callNameMap importNameMap base file) with
      | Some new_name => PropertyAccessExpression (Identifier new_name) name
      | None => visitEachChildPure (visitor callNameMap importNameMap file) node
      end
  | NewExpression (Identifier base) arguments =>
      match truthy (lookupNewName callNameMap importNameMap base file) with
      | Some new_name => NewExpression (Identifier new_name) arguments
      | None => visitEachChildPure (visitor callNameMap importNameMap file) node
      end
  | _ => visitEachChildPure (visitor callNameMap importNameMap file) node
  end.

End CallExpression.

Definition callExpression (callNameMap importNameMap : NamesSets) (dep : DepsFile)
  : DepsFile :=
  mkDeps (file dep) (CallExpression.visitor callNameMap importNameMap (file dep) (content dep)).

(* ================================================================== *)
(** ** [node:path], POSIX flavour

    The functions of Node's [path.posix] that the handlers call, on lists
    of characters.  Node scans the string from its end; the scans are written
    here on the reversed list. *)

Module Path.

Definition chars : Type := list ascii.

Definition isSlash (c : ascii) : bool := Ascii.eqb c "/".
Definition isDot (c : ascii) : bool := Ascii.eqb c ".".
Definition notSlash (c : ascii) : bool := negb (isSlash c).
Definition notDot (c : ascii) : bool := negb (isDot c).

Fixpoint eqChars (a b : chars) : bool :=
  match a, b with
  | [], [] => true
  | x :: a', y :: b' => Ascii.eqb x y && eqChars a' b'
  | _, _ => false
  end.

Definition isEmpty (a : chars) : bool := match a with [] => true | _ => false end.

Fixpoint dropWhile (p : ascii -> bool) (l : chars) : chars :=
  match l with
  | [] => []
  | c :: rest => if p c then dropWhile p rest else l
  end.

Fixpoint takeWhile (p : ascii -> bool) (l : chars) : chars :=
  match l with
  | [] => []
  | c :: rest => if p c then c :: takeWhile p rest else []
  end.

(** The segments between separators, empty ones included. *)
Fixpoint split (path : chars) : list chars :=
  match path with
  | [] => [[]]
  | c :: rest =>
      if isSlash c then [] :: split rest
      else match split rest with
           | seg :: segs => (c :: seg) :: segs
           | [] => [[c]]
           end
  end.

Fixpoint joinWith (segs : list chars) : chars :=
  match segs with
  | [] => []
  | [seg] => seg
  | seg :: rest => seg ++ "/"%char :: joinWith rest
  end.

(** One segment of [normalizeString]; [res] holds the segments kept so far,
    last one first.  Empty segments and [.] are dropped; [..] removes the
    last kept segment unless that is [..] itself or nothing is kept, in which
    case it is kept only when [allowAboveRoot]. *)
Definition normalizeSegment (allowAboveRoot : bool) (res : list chars) (seg : chars)
  : list chars :=
  if isEmpty seg || eqChars seg ["."%char] then res
  else if eqChars seg ["."%char; "."%char] then
    match res with
    | top :: below =>
        if eqChars top ["."%char; "."%char]
        then (if allowAboveRoot then seg :: res else res)
        else below
    | [] => if allowAboveRoot then seg :: res else res
    end
  else seg :: res.

Definition normalizeString (path : chars) (allowAboveRoot : bool) : chars :=
  joinWith (rev (fold_left (normalizeSegment allowAboveRoot) (split path) [])).

Definition isAbsolute (path : chars) : bool :=
  match path with c :: _ => isSlash c | [] => false end.

Definition hasTrailingSeparator (path : chars) : bool :=
  match rev path with c :: _ => isSlash c | [] => false end.

(** [path.normalize] *)
Definition normalize (path : chars) : chars :=
  if isEmpty path then ["."%char]
  else
    let trailingSeparator := hasTrailingSeparator path in
    let path' := normalizeString path (negb (isAbsolute path)) in
    if isEmpty path' then
      if isAbsolute path then ["/"%char]
      else if trailingSeparator then ["."%char; "/"%char] else ["."%char]
    else
      let path'' := if trailingSeparator then path' ++ ["/"%char] else path' in
      if isAbsolute path then "/"%char :: path'' else path''.

(** [path.join(...args)] *)
Definition join (args : list chars) : chars :=
  let joined := joinWith (filter (fun arg => negb (isEmpty arg)) args) in
  if isEmpty joined then ["."%char] else normalize joined.

(** The loop of [path.resolve]: [paths] lists the arguments from the last
    one to the first, then the working directory. *)
Fixpoint resolveLoop (paths : list chars) (resolvedPath : chars) : chars * bool :=
  match paths with
  | [] => (resolvedPath, false)
  | path :: more =>
      if isEmpty path then resolveLoop more resolvedPath
      else
        let resolvedPath' := path ++ "/"%char :: resolvedPath in
        if isAbsolute path then (resolvedPath', true)
        else resolveLoop more resolvedPath'
  end.

(** [path.resolve(...args)] with [process.cwd()] given as [cwd]. *)
Definition resolve (cwd : chars) (args : list chars) : chars :=
  let (resolvedPath, resolvedAbsolute) := resolveLoop (rev args ++ [cwd]) [] in
  let resolvedPath' := normalizeString resolvedPath (negb resolvedAbsolute) in
  if resolvedAbsolute then "/"%char :: resolvedPath'
  else if isEmpty resolvedPath' then ["."%char] else resolvedPath'.

(** [path.dirname] *)
Definition dirname (path : chars) : chars :=
  match path with
  | [] => ["."%char]
  | c0 :: rest =>
      let hasRoot := isSlash c0 in
      match dropWhile notSlash (dropWhile isSlash (rev rest)) with
      | [] => if hasRoot then ["/"%char] else ["."%char]
      | _ :: before =>
          if hasRoot && isEmpty before then ["/"%char; "/"%char]
          else c0 :: rev before
      end
  end.

Record ParsedPath : Type :=
  mkParsed { root : chars; dir : chars; base : chars; ext : chars; name : chars }.

(** The extension test of [path.parse] on the last component [base]:
    there is none when [base] has no dot, when its last dot is its first
    character, or when [base] is [..]; for an absolute path without any
    further separator Node compares the dot position with the start of the
    string, so that last test fails there. *)
Definition splitExt (atRoot : bool) (base : chars) : chars * chars :=
  let back := rev base in
  match dropWhile notDot back with
  | [] => (base, [])
  | [_] => (base, [])
  | _ :: revName =>
      if eqChars base ["."%char; "."%char] && negb atRoot then (base, [])
      else (rev revName, "."%char :: rev (takeWhile notDot back))
  end.

(** [path.parse] *)
Definition parse (path : chars) : ParsedPath :=
  if isEmpty path then mkParsed [] [] [] [] []
  else
    let root := if isAbsolute path then ["/"%char] else [] in
    let region := if isAbsolute path then tl path else path in
    let trimmed := dropWhile isSlash (rev region) in
    let base := rev (takeWhile notSlash trimmed) in
    let rest := dropWhile notSlash trimmed in
    let dir := match rest with
               | [] => root
               | _ :: before => root ++ rev before
               end in
    let (name, ext) := splitExt (isAbsolute path && isEmpty rest) base in
    mkParsed root dir base ext name.

End Path.

(** The same functions on strings. *)
Definition ofString (s : string) : Path.chars := list_ascii_of_string s.
Definition toString (l : Path.chars) : string := string_of_list_ascii l.

(** [normalizePathKey] (index.ts 94-101) *)
Definition normalizePathKey (filePath : string) : string :=
  let parsed := Path.parse (ofString filePath) in
  let noExt := Path.join [Path.dir parsed; Path.name parsed] in
  let noExt := if String.eqb (toString (Path.name parsed)) "index"
               then Path.dir parsed else noExt in
  toString (Path.normalize noExt).

Definition getFileKey (filePath : string) : string := normalizePathKey filePath.

Definition startsWith (s : string) (c : ascii) : bool :=
  match s with String c' _ => Ascii.eqb c' c | EmptyString => false end.

(** A single or a double quote. *)
Definition isQuote (c : ascii) : bool :=
  Ascii.eqb c (ascii_of_nat 39) || Ascii.eqb c (ascii_of_nat 34).

(** [s.replace(re, empty)] where [re] matches one quote at the start or one
    quote at the end of [s], globally. *)
Definition stripQuotes (s : string) : string :=
  let l := ofString s in
  let l1 := match l with c :: rest => if isQuote c then rest else l | [] => l end in
  toString (match rev l1 with c :: rest => if isQuote c then rev rest else l1 | [] => l1 end).

Section ModuleKeys.
(** [process.cwd()], and [node.getText(sourceFile)]: the source text of a
    node, which the tree does not keep. *)
Variable cwd : string.
Variable getText : Node -> string.

(** [getModuleKeyFromSpecifier] (index.ts 105-121) *)
Definition getModuleKeyFromSpecifier (moduleSpecifier : Node) (containingFile : string)
  : string :=
  let spec := match moduleSpecifier with
              | StringLiteral text => text
              | _ => stripQuotes (getText moduleSpecifier)
              end in
  if startsWith spec "." || startsWith spec "/" then
    let baseDir := Path.dirname (ofString containingFile) in
    normalizePathKey (toString (Path.resolve (ofString cwd) [baseDir; ofString spec]))
  else spec.
End ModuleKeys.


(** [String.prototype.trim], for the white space that fits in one byte. *)
Definition isWhiteSpace (c : ascii) : bool :=
  let n := nat_of_ascii c in ((9 <=? n) && (n <=? 13) || (n =? 32))%nat.

Definition trim (s : string) : string :=
  toString (rev (Path.dropWhile isWhiteSpace (rev (Path.dropWhile isWhiteSpace (ofString s))))).

(* ================================================================== *)
(** ** [exportExpression] (index.ts 244-333) *)

Module ExportExpression.

(** The lookup of an export site.  A match in the call-site map also pushes
    [{base, file: getFileKey(file), newName}] to [exportNameMap]; a match
    in the import map alone pushes nothing. *)
Definition lookup (callNameMap importNameMap : NamesSets) (file base : string)
  : State NamesSets (option string) :=
  fun exportNameMap =>
    let mapping := findEntry callNameMap base file in
    let importMapping := findEntry importNameMap base file in
    match mapping with
    | Some m =>
        (Some (newName m),
         exportNameMap ++ [mkEntry base (getFileKey file) (newName m)])
    | None =>
        match importMapping with
        | Some m => (Some (newName m), exportNameMap)
        | None => (None, exportNameMap)
        end
    end.

Fixpoint visitor (callNameMap importNameMap : NamesSets) (file : string) (node : Node)
  : State NamesSets Node :=
  match node with
  | ExportSpecifier isTypeOnly propertyName (Identifier base) =>
      new_name <- lookup callNameMap importNameMap file base ;;
      match truthy new_name with
      | Some n => ret (ExportSpecifier isTypeOnly propertyName (Identifier n))
      | None => visitEachChild (visitor callNameMap importNameMap file) node
      end
  | ExportAssignment isExportEquals (Identifier base) =>
      new_name <- lookup callNameMap importNameMap file base ;;
      match truthy new_name with
      | Some n => ret (ExportAssignment isExportEquals (Identifier n))
      | None => visitEachChild (visitor callNameMap importNameMap file) node
      end
  | _ => visitEachChild (visitor callNameMap importNameMap file) node
  end.

End ExportExpression.

Definition exportExpression (callNameMap importNameMap : NamesSets) (dep : DepsFile)
  : State NamesSets DepsFile :=
  _content <- ExportExpression.visitor callNameMap importNameMap (file dep) (content dep) ;;
  ret (mkDeps (file dep) _content).

(* ================================================================== *)
(** ** [importExpression] (index.ts 342-463) *)

Module ImportExpression.
Section Visitor.
Variable cwd : string.
Variable getText : Node -> string.
Variable exportNameMap : NamesSets.
Variable file : string.

(** [importNameMap.push({base: mapping.base, file, newName: mapping.newName})] *)
Definition pushImport (mapping : NameEntry) : State NamesSets unit :=
  fun importNameMap =>
    (tt, importNameMap ++ [mkEntry (base mapping) file (newName mapping)]).

(** [el.name.text.trim()] *)
Definition elementName (el : Node) : string :=
  match el with
  | ImportSpecifier _ _ (Identifier text) => trim text
  | _ => ""
  end.

(** The callback of [namedBindings.elements.map] in the named-import part. *)
Definition updateElement (moduleKey : string) (el : Node) : State NamesSets Node :=
  match el with
  | ImportSpecifier isTypeOnly propertyName (Identifier text) =>
      match findEntry exportNameMap (trim text) moduleKey with
      | Some mapping =>
          _ <- pushImport mapping ;;
          ret (ImportSpecifier isTypeOnly propertyName (Identifier (newName mapping)))
      | None => ret el
      end
  | _ => ret el
  end.

(** The named-import part, reached when the default part did not return. *)
Definition namedImports (moduleKey : string) (node : Node)
           (otherwise : State NamesSets Node) : State NamesSets Node :=
  match node with
  | ImportDeclaration
      (Some (ImportClause phaseModifier name (Some (NamedImports elements))))
      moduleSpecifier =>
      let baseNames := map elementName elements in
      if (0 <? List.length baseNames)%nat then
        updatedElements <- mapM (updateElement moduleKey) elements ;;
        ret (ImportDeclaration
               (Some (ImportClause phaseModifier name
                                   (Some (NamedImports updatedElements))))
               moduleSpecifier)
      else otherwise
  | _ => otherwise
  end.

(** The default-binding part comes first and returns as soon as the
    default binding has a mapping. *)
Fixpoint visitor (node : Node) : State NamesSets Node :=
  match node with
  | ImportDeclaration importClause moduleSpecifier =>
      let moduleKey := getModuleKeyFromSpecifier cwd getText moduleSpecifier file in
      let next := namedImports moduleKey node (visitEachChild visitor node) in
      match importClause with
      | Some (ImportClause phaseModifier (Some (Identifier text)) namedBindings) =>
          match findEntry exportNameMap (trim text) moduleKey with
          | Some mapping =>
              _ <- pushImport mapping ;;
              ret (ImportDeclaration
                     (Some (ImportClause phaseModifier
                                         (Some (Identifier (newName mapping)))
                                         namedBindings))
                     moduleSpecifier)
          | None => next
          end
      | _ => next
      end
  | _ => visitEachChild visitor node
  end.
End Visitor.
End ImportExpression.

Definition importExpression (cwd : string) (getText : Node -> string)
           (exportNameMap : NamesSets) (dep : DepsFile) : State NamesSets DepsFile :=
  _content <- ImportExpression.visitor cwd getText exportNameMap (file dep) (content dep) ;;
  ret (mkDeps (file dep) _content).

(* ================================================================== *)
(** ** [duplicateHandlers] (index.ts 676-757) *)

(** Everything an invocation leaves behind: the returned modules and the
    final contents of the objects it was given, [names] of [dupName]
    included. *)
Record Renamed : Type := mkRenamed {
  r_deps : list DepsFile;
  r_namesMap : DuplicatesNameMap;
  r_names : list string;
  r_callNameMap : NamesSets;
  r_importNameMap : NamesSets;
  r_exportNameMap : NamesSets
}.

(** [duplicateHandlers.renamed]: [for (const func of duplicate) deps = deps.map(func)]
    over the seven handlers, in this order. *)
Definition renamed (cwd : string) (getText : Node -> string)
           (deps : list DepsFile) (namesMap : DuplicatesNameMap)
           (callNameMap importNameMap exportNameMap : NamesSets)
           (names : list string) : Renamed :=
  let (deps1, namesMap1) := mapM collector deps namesMap in
  let '(deps2, mkRenames names2 callNameMap2) :=
    mapM (updater namesMap1) deps1 (mkRenames names callNameMap) in
  let deps3 := map (callExpression callNameMap2 importNameMap) deps2 in
  let (deps4, exportNameMap4) :=
    mapM (exportExpression callNameMap2 importNameMap) deps3 exportNameMap in
  let (deps5, importNameMap5) :=
    mapM (importExpression cwd getText exportNameMap4) deps4 importNameMap in
  let deps6 := map (callExpression callNameMap2 importNameMap5) deps5 in
  let (deps7, exportNameMap7) :=
    mapM (exportExpression callNameMap2 importNameMap5) deps6 exportNameMap4 in
  mkRenamed deps7 namesMap1 names2 callNameMap2 importNameMap5 exportNameMap7.

(** How a call ends: it returns, or [process.exit(code)] ends the process. *)
Inductive Completion (A : Type) : Type :=
  | Returned (value : A)
  | Exited (code : nat).
Arguments Returned {A} value.
Arguments Exited {A} code.

Record Verified : Type := mkVerified {
  v_completion : Completion (list DepsFile);
  v_console : list string;
  v_namesMap : DuplicatesNameMap
}.

(** The callback of [namesMap.forEach]: sets [_err] and warns. *)
Definition warnDuplicate (acc : bool * list string) (entry : string * list string)
  : bool * list string :=
  let (_err, console) := acc in
  let (name, files) := entry in
  if (1 <? List.length files)%nat then
    (true,
     console ++ ("Name -> " ++ name ++ " declared in multiple files :")%string
             :: map (fun f => ("  - " ++ f)%string) files)
  else (_err, console).

(** [duplicateHandlers.notRenamed]; the two [wait] calls only delay. *)
Definition notRenamed (deps : list DepsFile) (namesMap : DuplicatesNameMap) : Verified :=
  let (_, namesMap1) := mapM collector deps namesMap in
  let (_err, console) := fold_left warnDuplicate namesMap1 (false, []) in
  mkVerified (if _err then Exited 1 else Returned deps) console namesMap1.

(* ================================================================== *)
(** ** Sample modules *)

(** Trees that carry no erroneous import specifier need no source text. *)
Definition noText (node : Node) : string := "".

Definition constDecl (modifiers : list Modifier) (name : string) (initializer : Node)
  : Node :=
  VariableStatement modifiers
    (VariableDeclarationList Const [VariableDeclaration (Identifier name) (Some initializer)]).

Definition exportNames (names : list string) : Node :=
  ExportDeclaration false
    (Some (NamedExports (map (fun n => ExportSpecifier false None (Identifier n)) names)))
    None.

Definition importNames (default : option string) (names : list string) (from : string)
  : Node :=
  ImportDeclaration
    (Some (ImportClause None
             (option_map Identifier default)
             (match names with
              | [] => None
              | _ => Some (NamedImports
                             (map (fun n => ImportSpecifier false None (Identifier n)) names))
              end)))
    (StringLiteral from).

(** [const foo = () => 1; export { foo };] *)
Definition moduleA : DepsFile :=
  mkDeps "/project/a/index.ts"
    (SourceFile [constDecl [] "foo" (ArrowFunction [] (NumericLiteral "1"));
                 exportNames ["foo"]]).

(** [const foo = () => 2; export { foo };] *)
Definition moduleB : DepsFile :=
  mkDeps "/project/b/index.ts"
    (SourceFile [constDecl [] "foo" (ArrowFunction [] (NumericLiteral "2"));
                 exportNames ["foo"]]).

(** [import { foo } from "./a"; export const sum = foo();] *)
Definition moduleMain : DepsFile :=
  mkDeps "/project/main.ts"
    (SourceFile [importNames None ["foo"] "./a";
                 constDecl [ExportKeyword] "sum" (CallExpression (Identifier "foo") [])]).

(** A first call of [renamed] as the test suite makes it: empty maps, and
    [names] empty because the module has just been loaded. *)
Definition firstRun (deps : list DepsFile) : Renamed :=
  renamed "/" noText deps [] [] [] [] [].

(** [function area(r: number): number; function area(r: any) { return r; }]:
    an overload signature followed by the implementation. *)
Definition moduleOverload : DepsFile :=
  mkDeps "/project/shapes.ts"
    (SourceFile
       [FunctionDeclaration [] (Some (Identifier "area"))
          [ParameterDeclaration (Identifier "r") None] None;
        FunctionDeclaration [] (Some (Identifier "area"))
          [ParameterDeclaration (Identifier "r") None]
          (Some (Block [ReturnStatement (Some (Identifier "r"))]))]).

(** [enum Color { Red }] in two modules. *)
Definition enumColor : Node :=
  EnumDeclaration [] (Identifier "Color") [EnumMember (Identifier "Red") None].

Definition modulePaint : DepsFile := mkDeps "/project/paint.ts" (SourceFile [enumColor]).
Definition moduleInk : DepsFile := mkDeps "/project/ink.ts" (SourceFile [enumColor]).

(** [const foo = () => 1; const bar = () => 2; export default foo; export { bar };] *)
Definition moduleBoth (path : string) : DepsFile :=
  mkDeps path
    (SourceFile [constDecl [] "foo" (ArrowFunction [] (NumericLiteral "1"));
                 constDecl [] "bar" (ArrowFunction [] (NumericLiteral "2"));
                 ExportAssignment false (Identifier "foo");
                 exportNames ["bar"]]).

(** [import foo, { bar } from "./a"; foo(); bar();] *)
Definition moduleUser : DepsFile :=
  mkDeps "/project/main.ts"
    (SourceFile [importNames (Some "foo") ["bar"] "./a";
                 ExpressionStatement (CallExpression (Identifier "foo") []);
                 ExpressionStatement (CallExpression (Identifier "bar") [])]).

(** [const { a, b } = settings;], a destructuring variable statement. *)
Definition destructured : Node :=
  VariableStatement []
    (VariableDeclarationList Const
       [VariableDeclaration
          (ObjectBindingPattern [BindingElement None (Identifier "a") None;
                                 BindingElement None (Identifier "b") None])
          (Some (Identifier "settings"))]).

(* ================================================================== *)
(** ** Vocabulary of the specification *)

(** The names a binding name binds: an identifier, or the identifiers of a
    destructuring pattern. *)
Fixpoint boundNames (name : Node) : list string :=
  match name with
  | Identifier text => [text]
  | ObjectBindingPattern elements | ArrayBindingPattern elements =>
      flat_map boundNames elements
  | BindingElement _ name' _ => boundNames name'
  | _ => []
  end.

(** Glossary, top-level declaration: a named binding (variable, function,
    class, enum, interface or type alias) written directly in a module's
    body. *)
Definition declaredNames (statement : Node) : list string :=
  match statement with
  | VariableStatement _ (VariableDeclarationList _ declarations) =>
      flat_map (fun decl => match decl with
                            | VariableDeclaration name _ => boundNames name
                            | _ => []
                            end) declarations
  | FunctionDeclaration _ (Some (Identifier name)) _ _
  | ClassDeclaration _ (Some (Identifier name)) _
  | EnumDeclaration _ (Identifier name) _
  | InterfaceDeclaration _ (Identifier name)
  | TypeAliasDeclaration _ (Identifier name) => [name]
  | _ => []
  end.

Definition topLevelNames (dep : DepsFile) : list string :=
  match content dep with
  | SourceFile statements => flat_map declaredNames statements
  | _ => []
  end.

(** The distinct modules of a batch that declare [name] at top level. *)
Definition declaringModules (name : string) (deps : list DepsFile) : list string :=
  nodup string_dec
    (map file (filter (fun dep => existsb (String.eqb name) (topLevelNames dep)) deps)).

(** Glossary, collision: a top-level declaration in two or more modules. *)
Definition collides (name : string) (deps : list DepsFile) : bool :=
  (2 <=? List.length (declaringModules name deps))%nat.

(** The verifier reports a name when it warns about it. *)
Definition reports (v : Verified) (name : string) : bool :=
  existsb (String.eqb ("Name -> " ++ name ++ " declared in multiple files :")%string)
          (v_console v).

(** The names [dupName] hands out for [bases] when [names] already holds
    [count] entries. *)
Fixpoint numberedFrom (count : nat) (bases : list string) : list string :=
  match bases with
  | [] => []
  | b :: rest => ("d_" ++ b ++ "_" ++ decimal (count + 1))%string :: numberedFrom (S count) rest
  end.

(** Some name of the index has more than one entry. *)
Definition hasDuplicate (namesMap : DuplicatesNameMap) : bool :=
  existsb (fun entry => (1 <? List.length (snd entry))%nat) namesMap.

(** The index [notRenamed] builds. *)
Definition collected (deps : list DepsFile) (namesMap : DuplicatesNameMap)
  : DuplicatesNameMap :=
  snd (mapM collector deps namesMap).

(** Expressions of the model; what lies inside a function body is free. *)
Fixpoint isExpression (node : Node) : bool :=
  match node with
  | Identifier _ | StringLiteral _ | NumericLiteral _ => true
  | CallExpression e args | NewExpression e args =>
      isExpression e && forallb isExpression args
  | PropertyAccessExpression e n => isExpression e && isExpression n
  | BinaryExpression l _ r => isExpression l && isExpression r
  | ArrowFunction _ _ | FunctionExpression _ _ _ => true
  | _ => false
  end.

Definition optionb {A : Type} (p : A -> bool) (o : option A) : bool :=
  match o with None => true | Some x => p x end.

(** Binding names: identifiers and patterns of binding elements. *)
Fixpoint isBindingName (node : Node) : bool :=
  match node with
  | Identifier _ => true
  | ObjectBindingPattern elements | ArrayBindingPattern elements =>
      forallb isBindingName elements
  | BindingElement propertyName name initializer =>
      optionb isExpression propertyName && isBindingName name
      && optionb isExpression initializer
  | _ => false
  end.

(** A variable declaration whose name is a destructuring pattern. *)
Definition isDestructuring (decl : Node) : bool :=
  match decl with
  | VariableDeclaration (ObjectBindingPattern elements) initializer
  | VariableDeclaration (ArrayBindingPattern elements) initializer =>
      forallb isBindingName elements && optionb isExpression initializer
  | _ => false
  end.

(** A plain directory name: not empty, without separator and without dot. *)
Definition isPlainName (segment : Path.chars) : bool :=
  negb (Path.isEmpty segment)
  && forallb (fun c => Path.notSlash c && Path.notDot c) segment.

(** ** Invariants of stateful handlers *)

(** [m] takes every state to one related to it by [R]. *)
Definition preserves {S A : Type} (R : S -> S -> Prop) (m : State S A) : Prop :=
  forall s, R s (snd (m s)).

(** What a run of the updater may do to [names] and [callNameMap]: append
    entries whose new names continue the numbering of [names]. *)
Definition extends (st st' : Renames) : Prop :=
  exists added : NamesSets,
    callNameMap st' = callNameMap st ++ added
    /\ names st' = names st ++ map newName added
    /\ map newName added = numberedFrom (List.length (names st)) (map base added).

(** [m] returns [a] and leaves every state as it is. *)
Definition inert {S A : Type} (m : State S A) (a : A) : Prop :=
  forall s, m s = (a, s).

(** A segment [normalizeString] keeps as it is: not empty, without
    separator, and neither [.] nor [..]. *)
Definition isKept (segment : Path.chars) : bool :=
  negb (Path.isEmpty segment)
  && forallb Path.notSlash segment
  && negb (Path.eqChars segment ["."%char])
  && negb (Path.eqChars segment ["."%char; "."%char]).

(** [m] returns [a], whatever it does to the state. *)
Definition returns {S A : Type} (m : State S A) (a : A) : Prop :=
  forall s, fst (m s) = a.

(** The names of the declarations with an identifier name that a statement
    of a module's body makes: those the collector records for it. *)
Definition recordedNames (statement : Node) : list string :=
  match statement with
  | VariableStatement _ (VariableDeclarationList _ declarations) =>
      flat_map (fun decl => match decl with
                            | VariableDeclaration (Identifier name) _ => [name]
                            | _ => []
                            end) declarations
  | FunctionDeclaration _ (Some (Identifier name)) _ _
  | ClassDeclaration _ (Some (Identifier name)) _
  | EnumDeclaration _ (Identifier name) _
  | InterfaceDeclaration _ (Identifier name)
  | TypeAliasDeclaration _ (Identifier name) =>
      if String.eqb name "" then [] else [name]
  | _ => []
  end.

(** [dep] declares [name], with an identifier, directly in its body. *)
Definition declares (name : string) (dep : DepsFile) : bool :=
  match content dep with
  | SourceFile statements => existsb (String.eqb name) (flat_map recordedNames statements)
  | _ => false
  end.

(** No name loses entries. *)
Definition grows (namesMap namesMap' : DuplicatesNameMap) : Prop :=
  forall name, size namesMap name <= size namesMap' name.

(** An entry for the pair [(b, f)] of a base name and a module. *)
Definition entryFor (b f : string) (entry : NameEntry) : Prop :=
  base entry = b /\ efile entry = f.

(** [mapping] is the entry of [map] for the pair [(b, f)]: the first one,
    should [map] hold several. *)
Definition firstEntryFor (map : NamesSets) (b f : string) (mapping : NameEntry) : Prop :=
  exists before after,
    map = before ++ mapping :: after
    /\ entryFor b f mapping
    /\ forall entry, In entry before -> ~ entryFor b f entry.

(** The warning for a name: its line, then one line for each of the files
    recorded for the name, in the order they were recorded. *)
Definition warningLines (name : string) (files : list string) : list string :=
  ("Name -> " ++ name ++ " declared in multiple files :")%string
  :: map (fun f => ("  - " ++ f)%string) files.

(** The last name of a directory path: what follows its last separator. *)
Definition lastName (dir : string) : Path.chars :=
  last (Path.split (ofString dir)) [].

(** A name in which [path.parse] finds no extension: it has no dot after
    its first character. *)
Definition hasNoExtension (name : Path.chars) : bool :=
  forallb Path.notDot (tl name).

(* ================================================================== *)
(** ** [uniqueName]: the stored prefixes (index.ts 55-87) *)

(** [storedPrefix: Map<string, string>], keys in insertion order. *)
Definition Prefixes : Type := list (string * string).

Fixpoint hasStored (storedPrefix : Prefixes) (key : string) : bool :=
  match storedPrefix with
  | [] => false
  | (k, _) :: rest => if String.eqb k key then true else hasStored rest key
  end.

Fixpoint getStored (storedPrefix : Prefixes) (key : string) : option string :=
  match storedPrefix with
  | [] => None
  | (k, v) :: rest => if String.eqb k key then Some v else getStored rest key
  end.

(** How [setPrefix] ends: it throws after [console.warn], or it returns the
    object whose [getName] closes over [_fix] and over a new, empty [names]. *)
Inductive SetPrefix : Type :=
  | Thrown (warning : string)
  | Generator (_fix : string) (names : list string).

Definition setPrefix (key value : string) : State Prefixes SetPrefix :=
  fun storedPrefix =>
    if hasStored storedPrefix key
    then (Thrown (key ++ " already exist")%string, storedPrefix)
    else (Generator value [], storedPrefix ++ [(key, value)]).

(** [getPrefix(key)]: the stored value, or [undefined]. *)
Definition getPrefix (key : string) (storedPrefix : Prefixes) : option string :=
  if hasStored storedPrefix key then getStored storedPrefix key else None.

(** The prefix [getName] puts before its input: [_fix] when it is truthy. *)
Definition prefixOf (_fix : string) : string :=
  if negb (String.eqb _fix "") then _fix else "$nyein".

(** The names a generator with that prefix hands out for [inputs] when
    [names] already holds [count] entries. *)
Fixpoint numberedWith (prefix : string) (count : nat) (inputs : list string)
  : list string :=
  match inputs with
  | [] => []
  | input :: rest =>
      (prefix ++ input ++ "_" ++ decimal (count + 1))%string
      :: numberedWith prefix (S count) rest
  end.

(* ================================================================== *)
(** ** Vocabulary of the further properties *)

(** The nodes at which the collector turns its [isGlobalScope] flag off. *)
Definition introducesScope (node : Node) : bool :=
  match node with
  | Block _
  | FunctionDeclaration _ _ _ _
  | FunctionExpression _ _ _
  | ArrowFunction _ _
  | MethodDeclaration _ _ _ _
  | ClassDeclaration _ _ _ => true
  | _ => false
  end.

(** [s'] is [s] with entries appended that all satisfy [P]. *)
Definition appends {A : Type} (P : A -> Prop) (s s' : list A) : Prop :=
  exists added, s' = s ++ added /\ Forall P added.

(** Some entry of [map] is about [file]. *)
Definition mentions (map : NamesSets) (file : string) : bool :=
  existsb (fun m => String.eqb (efile m) file) map.

(** [p] holds of a node and of every node below it. *)
Fixpoint everyNode (p : Node -> bool) (node : Node) {struct node} : bool :=
  p node
  && match node with
     | SourceFile ss | Block ss => forallb (everyNode p) ss
     | Identifier _ | StringLiteral _ | NumericLiteral _ => true
     | VariableStatement _ dl => everyNode p dl
     | VariableDeclarationList _ ds => forallb (everyNode p) ds
     | VariableDeclaration n i | ParameterDeclaration n i | EnumMember n i
     | PropertyDeclaration _ n i =>
         everyNode p n && optionb (everyNode p) i
     | ObjectBindingPattern es | ArrayBindingPattern es
     | NamedImports es | NamedExports es => forallb (everyNode p) es
     | BindingElement q n i =>
         optionb (everyNode p) q && everyNode p n && optionb (everyNode p) i
     | FunctionDeclaration _ n ps b =>
         optionb (everyNode p) n && forallb (everyNode p) ps && optionb (everyNode p) b
     | ClassDeclaration _ n ms => optionb (everyNode p) n && forallb (everyNode p) ms
     | MethodDeclaration _ n ps b =>
         everyNode p n && forallb (everyNode p) ps && optionb (everyNode p) b
     | EnumDeclaration _ n ms => everyNode p n && forallb (everyNode p) ms
     | InterfaceDeclaration _ n | TypeAliasDeclaration _ n | NamespaceImport n => everyNode p n
     | ExpressionStatement e | ExportAssignment _ e => everyNode p e
     | ReturnStatement e => optionb (everyNode p) e
     | IfStatement e t f => everyNode p e && everyNode p t && optionb (everyNode p) f
     | CallExpression e args | NewExpression e args =>
         everyNode p e && forallb (everyNode p) args
     | PropertyAccessExpression e n => everyNode p e && everyNode p n
     | ArrowFunction ps b => forallb (everyNode p) ps && everyNode p b
     | FunctionExpression n ps b =>
         optionb (everyNode p) n && forallb (everyNode p) ps && everyNode p b
     | BinaryExpression l _ r => everyNode p l && everyNode p r
     | ImportDeclaration c m => optionb (everyNode p) c && everyNode p m
     | ImportClause _ n b => optionb (everyNode p) n && optionb (everyNode p) b
     | ImportSpecifier _ q n | ExportSpecifier _ q n =>
         optionb (everyNode p) q && everyNode p n
     | ExportDeclaration _ c m => optionb (everyNode p) c && optionb (everyNode p) m
     end.

(** The three kinds of node at which [callExpression] looks for a name:
    calls, property accesses and [new] expressions. *)
Definition isReferenceSite (node : Node) : bool :=
  match node with
  | CallExpression _ _ | PropertyAccessExpression _ _ | NewExpression _ _ => true
  | _ => false
  end.

(** An entry the updater may push while it works on [file]. *)
Definition renamesOf (namesMap : DuplicatesNameMap) (file : string) (entry : NameEntry)
  : Prop :=
  efile entry = file /\ isDuplicated namesMap (base entry) = true.

(** The updater's state with call-site entries appended that satisfy [P]. *)
Definition pushes (P : NameEntry -> Prop) (st st' : Renames) : Prop :=
  appends P (callNameMap st) (callNameMap st').

(** An entry [exportExpression] may push while it works on [file]: a
    call-site entry of [file] under the key of [file]. *)
Definition exportedFrom (callNameMap : NamesSets) (file : string) (entry : NameEntry)
  : Prop :=
  efile entry = getFileKey file
  /\ exists m, In m callNameMap
               /\ base m = base entry /\ efile m = file /\ newName m = newName entry.

(** An entry [importExpression] may push while it works on [file]: an
    export entry under the path of [file]. *)
Definition importedFrom (exportNameMap : NamesSets) (file : string) (entry : NameEntry)
  : Prop :=
  efile entry = file
  /\ exists m, In m exportNameMap /\ base m = base entry /\ newName m = newName entry.

(** An export entry that repeats a call-site entry under the key of its file. *)
Definition fromCallSite (callNameMap : NamesSets) (entry : NameEntry) : Prop :=
  exists c, In c callNameMap
            /\ base entry = base c /\ newName entry = newName c
            /\ efile entry = getFileKey (efile c).

(** An import entry that repeats the names of an export entry. *)
Definition fromExport (exportNameMap : NamesSets) (entry : NameEntry) : Prop :=
  exists m, In m exportNameMap /\ base entry = base m /\ newName entry = newName m.

(** The two kinds of node at which [exportExpression] looks for a name. *)
Definition isExportSite (node : Node) : bool :=
  match node with
  | ExportSpecifier _ _ _ | ExportAssignment _ _ => true
  | _ => false
  end.

Definition isImportDeclaration (node : Node) : bool :=
  match node with
  | ImportDeclaration _ _ => true
  | _ => false
  end.

(** [{ const base = initializer; }], a block with one declaration of its own. *)
Definition localDeclaration (modifiers : list Modifier) (flags : DeclarationKind)
           (base : string) (initializer : option Node) : Node :=
  Block [VariableStatement modifiers
           (VariableDeclarationList flags [VariableDeclaration (Identifier base) initializer])].

(** The absolute path made of [segments]: [/] followed by the segments
    joined with [/]. *)
Definition absolutePath (segments : list Path.chars) : string :=
  toString ("/"%char :: Path.joinWith segments).

(* ================================================================== *)
(** ** Helpers of the build: [getEntryPath] (helpers.ts) and the names of
       the emitted files (compilers.ts)

    Strings are read one character per byte here, which is what JavaScript
    does with text that is ASCII. *)

Definition isAscii (l : Path.chars) : bool :=
  forallb (fun c => (nat_of_ascii c <? 128)%nat) l.

(** [getEntryPath(entry)]: [entry.match(/^\.+/)] is the run of dots at the
    start of [entry]; when there is one, [entry.slice(match[0].length + 1)]
    trimmed is returned, and [entry] itself otherwise. *)
Definition getEntryPath (entry : string) : string :=
  match Path.takeWhile Path.isDot (ofString entry) with
  | [] => entry
  | matched => trim (toString (skipn (List.length matched + 1) (ofString entry)))
  end.

(** Regular expressions made of literal characters and of [.], which
    matches any character but a line terminator. *)
Inductive Atom : Type :=
  | AnyCharacter
  | Literal (c : ascii).

Definition isLineTerminator (c : ascii) : bool :=
  let n := nat_of_ascii c in ((n =? 10) || (n =? 13))%nat.

Definition matchesAtom (atom : Atom) (c : ascii) : bool :=
  match atom with
  | AnyCharacter => negb (isLineTerminator c)
  | Literal x => Ascii.eqb x c
  end.

(** The pattern matches at the start of [s]. *)
Fixpoint matchesAt (pattern : list Atom) (s : Path.chars) : bool :=
  match pattern, s with
  | [], _ => true
  | atom :: pattern', c :: s' => matchesAtom atom c && matchesAt pattern' s'
  | _ :: _, [] => false
  end.

(** [s.replace(/pattern/g, replacement)] for ASCII text and a replacement
    without [$], as the replacements of the code are ([.cjs], [.map.cjs],
    [.d.cts] and the same with [m]): the matches are taken from left to right
    and do not overlap, and the replacement is put in as it is; [skip] counts
    the characters of the current match that are still to be passed. *)
Fixpoint replaceAll (pattern : list Atom) (replacement : Path.chars) (skip : nat)
         (s : Path.chars) : Path.chars :=
  match s with
  | [] => []
  | c :: rest =>
      match skip with
      | S skip' => replaceAll pattern replacement skip' rest
      | O =>
          if matchesAt pattern s
          then replacement ++ replaceAll pattern replacement (List.length pattern - 1) rest
          else c :: replaceAll pattern replacement 0 rest
      end
  end.

(** [/.js/g], [/.map.js/g] and [/.d.ts/g] *)
Definition dotJs : list Atom := [AnyCharacter; Literal "j"; Literal "s"].
Definition dotMapJs : list Atom :=
  [AnyCharacter; Literal "m"; Literal "a"; Literal "p"; AnyCharacter; Literal "j"; Literal "s"].
Definition dotDTs : list Atom :=
  [AnyCharacter; Literal "d"; AnyCharacter; Literal "t"; Literal "s"].

(** The name under which [Compilers.commonjs] ([kind] is [c]) and
    [Compilers.esm] ([kind] is [m]) write an emitted file:
    [outName.replace(/.js/g, ".cjs")], then [.replace(/.map.js/g, ".map.cjs")],
    then [.replace(/.d.ts/g, ".d.cts")]. *)
Definition writtenName (kind : ascii) (outName : Path.chars) : Path.chars :=
  let outName1 := replaceAll dotJs ("."%char :: kind :: ofString "js") 0 outName in
  let outName2 :=
    replaceAll dotMapJs (ofString ".map." ++ kind :: ofString "js") 0 outName1 in
  replaceAll dotDTs (ofString ".d." ++ kind :: ofString "ts") 0 outName2.

(** The letter [x] occurs in [l] with the letter [y] right after it. *)
Fixpoint pairOccurs (x y : ascii) (l : Path.chars) : bool :=
  match l with
  | a :: (b :: _) as rest => (Ascii.eqb x a && Ascii.eqb y b) || pairOccurs x y rest
  | _ => false
  end.

(* ================================================================== *)
(** * Properties *)

(** ** Induction over syntax trees *)

Lemma Forall_all {A : Type} (P : A -> Prop) (f : forall a, P a) (l : list A) : Forall P l.
Proof. induction l; constructor; auto. Defined.

Lemma Forall_opt {A : Type} (P : A -> Prop) (f : forall a, P a) (o : option A)
  : Forall P (optList o).
Proof. destruct o; simpl; repeat constructor; auto. Defined.

(** A property holds of every node as soon as it passes from the children
    of a node to the node. *)
Lemma Node_children_ind (P : Node -> Prop)
      (step : forall node, Forall P (children node) -> P node) :
  forall node, P node.
Proof.
  fix IH 1. intros node. apply step.
  destruct node; simpl;
    repeat first
      [ apply Forall_nil
      | apply Forall_cons; [ apply IH | ]
      | apply Forall_app; split
      | apply (Forall_opt P IH)
      | apply (Forall_all P IH) ].
Qed.

(** One hypothesis for each child of a node. *)
Ltac split_children :=
  repeat match goal with
         | H : Forall _ (_ ++ _) |- _ => apply Forall_app in H; destruct H
         | H : Forall _ (_ :: _) |- _ => apply Forall_cons_iff in H; destruct H
         end.

(** ** Invariants pass through the traversals *)

Section Preservation.
Context {S : Type} (R : S -> S -> Prop).
Hypothesis R_refl : forall s, R s s.
Hypothesis R_trans : forall a b c, R a b -> R b c -> R a c.

Lemma preserves_ret (A : Type) (a : A) : preserves R (ret a).
Proof. intros s. apply R_refl. Qed.

Lemma preserves_bind (A B : Type) (m : State S A) (k : A -> State S B) :
  preserves R m -> (forall a, preserves R (k a)) -> preserves R (bind m k).
Proof.
  intros Hm Hk s. unfold bind. specialize (Hm s).
  destruct (m s) as [a s1]. simpl in Hm.
  eapply R_trans; [exact Hm | apply Hk].
Qed.

Lemma preserves_mapM (A B : Type) (f : A -> State S B) (l : list A) :
  Forall (fun x => preserves R (f x)) l -> preserves R (mapM f l).
Proof.
  induction 1 as [|x l Hx _ IH]; simpl.
  - apply preserves_ret.
  - apply preserves_bind; [exact Hx | intros y].
    apply preserves_bind; [exact IH | intros ys]. apply preserves_ret.
Qed.

Lemma preserves_optM (A B : Type) (f : A -> State S B) (o : option A) :
  Forall (fun x => preserves R (f x)) (optList o) -> preserves R (optM f o).
Proof.
  destruct o as [x|]; simpl; intros H.
  - inversion H; subst. apply preserves_bind; [assumption | intros y].
    apply preserves_ret.
  - apply preserves_ret.
Qed.

Lemma preserves_visitEachChild (visitor : Node -> State S Node) (node : Node) :
  Forall (fun child => preserves R (visitor child)) (children node) ->
  preserves R (visitEachChild visitor node).
Proof.
  intros H.
  destruct node; simpl in H; split_children;
    simpl;
    repeat (apply preserves_bind; [ | intros ? ]);
    first [ apply preserves_ret
          | apply preserves_mapM; assumption
          | apply preserves_optM; assumption
          | assumption ].
Qed.
End Preservation.

(** ** The numbering of generated names *)

Lemma numberedFrom_app (count : nat) (a b : list string) :
  numberedFrom count (a ++ b)
  = numberedFrom count a ++ numberedFrom (count + List.length a) b.
Proof.
  revert count. induction a as [|x a IH]; intros count; simpl.
  - rewrite Nat.add_0_r. reflexivity.
  - rewrite IH. do 3 f_equal. lia.
Qed.

Lemma extends_refl (st : Renames) : extends st st.
Proof. exists []. simpl. rewrite !app_nil_r. auto. Qed.

Lemma extends_trans (a b c : Renames) : extends a b -> extends b c -> extends a c.
Proof.
  intros (x & Hx1 & Hx2 & Hx3) (y & Hy1 & Hy2 & Hy3).
  exists (x ++ y). rewrite Hy1, Hx1, Hy2, Hx2, !map_app, <- !app_assoc.
  repeat split. rewrite numberedFrom_app, Hx3, Hy3, Hx2.
  rewrite length_app, !length_map. reflexivity.
Qed.

Lemma rename_extends (file base : string) : preserves extends (rename file base).
Proof.
  intros st. unfold rename, dupName, getName. simpl.
  exists [mkEntry base file ("d_" ++ base ++ "_" ++ decimal (List.length (names st) + 1))].
  simpl. auto.
Qed.

Create HintDb renames.
#[local] Hint Resolve extends_refl extends_trans rename_extends : renames.

Lemma renamed_node_extends (file base : string) (rebuilt : string -> Node) :
  preserves extends (newName <- rename file base ;; ret (rebuilt newName)).
Proof.
  apply preserves_bind; eauto with renames.
  intros newName. apply preserves_ret; eauto with renames.
Qed.

Lemma updateDeclaration_extends (namesMap : DuplicatesNameMap) (file : string) (decl : Node) :
  preserves extends (Updater.updateDeclaration namesMap file decl).
Proof.
  unfold Updater.updateDeclaration.
  destruct decl; try (apply preserves_ret; eauto with renames).
  destruct decl; try (apply preserves_ret; eauto with renames).
  destruct (isDuplicated namesMap text).
  - apply renamed_node_extends.
  - apply preserves_ret; eauto with renames.
Qed.

(** The defining equations of the updater's visitor. *)
Lemma updater_variableStatement namesMap file modifiers flags declarations :
  Updater.visitor namesMap file
    (VariableStatement modifiers (VariableDeclarationList flags declarations))
  = (newDeclarations <- mapM (Updater.updateDeclaration namesMap file) declarations ;;
     ret (VariableStatement modifiers (VariableDeclarationList flags newDeclarations))).
Proof. reflexivity. Qed.

Lemma updater_functionDeclaration namesMap file modifiers base parameters body :
  Updater.visitor namesMap file
    (FunctionDeclaration modifiers (Some (Identifier base)) parameters body)
  = if isDuplicated namesMap base
    then newName <- rename file base ;;
         ret (FunctionDeclaration modifiers (Some (Identifier newName)) parameters body)
    else visitEachChild (Updater.visitor namesMap file)
           (FunctionDeclaration modifiers (Some (Identifier base)) parameters body).
Proof. reflexivity. Qed.

Lemma updater_classDeclaration namesMap file modifiers base members :
  Updater.visitor namesMap file
    (ClassDeclaration modifiers (Some (Identifier base)) members)
  = if isDuplicated namesMap base
    then newName <- rename file base ;;
         ret (ClassDeclaration modifiers (Some (Identifier newName)) members)
    else visitEachChild (Updater.visitor namesMap file)
           (ClassDeclaration modifiers (Some (Identifier base)) members).
Proof. reflexivity. Qed.

Lemma updater_visitor_extends (namesMap : DuplicatesNameMap) (file : string) (node : Node) :
  preserves extends (Updater.visitor namesMap file node).
Proof.
  induction node as [node IH] using Node_children_ind.
  assert (Hdefault : preserves extends
                       (visitEachChild (Updater.visitor namesMap file) node))
    by (apply preserves_visitEachChild; eauto with renames).
  destruct node; try exact Hdefault.
  - (* VariableStatement *)
    destruct node; try (apply preserves_ret; eauto with renames).
    rewrite updater_variableStatement.
    apply preserves_bind; [ eauto with renames | | intros ?; apply preserves_ret; eauto with renames ].
    apply preserves_mapM; eauto with renames.
    apply Forall_forall. intros. apply updateDeclaration_extends.
  - (* FunctionDeclaration *)
    destruct name as [[]|]; try exact Hdefault.
    rewrite updater_functionDeclaration.
    destruct (isDuplicated namesMap text); [ | exact Hdefault ].
    apply renamed_node_extends.
  - (* ClassDeclaration *)
    destruct name as [[]|]; try exact Hdefault.
    rewrite updater_classDeclaration.
    destruct (isDuplicated namesMap text); [ | exact Hdefault ].
    apply renamed_node_extends.
Qed.

Lemma updater_extends (namesMap : DuplicatesNameMap) (deps : list DepsFile) :
  preserves extends (mapM (updater namesMap) deps).
Proof.
  apply preserves_mapM; eauto with renames.
  apply Forall_forall. intros dep _. unfold updater.
  apply preserves_bind; eauto with renames.
  - apply updater_visitor_extends.
  - intros ?. apply preserves_ret; eauto with renames.
Qed.

(* ================================================================== *)
(** ** The three-module scenario *)

(** C1.  On the batch [a = const foo = () => 1; export { foo };],
    [b = const foo = () => 2; export { foo };],
    [main = import { foo } from "./a"; export const sum = foo();]
    a first run of [renamed] returns [a] declaring and exporting [d_foo_1],
    [b] declaring and exporting [d_foo_2], and [main] importing [{ d_foo_1 }]
    from ["./a"] and calling [d_foo_1()]. *)
Theorem renamed_three_modules :
  r_deps (firstRun [moduleA; moduleB; moduleMain])
  = [ mkDeps "/project/a/index.ts"
        (SourceFile [constDecl [] "d_foo_1" (ArrowFunction [] (NumericLiteral "1"));
                     exportNames ["d_foo_1"]]);
      mkDeps "/project/b/index.ts"
        (SourceFile [constDecl [] "d_foo_2" (ArrowFunction [] (NumericLiteral "2"));
                     exportNames ["d_foo_2"]]);
      mkDeps "/project/main.ts"
        (SourceFile [importNames None ["d_foo_1"] "./a";
                     constDecl [ExportKeyword] "sum"
                       (CallExpression (Identifier "d_foo_1") [])]) ].
Proof. vm_compute. reflexivity. Qed.

(* ================================================================== *)
(** ** The declaration index counts declarations, not modules *)

(** C2.  A module that declares [area] twice at top level (an overload
    signature and its implementation) and stands alone in its batch: one
    module declares the name, there is no collision, and still [notRenamed]
    warns that [area] is declared in multiple files and exits with code 1.
    The index holds one [{ file }] object per declaration. *)
Theorem notRenamed_reports_name_of_one_module :
  declaringModules "area" [moduleOverload] = ["/project/shapes.ts"]
  /\ collides "area" [moduleOverload] = false
  /\ v_namesMap (notRenamed [moduleOverload] [])
     = [("area", ["/project/shapes.ts"; "/project/shapes.ts"])]
  /\ reports (notRenamed [moduleOverload] []) "area" = true
  /\ v_completion (notRenamed [moduleOverload] []) = Exited 1.
Proof. vm_compute. repeat split; reflexivity. Qed.

Lemma single_module_never_collides (dep : DepsFile) (name : string) :
  collides name [dep] = false.
Proof.
  unfold collides, declaringModules. simpl.
  destruct (existsb (String.eqb name) (topLevelNames dep)); reflexivity.
Qed.

(** C4.  The same one-module batch has no top-level name collision, yet
    [renamed] returns it changed: both declarations of [area] carry new,
    different names. *)
Theorem renamed_changes_batch_without_collision :
  (forall name, collides name [moduleOverload] = false)
  /\ r_deps (firstRun [moduleOverload])
     = [ mkDeps "/project/shapes.ts"
           (SourceFile
              [FunctionDeclaration [] (Some (Identifier "d_area_1"))
                 [ParameterDeclaration (Identifier "r") None] None;
               FunctionDeclaration [] (Some (Identifier "d_area_2"))
                 [ParameterDeclaration (Identifier "r") None]
                 (Some (Block [ReturnStatement (Some (Identifier "r"))]))]) ]
  /\ r_deps (firstRun [moduleOverload]) <> [moduleOverload].
Proof.
  split; [ intros name; apply single_module_never_collides | ].
  split; [ vm_compute; reflexivity | ].
  vm_compute. discriminate.
Qed.

(* ================================================================== *)
(** ** Declarations the updater passes over *)

(** C3.  Two modules that each declare [enum Color]: the collector records
    [Color] with two entries, and the updater returns both modules as they
    were, generates no name and appends nothing to the call-site map. *)
Theorem updater_leaves_colliding_enum :
  let r := firstRun [modulePaint; moduleInk] in
  collides "Color" [modulePaint; moduleInk] = true
  /\ size (r_namesMap r) "Color" = 2
  /\ (forall st, updater (r_namesMap r) modulePaint st = (modulePaint, st))
  /\ r_deps r = [modulePaint; moduleInk]
  /\ r_names r = []
  /\ r_callNameMap r = [].
Proof. vm_compute. repeat split; reflexivity. Qed.

(* ================================================================== *)
(** ** Imports with a default binding and named specifiers *)

(** C8.  [import foo, { bar } from "./a"] when the export map holds renames
    for both [foo] and [bar] of [/project/a]: the default binding is
    rewritten and recorded, the visitor returns there, and [bar] is neither
    rewritten nor recorded.  In the full run the exporting module ends up
    exporting [d_bar_2] while the importer still imports and calls [bar]. *)
Theorem importExpression_returns_after_default_binding :
  let exportNameMap := [mkEntry "foo" "/project/a" "d_foo_1";
                        mkEntry "bar" "/project/a" "d_bar_2"] in
  ImportExpression.visitor "/" noText exportNameMap "/project/main.ts"
    (importNames (Some "foo") ["bar"] "./a") []
  = (importNames (Some "d_foo_1") ["bar"] "./a",
     [mkEntry "foo" "/project/main.ts" "d_foo_1"])
  /\ ImportExpression.visitor "/" noText exportNameMap "/project/main.ts"
       (importNames None ["bar"] "./a") []
     = (importNames None ["d_bar_2"] "./a",
        [mkEntry "bar" "/project/main.ts" "d_bar_2"])
  /\ let r := firstRun [moduleBoth "/project/a.ts"; moduleBoth "/project/b.ts"; moduleUser] in
     In (mkEntry "bar" "/project/a" "d_bar_2") (r_exportNameMap r)
     /\ r_importNameMap r = [mkEntry "foo" "/project/main.ts" "d_foo_1"]
     /\ nth_error (r_deps r) 2
        = Some (mkDeps "/project/main.ts"
                  (SourceFile
                     [importNames (Some "d_foo_1") ["bar"] "./a";
                      ExpressionStatement (CallExpression (Identifier "d_foo_1") []);
                      ExpressionStatement (CallExpression (Identifier "bar") [])])).
Proof.
  vm_compute. repeat split; try reflexivity. right. left. reflexivity.
Qed.

(* ================================================================== *)
(** ** Suffixes of generated names *)

(** C5 (amended).  In one call of [renamed] that finds [names] holding
    [k] entries, the entries appended to the call-site map, in order, have
    the new names [d_<base>_<k+1>], [d_<base>_<k+2>], ..., whatever the base
    names are, and [names] grows by exactly these names; a first call after
    loading ([k = 0]) numbers from 1. *)
Theorem renamed_numbers_from_names_length
        (cwd : string) (getText : Node -> string) (deps : list DepsFile)
        (namesMap : DuplicatesNameMap)
        (callNameMap importNameMap exportNameMap : NamesSets) (names : list string) :
  let r := renamed cwd getText deps namesMap callNameMap importNameMap exportNameMap names in
  exists added : NamesSets,
    r_callNameMap r = callNameMap ++ added
    /\ r_names r = names ++ map newName added
    /\ map newName added = numberedFrom (List.length names) (map base added).
Proof.
  unfold renamed.
  destruct (mapM collector deps namesMap) as [deps1 namesMap1].
  pose proof (updater_extends namesMap1 deps1 (mkRenames names callNameMap)) as H.
  destruct (mapM (updater namesMap1) deps1 (mkRenames names callNameMap))
    as [deps2 [names2 callNameMap2]].
  repeat match goal with
         | |- context [let (_, _) := ?m in _] => destruct m
         end.
  exact H.
Qed.

(** C5, the claim as stated fails: the three-module batch run a second
    time in the same process, with fresh maps, gets the suffixes [_3] and
    [_4], because [names] still holds the two names of the first run. *)
Lemma second_run_continues_numbering :
  let batch := [moduleA; moduleB; moduleMain] in
  let second := renamed "/" noText batch [] [] [] [] (r_names (firstRun batch)) in
  map newName (r_callNameMap second) = ["d_foo_3"; "d_foo_4"]
  /\ map newName (r_callNameMap second)
     <> numberedFrom 0 (map base (r_callNameMap second)).
Proof. vm_compute. split; [ reflexivity | discriminate ]. Qed.

(* ================================================================== *)
(** ** Traversals that change nothing *)

Section Inert.
Context {S : Type}.

Lemma inert_ret (A : Type) (a : A) : inert (ret (S := S) a) a.
Proof. intros s. reflexivity. Qed.

Lemma inert_bind (A B : Type) (m : State S A) (k : A -> State S B) (a : A) (b : B) :
  inert m a -> inert (k a) b -> inert (bind m k) b.
Proof. intros Hm Hk s. unfold bind. rewrite Hm. apply Hk. Qed.

Lemma inert_mapM (A : Type) (f : A -> State S A) (l : list A) :
  Forall (fun x => inert (f x) x) l -> inert (mapM f l) l.
Proof.
  induction 1 as [|x l Hx _ IH]; simpl.
  - apply inert_ret.
  - eapply inert_bind; [exact Hx | ].
    eapply inert_bind; [exact IH | apply inert_ret].
Qed.

Lemma inert_optM (A : Type) (f : A -> State S A) (o : option A) :
  Forall (fun x => inert (f x) x) (optList o) -> inert (optM f o) o.
Proof.
  destruct o as [x|]; simpl; intros H.
  - inversion H; subst. eapply inert_bind; [eassumption | apply inert_ret].
  - apply inert_ret.
Qed.

Lemma inert_visitEachChild (visitor : Node -> State S Node) (node : Node) :
  Forall (fun child => inert (visitor child) child) (children node) ->
  inert (visitEachChild visitor node) node.
Proof.
  intros H.
  destruct node; simpl in H; split_children;
    simpl;
    repeat first
      [ apply inert_ret
      | eapply inert_bind;
        [ first [ apply inert_mapM; eassumption
                | apply inert_optM; eassumption
                | eassumption ] | ] ].
Qed.
End Inert.

Lemma Forall_forallb_impl {A : Type} (p : A -> bool) (Q : A -> Prop) (l : list A) :
  Forall (fun x => p x = true -> Q x) l -> forallb p l = true -> Forall Q l.
Proof.
  induction 1 as [|x l Hx _ IH]; simpl; intros Hp; constructor;
    apply andb_prop in Hp; destruct Hp; auto.
Qed.

(** ** The collector below a scope boundary, in expressions and in patterns *)

Lemma visitNode_unfold (file : string) (node : Node) (isGlobalScope : bool)
      (namesMap : DuplicatesNameMap) :
  visitNode file node isGlobalScope namesMap
  = let namesMap1 :=
      if isGlobalScope then collectDeclared file node namesMap else namesMap in
    match node with
    | Block statements =>
        let (_, namesMap2) :=
          mapM (fun child => visitNode file child false) statements namesMap1 in
        (node, namesMap2)
    | FunctionDeclaration _ _ _ _
    | FunctionExpression _ _ _
    | ArrowFunction _ _
    | MethodDeclaration _ _ _ _
    | ClassDeclaration _ _ _ =>
        (node,
         forEachChild (fun child s => snd (visitNode file child false s)) node namesMap1)
    | _ =>
        visitEachChild (fun child => visitNode file child isGlobalScope) node namesMap1
    end.
Proof. destruct node; reflexivity. Qed.

Lemma forEachChild_local (file : string) (node : Node) (namesMap : DuplicatesNameMap) :
  Forall (fun child => inert (visitNode file child false) child) (children node) ->
  forEachChild (fun child s => snd (visitNode file child false s)) node namesMap = namesMap.
Proof.
  intros H. unfold forEachChild. rewrite inert_visitEachChild; [ reflexivity | ].
  eapply Forall_impl; [ | exact H ]. intros child Hc s. simpl. rewrite Hc. reflexivity.
Qed.

(** Once the flag is off nothing is recorded, however deep the visit goes. *)
Lemma visitNode_local (file : string) (node : Node) :
  inert (visitNode file node false) node.
Proof.
  induction node as [node IH] using Node_children_ind.
  intros namesMap. rewrite visitNode_unfold. cbv zeta.
  pose proof (inert_visitEachChild (fun child => visitNode file child false) node IH namesMap)
    as Hdefault.
  pose proof (forEachChild_local file node namesMap IH) as Hlocal.
  destruct node; try exact Hdefault; try (rewrite Hlocal; reflexivity).
  (* Block *)
  simpl in IH. rewrite (inert_mapM _ IH). reflexivity.
Qed.

Lemma visitNode_expression (file : string) (node : Node) :
  isExpression node = true -> inert (visitNode file node true) node.
Proof.
  induction node as [node IH] using Node_children_ind.
  intros Hwf namesMap. rewrite visitNode_unfold.
  destruct node; simpl in Hwf; try discriminate; cbv zeta iota beta;
    try (change (collectDeclared file ?n namesMap) with namesMap);
    try (rewrite forEachChild_local;
         [ reflexivity
         | apply Forall_forall; intros; apply visitNode_local ]);
    apply inert_visitEachChild; simpl in *;
    repeat match goal with
           | H : _ && _ = true |- _ => apply andb_prop in H; destruct H
           | H : Forall _ (_ :: _) |- _ => apply Forall_cons_iff in H; destruct H
           end;
    repeat constructor; auto;
    eapply Forall_forallb_impl; eauto.
Qed.

Lemma visitNode_optional_expression (file : string) (o : option Node) :
  optionb isExpression o = true ->
  Forall (fun child => inert (visitNode file child true) child) (optList o).
Proof.
  destruct o; simpl; intros H; constructor; auto using visitNode_expression.
Qed.

Lemma visitNode_bindingName (file : string) (node : Node) :
  isBindingName node = true -> inert (visitNode file node true) node.
Proof.
  induction node as [node IH] using Node_children_ind.
  intros Hwf namesMap. rewrite visitNode_unfold.
  destruct node; simpl in Hwf; try discriminate; cbv zeta iota beta;
    change (collectDeclared file ?n namesMap) with namesMap;
    apply inert_visitEachChild; simpl in *.
  - constructor.
  - eapply Forall_forallb_impl; eauto.
  - eapply Forall_forallb_impl; eauto.
  - apply andb_prop in Hwf. destruct Hwf as [Hwf Hi].
    apply andb_prop in Hwf. destruct Hwf as [Hp Hn].
    apply Forall_app in IH. destruct IH as [_ IH].
    apply Forall_cons_iff in IH. destruct IH as [IHn _].
    apply Forall_app. split; [ apply visitNode_optional_expression; assumption | ].
    constructor; [ auto | apply visitNode_optional_expression; assumption ].
Qed.

(* ================================================================== *)
(** ** Destructuring variable statements *)

Lemma collectDeclared_destructuring (file : string) (declarations : list Node)
      (namesMap : DuplicatesNameMap) :
  forallb isDestructuring declarations = true ->
  fold_left
    (fun m decl =>
       match decl with
       | VariableDeclaration (Identifier name) _ => record m name file
       | _ => m
       end)
    declarations namesMap
  = namesMap.
Proof.
  revert namesMap. induction declarations as [|decl rest IH]; intros namesMap H.
  - reflexivity.
  - simpl in H. apply andb_prop in H. destruct H as [Hd Hrest].
    destruct decl; try discriminate.
    destruct decl; try discriminate; simpl; apply IH; exact Hrest.
Qed.

Lemma visitNode_destructuring (file : string) (decl : Node) :
  isDestructuring decl = true -> inert (visitNode file decl true) decl.
Proof.
  intros H namesMap. rewrite visitNode_unfold.
  destruct decl; try discriminate.
  assert (Hname : isBindingName decl = true)
    by (destruct decl; try discriminate; simpl in *;
        apply andb_prop in H; destruct H; assumption).
  assert (Hinit : optionb isExpression initializer = true)
    by (destruct decl; try discriminate; simpl in *;
        apply andb_prop in H; destruct H; assumption).
  cbv zeta iota beta. change (collectDeclared file ?n namesMap) with namesMap.
  apply inert_visitEachChild. simpl. constructor.
  - apply visitNode_bindingName. assumption.
  - apply visitNode_optional_expression. assumption.
Qed.

Lemma updateDeclaration_destructuring (namesMap : DuplicatesNameMap) (file : string)
      (decl : Node) :
  isDestructuring decl = true ->
  inert (Updater.updateDeclaration namesMap file decl) decl.
Proof.
  intros H st. destruct decl; try discriminate.
  destruct decl; try discriminate; reflexivity.
Qed.

(** C10.  A variable statement all of whose declarations bind a
    destructuring pattern: the collector, visiting it at global scope,
    returns the statement and the declaration index as they were, whatever
    the index already holds; the updater returns the statement, the name
    generator and the call-site map as they were, whatever the index says
    about the names the pattern binds. *)
Theorem destructuring_statement_not_recorded_not_renamed
        (file : string) (modifiers : list Modifier) (flags : DeclarationKind)
        (declarations : list Node)
        (namesMap index : DuplicatesNameMap) (renames : Renames) :
  forallb isDestructuring declarations = true ->
  let statement :=
    VariableStatement modifiers (VariableDeclarationList flags declarations) in
  visitNode file statement true namesMap = (statement, namesMap)
  /\ Updater.visitor index file statement renames = (statement, renames).
Proof.
  intros H statement. split.
  - unfold statement. rewrite visitNode_unfold. cbv zeta iota beta.
    unfold collectDeclared. rewrite (collectDeclared_destructuring _ _ _ H).
    apply inert_visitEachChild. simpl. constructor; [ | constructor ].
    intros s. rewrite visitNode_unfold. cbv zeta iota beta.
    change (collectDeclared file ?n s) with s.
    apply inert_visitEachChild. simpl.
    eapply Forall_forallb_impl; [ | exact H ].
    apply Forall_forall. intros decl _ Hd. apply visitNode_destructuring. exact Hd.
  - unfold statement. rewrite updater_variableStatement.
    eapply inert_bind; [ | apply inert_ret ].
    apply inert_mapM. eapply Forall_forallb_impl; [ | exact H ].
    apply Forall_forall. intros decl _ Hd. apply updateDeclaration_destructuring. exact Hd.
Qed.

(** C10 at [const { a, b } = settings;], when [a] is already indexed for two
    other modules. *)
Lemma destructuring_statement_witness :
  let index := [("a", ["/project/x.ts"; "/project/y.ts"])] in
  visitNode "/project/z.ts" destructured true index = (destructured, index)
  /\ Updater.visitor index "/project/z.ts" destructured (mkRenames [] [])
     = (destructured, mkRenames [] []).
Proof.
  exact (destructuring_statement_not_recorded_not_renamed
           "/project/z.ts" [] Const
           [VariableDeclaration
              (ObjectBindingPattern [BindingElement None (Identifier "a") None;
                                     BindingElement None (Identifier "b") None])
              (Some (Identifier "settings"))]
           [("a", ["/project/x.ts"; "/project/y.ts"])]
           [("a", ["/project/x.ts"; "/project/y.ts"])]
           (mkRenames [] []) eq_refl).
Defined.

(* ================================================================== *)
(** ** Precedence of the call-site map *)

Lemma findEntry_first (map : NamesSets) (b f : string) (mapping : NameEntry) :
  firstEntryFor map b f mapping -> findEntry map b f = Some mapping.
Proof.
  intros (before & after & -> & [Hbase Hfile] & Hnone). unfold findEntry.
  induction before as [|entry before IH]; simpl.
  - rewrite Hbase, Hfile, !String.eqb_refl. reflexivity.
  - destruct (String.eqb (base entry) b && String.eqb (efile entry) f) eqn:Hentry.
    + exfalso. apply andb_true_iff in Hentry. destruct Hentry as [Hb Hf].
      apply String.eqb_eq in Hb. apply String.eqb_eq in Hf.
      apply (Hnone entry); [ left; reflexivity | split; assumption ].
    + apply IH. intros e He. apply Hnone. right. exact He.
Qed.

(** A map that holds an entry for a pair has a first one. *)
Lemma firstEntryFor_exists (map : NamesSets) (b f : string) (entry : NameEntry) :
  In entry map -> entryFor b f entry -> exists mapping, firstEntryFor map b f mapping.
Proof.
  induction map as [|head rest IH]; intros Hin Hentry; [ destruct Hin | ].
  destruct (String.eqb (base head) b && String.eqb (efile head) f) eqn:Hhead.
  - apply andb_true_iff in Hhead. destruct Hhead as [Hb Hf].
    apply String.eqb_eq in Hb. apply String.eqb_eq in Hf.
    exists head, [], rest. split; [ reflexivity | ].
    split; [ split; assumption | intros e [] ].
  - assert (Hrest : In entry rest).
    { destruct Hin as [-> | Hin]; [ | exact Hin ].
      destruct Hentry as [Hb Hf]. rewrite Hb, Hf, !String.eqb_refl in Hhead.
      discriminate. }
    destruct (IH Hrest Hentry) as (mapping & before & after & -> & Hmapping & Hnone).
    exists mapping, (head :: before), after. split; [ reflexivity | ].
    split; [ exact Hmapping | ].
    intros e [<- | He] [Hb Hf]; [ | exact (Hnone e He (conj Hb Hf)) ].
    rewrite Hb, Hf, !String.eqb_refl in Hhead. discriminate.
Qed.

(** C9.  When the call-site map and the import map both contain an entry
    for [(base, file)], every rewriting site applies the entry of the
    call-site map (the first one for the pair, should it hold several): the
    reference rewriter puts its new name on call, property-access and [new]
    expressions, the export rewriter puts it on export specifiers and export
    assignments (and records it in the export map).  The sites rewrite when
    the new name is truthy. *)
Theorem call_site_map_is_preferred
        (callNameMap importNameMap exportNameMap : NamesSets) (file base : string)
        (callEntry importEntry : NameEntry)
        (arguments : list Node) (name : Node)
        (isTypeOnly isExportEquals : bool) (propertyName : option Node) :
  In callEntry callNameMap -> entryFor base file callEntry ->
  In importEntry importNameMap -> entryFor base file importEntry ->
  exists mapping,
    firstEntryFor callNameMap base file mapping
    /\ lookupNewName callNameMap importNameMap base file = Some (newName mapping)
    /\ fst (ExportExpression.lookup callNameMap importNameMap file base exportNameMap)
       = Some (newName mapping)
    /\ (newName mapping <> "" ->
        CallExpression.visitor callNameMap importNameMap file
          (CallExpression (Identifier base) arguments)
        = CallExpression (Identifier (newName mapping)) arguments
        /\ CallExpression.visitor callNameMap importNameMap file
             (PropertyAccessExpression (Identifier base) name)
           = PropertyAccessExpression (Identifier (newName mapping)) name
        /\ CallExpression.visitor callNameMap importNameMap file
             (NewExpression (Identifier base) arguments)
           = NewExpression (Identifier (newName mapping)) arguments
        /\ ExportExpression.visitor callNameMap importNameMap file
             (ExportSpecifier isTypeOnly propertyName (Identifier base)) exportNameMap
           = (ExportSpecifier isTypeOnly propertyName (Identifier (newName mapping)),
              exportNameMap ++ [mkEntry base (getFileKey file) (newName mapping)])
        /\ ExportExpression.visitor callNameMap importNameMap file
             (ExportAssignment isExportEquals (Identifier base)) exportNameMap
           = (ExportAssignment isExportEquals (Identifier (newName mapping)),
              exportNameMap ++ [mkEntry base (getFileKey file) (newName mapping)])).
Proof.
  intros Hcall Hfor _ _.
  destruct (firstEntryFor_exists callNameMap Hcall Hfor) as [mapping Hfirst].
  exists mapping. split; [ exact Hfirst | ].
  apply findEntry_first in Hfirst. rename Hfirst into Hfind.
  assert (Hlookup : lookupNewName callNameMap importNameMap base file
                    = Some (newName mapping))
    by (unfold lookupNewName; rewrite Hfind; reflexivity).
  assert (Hexport : ExportExpression.lookup callNameMap importNameMap file base exportNameMap
                    = (Some (newName mapping),
                       exportNameMap ++ [mkEntry base (getFileKey file) (newName mapping)]))
    by (unfold ExportExpression.lookup; rewrite Hfind; reflexivity).
  split; [ exact Hlookup | ].
  split; [ rewrite Hexport; reflexivity | ].
  intros Hname.
  assert (Htruthy : truthy (Some (newName mapping)) = Some (newName mapping)).
  { unfold truthy. destruct (String.eqb_spec (newName mapping) ""); congruence. }
  repeat split.
  - simpl. rewrite Hlookup, Htruthy. reflexivity.
  - simpl. rewrite Hlookup, Htruthy. reflexivity.
  - simpl. rewrite Hlookup, Htruthy. reflexivity.
  - simpl. unfold bind. rewrite Hexport, Htruthy. reflexivity.
  - simpl. unfold bind. rewrite Hexport, Htruthy. reflexivity.
Qed.

(** C9 at [foo] in [/project/main.ts], renamed at its declaration to
    [d_foo_1] and also imported as [d_foo_2]: the call and the export
    specifier get [d_foo_1]. *)
Lemma call_site_map_is_preferred_witness :
  let callNameMap := [mkEntry "foo" "/project/main.ts" "d_foo_1"] in
  let importNameMap := [mkEntry "foo" "/project/main.ts" "d_foo_2"] in
  CallExpression.visitor callNameMap importNameMap "/project/main.ts"
    (CallExpression (Identifier "foo") [])
  = CallExpression (Identifier "d_foo_1") []
  /\ fst (ExportExpression.visitor callNameMap importNameMap "/project/main.ts"
            (ExportSpecifier false None (Identifier "foo")) [])
     = ExportSpecifier false None (Identifier "d_foo_1").
Proof.
  cbv zeta.
  destruct (@call_site_map_is_preferred
              [mkEntry "foo" "/project/main.ts" "d_foo_1"]
              [mkEntry "foo" "/project/main.ts" "d_foo_2"] []
              "/project/main.ts" "foo"
              (mkEntry "foo" "/project/main.ts" "d_foo_1")
              (mkEntry "foo" "/project/main.ts" "d_foo_2")
              [] (Identifier "x") false false None
              (or_introl eq_refl) (conj eq_refl eq_refl)
              (or_introl eq_refl) (conj eq_refl eq_refl))
    as (mapping & Hfirst & _ & _ & Hsites).
  assert (Hin : In mapping [mkEntry "foo" "/project/main.ts" "d_foo_1"]).
  { destruct Hfirst as (before & after & Hmap & _).
    rewrite Hmap. apply in_or_app. right. left. reflexivity. }
  destruct Hin as [<- | []].
  destruct Hsites as (Hcall & _ & _ & Hexport & _); [ simpl; discriminate | ].
  split; [ exact Hcall | rewrite Hexport; reflexivity ].
Defined.

(* ================================================================== *)
(** ** [notRenamed] *)

Lemma warnDuplicate_error (namesMap : DuplicatesNameMap) (_err : bool)
      (console : list string) :
  fst (fold_left warnDuplicate namesMap (_err, console)) = _err || hasDuplicate namesMap.
Proof.
  revert _err console. induction namesMap as [|[name files] rest IH]; intros _err console.
  - simpl. rewrite orb_false_r. reflexivity.
  - simpl. destruct (1 <? List.length files)%nat; rewrite IH.
    + rewrite orb_true_r. reflexivity.
    + reflexivity.
Qed.

Lemma warnDuplicate_quiet (namesMap : DuplicatesNameMap) (_err : bool)
      (console : list string) :
  hasDuplicate namesMap = false ->
  snd (fold_left warnDuplicate namesMap (_err, console)) = console.
Proof.
  revert _err console. induction namesMap as [|[name files] rest IH];
    intros _err console H.
  - reflexivity.
  - simpl in *. apply orb_false_elim in H. destruct H as [Hfiles Hrest].
    rewrite Hfiles. apply IH. exact Hrest.
Qed.

Lemma warnDuplicate_keeps (namesMap : DuplicatesNameMap) (_err : bool)
      (console : list string) (line : string) :
  In line console -> In line (snd (fold_left warnDuplicate namesMap (_err, console))).
Proof.
  revert _err console. induction namesMap as [|[name files] rest IH];
    intros _err console H.
  - exact H.
  - simpl. destruct (1 <? List.length files)%nat; apply IH; auto.
    apply in_or_app. left. exact H.
Qed.

Lemma warnDuplicate_warns (namesMap : DuplicatesNameMap) (_err : bool)
      (console : list string) (name : string) (files : list string) :
  In (name, files) namesMap -> 1 < List.length files ->
  In ("Name -> " ++ name ++ " declared in multiple files :")%string
     (snd (fold_left warnDuplicate namesMap (_err, console))).
Proof.
  revert _err console. induction namesMap as [|[name' files'] rest IH];
    intros _err console Hin Hsize.
  - destruct Hin.
  - destruct Hin as [Heq | Hin].
    + inversion Heq; subst. simpl.
      apply Nat.ltb_lt in Hsize. rewrite Hsize.
      apply warnDuplicate_keeps. apply in_or_app. right. left. reflexivity.
    + simpl. destruct (1 <? List.length files')%nat; apply IH; assumption.
Qed.

Lemma notRenamed_completion (deps : list DepsFile) (namesMap : DuplicatesNameMap) :
  v_completion (notRenamed deps namesMap)
  = if hasDuplicate (collected deps namesMap) then Exited 1 else Returned deps.
Proof.
  unfold notRenamed, collected.
  destruct (mapM collector deps namesMap) as [deps1 namesMap1]. simpl.
  pose proof (warnDuplicate_error namesMap1 false []) as Herr.
  destruct (fold_left warnDuplicate namesMap1 (false, [])) as [_err console].
  simpl in *. subst _err. reflexivity.
Qed.

Lemma notRenamed_reports (deps : list DepsFile) (namesMap : DuplicatesNameMap)
      (name : string) (files : list string) :
  In (name, files) (collected deps namesMap) -> 1 < List.length files ->
  reports (notRenamed deps namesMap) name = true.
Proof.
  unfold notRenamed, collected, reports.
  destruct (mapM collector deps namesMap) as [deps1 namesMap1]. simpl.
  intros Hin Hsize.
  pose proof (warnDuplicate_warns namesMap1 false [] name files Hin Hsize) as Hwarns.
  destruct (fold_left warnDuplicate namesMap1 (false, [])) as [_err console]. simpl in *.
  apply existsb_exists. eexists. split; [ exact Hwarns | apply String.eqb_refl ].
Qed.

Lemma warnDuplicate_console (namesMap : DuplicatesNameMap) (_err : bool)
      (console : list string) :
  snd (fold_left warnDuplicate namesMap (_err, console))
  = console
    ++ flat_map (fun entry => if (1 <? List.length (snd entry))%nat
                              then warningLines (fst entry) (snd entry) else [])
                namesMap.
Proof.
  revert _err console. induction namesMap as [|[name files] rest IH]; intros _err console.
  - simpl. rewrite app_nil_r. reflexivity.
  - simpl. destruct (1 <? List.length files)%nat; rewrite IH.
    + unfold warningLines. rewrite <- !app_assoc. reflexivity.
    + reflexivity.
Qed.

Lemma warning_in_console (namesMap : DuplicatesNameMap) (name : string)
      (files : list string) :
  In (name, files) namesMap -> 1 < List.length files ->
  exists before after,
    flat_map (fun entry => if (1 <? List.length (snd entry))%nat
                           then warningLines (fst entry) (snd entry) else [])
             namesMap
    = before ++ warningLines name files ++ after.
Proof.
  intros Hin Hsize. apply in_split in Hin. destruct Hin as (l1 & l2 & ->).
  rewrite flat_map_app. simpl.
  apply Nat.ltb_lt in Hsize. rewrite Hsize.
  eexists. eexists. reflexivity.
Qed.

(** C6 (amended).  [notRenamed] rewrites nothing.  When no name of the
    index it collects has more than one entry it returns the batch it was
    given and prints nothing; when some name has, it ends the process with
    exit code 1 instead of returning.  What it prints is, for every name with
    more than one entry and in the order of the index, the line of the
    warning followed by one line for each file recorded for the name, and
    nothing else. *)
Theorem notRenamed_returns_batch_or_exits
        (deps : list DepsFile) (namesMap : DuplicatesNameMap) :
  let v := notRenamed deps namesMap in
  let index := collected deps namesMap in
  v_namesMap v = index
  /\ (hasDuplicate index = false -> v_completion v = Returned deps /\ v_console v = [])
  /\ (hasDuplicate index = true -> v_completion v = Exited 1)
  /\ (forall name files,
         In (name, files) index -> 1 < List.length files -> reports v name = true)
  /\ (forall name files,
         In (name, files) index -> 1 < List.length files ->
         exists before after,
           v_console v = before ++ warningLines name files ++ after)
  /\ v_console v
     = flat_map (fun entry => if (1 <? List.length (snd entry))%nat
                              then warningLines (fst entry) (snd entry) else [])
                index.
Proof.
  unfold notRenamed, collected.
  destruct (mapM collector deps namesMap) as [deps1 namesMap1]. simpl.
  pose proof (warnDuplicate_error namesMap1 false []) as Herr.
  pose proof (warnDuplicate_quiet namesMap1 false []) as Hquiet.
  pose proof (warnDuplicate_warns namesMap1 false []) as Hwarns.
  pose proof (warnDuplicate_console namesMap1 false []) as Hconsole.
  destruct (fold_left warnDuplicate namesMap1 (false, [])) as [_err console].
  simpl in *. subst _err.
  split; [ reflexivity | ].
  split; [ intros H; rewrite H; auto | ].
  split; [ intros H; rewrite H; reflexivity | ].
  split; [ | split ].
  - intros name files Hin Hsize. unfold reports. simpl.
    apply existsb_exists. eexists. split; [ eapply Hwarns; eassumption | ].
    apply String.eqb_refl.
  - intros name files Hin Hsize. rewrite Hconsole.
    apply warning_in_console; assumption.
  - exact Hconsole.
Qed.

(** C6 on a batch without duplicate ([main] alone) and on the three-module
    batch, with the lines printed for [foo]. *)
Lemma notRenamed_witness :
  v_completion (notRenamed [moduleMain] []) = Returned [moduleMain]
  /\ v_completion (notRenamed [moduleA; moduleB; moduleMain] []) = Exited 1
  /\ v_console (notRenamed [moduleA; moduleB; moduleMain] [])
     = ["Name -> foo declared in multiple files :";
        "  - /project/a/index.ts"; "  - /project/b/index.ts"].
Proof.
  split; [ | split ].
  - exact (proj1 (proj1 (proj2 (notRenamed_returns_batch_or_exits [moduleMain] []))
                        eq_refl)).
  - exact (proj1 (proj2 (proj2
             (notRenamed_returns_batch_or_exits [moduleA; moduleB; moduleMain] [])))
             eq_refl).
  - exact (proj2 (proj2 (proj2 (proj2 (proj2
             (notRenamed_returns_batch_or_exits [moduleA; moduleB; moduleMain] [])))))).
Defined.

(** C6, the claim as stated fails: on the three-module batch, where [foo]
    collides, [notRenamed] does not return a report; it exits with code 1. *)
Lemma notRenamed_exits_on_collision :
  collides "foo" [moduleA; moduleB; moduleMain] = true
  /\ v_completion (notRenamed [moduleA; moduleB; moduleMain] []) = Exited 1
  /\ forall value,
       v_completion (notRenamed [moduleA; moduleB; moduleMain] []) <> Returned value.
Proof.
  split; [ vm_compute; reflexivity | ].
  split; [ vm_compute; reflexivity | ].
  intros value. vm_compute. discriminate.
Qed.

(* ================================================================== *)
(** ** Traversals that return the tree they were given *)

Section Returns.
Context {S : Type}.

Lemma returns_ret (A : Type) (a : A) : returns (ret (S := S) a) a.
Proof. intros s. reflexivity. Qed.

Lemma returns_bind (A B : Type) (m : State S A) (k : A -> State S B) (a : A) (b : B) :
  returns m a -> returns (k a) b -> returns (bind m k) b.
Proof.
  intros Hm Hk s. unfold bind. specialize (Hm s).
  destruct (m s) as [a' s']. simpl in Hm. subst a'. apply Hk.
Qed.

Lemma returns_mapM (A : Type) (f : A -> State S A) (l : list A) :
  Forall (fun x => returns (f x) x) l -> returns (mapM f l) l.
Proof.
  induction 1 as [|x l Hx _ IH]; simpl.
  - apply returns_ret.
  - eapply returns_bind; [exact Hx | ].
    eapply returns_bind; [exact IH | apply returns_ret].
Qed.

Lemma returns_optM (A : Type) (f : A -> State S A) (o : option A) :
  Forall (fun x => returns (f x) x) (optList o) -> returns (optM f o) o.
Proof.
  destruct o as [x|]; simpl; intros H.
  - inversion H; subst. eapply returns_bind; [eassumption | apply returns_ret].
  - apply returns_ret.
Qed.

Lemma returns_visitEachChild (visitor : Node -> State S Node) (node : Node) :
  Forall (fun child => returns (visitor child) child) (children node) ->
  returns (visitEachChild visitor node) node.
Proof.
  intros H.
  destruct node; simpl in H; split_children; simpl;
    repeat first
      [ apply returns_ret
      | eapply returns_bind;
        [ first [ apply returns_mapM; eassumption
                | apply returns_optM; eassumption
                | eassumption ] | ] ].
Qed.
End Returns.

(** The collector is read-only: it returns the tree it visits. *)
Lemma collector_returns_node (file : string) (node : Node) (isGlobalScope : bool) :
  returns (visitNode file node isGlobalScope) node.
Proof.
  revert isGlobalScope. induction node as [node IH] using Node_children_ind.
  intros isGlobalScope namesMap. rewrite visitNode_unfold. cbv zeta.
  set (namesMap1 := if isGlobalScope then collectDeclared file node namesMap else namesMap).
  clearbody namesMap1.
  assert (Hdefault :
            fst (visitEachChild (fun child => visitNode file child isGlobalScope)
                                node namesMap1) = node).
  { apply returns_visitEachChild.
    eapply Forall_impl; [ | exact IH ]. intros child Hc. apply Hc. }
  destruct node; try exact Hdefault; try reflexivity.
  simpl. destruct (mapM _ statements namesMap1). reflexivity.
Qed.

(* ================================================================== *)
(** ** A batch whose index shows no duplicate comes back as it was *)

Lemma get_In (namesMap : DuplicatesNameMap) (key : string) (files : list string) :
  get namesMap key = Some files -> In (key, files) namesMap.
Proof.
  induction namesMap as [|[k v] rest IH]; simpl; intros H; [ discriminate | ].
  destruct (String.eqb_spec k key).
  - inversion H; subst. left. reflexivity.
  - right. apply IH. exact H.
Qed.

Lemma no_duplicate_nothing_to_rename (namesMap : DuplicatesNameMap) (name : string) :
  hasDuplicate namesMap = false -> isDuplicated namesMap name = false.
Proof.
  intros H. unfold isDuplicated, size.
  destruct (get namesMap name) as [files|] eqn:Hget.
  - apply get_In in Hget.
    unfold hasDuplicate in H.
    assert (Hall : forall entry : string * list string, In entry namesMap ->
                     (1 <? List.length (snd entry))%nat = false).
    { intros entry Hin. destruct (1 <? List.length (snd entry))%nat eqn:Hlt; [ | reflexivity ].
      assert (existsb (fun e : string * list string => (1 <? List.length (snd e))%nat)
                      namesMap = true)
        by (apply existsb_exists; exists entry; auto).
      congruence. }
    specialize (Hall _ Hget). simpl in Hall. rewrite Hall. apply andb_false_r.
  - apply andb_false_r.
Qed.

Lemma updateDeclaration_inert (namesMap : DuplicatesNameMap) (file : string) (decl : Node) :
  (forall name, isDuplicated namesMap name = false) ->
  inert (Updater.updateDeclaration namesMap file decl) decl.
Proof.
  intros Hno st. unfold Updater.updateDeclaration.
  destruct decl; try reflexivity. destruct decl; try reflexivity.
  rewrite Hno. reflexivity.
Qed.

Lemma updater_inert (namesMap : DuplicatesNameMap) (file : string) (node : Node) :
  (forall name, isDuplicated namesMap name = false) ->
  inert (Updater.visitor namesMap file node) node.
Proof.
  intros Hno. induction node as [node IH] using Node_children_ind.
  pose proof (inert_visitEachChild (Updater.visitor namesMap file) node IH) as Hdefault.
  destruct node; try exact Hdefault.
  - destruct node; try (apply inert_ret).
    rewrite updater_variableStatement.
    eapply inert_bind; [ | apply inert_ret ].
    apply inert_mapM. apply Forall_forall. intros decl _.
    apply updateDeclaration_inert. exact Hno.
  - destruct name as [[]|]; try exact Hdefault.
    rewrite updater_functionDeclaration, Hno. exact Hdefault.
  - destruct name as [[]|]; try exact Hdefault.
    rewrite updater_classDeclaration, Hno. exact Hdefault.
Qed.

Lemma visitEachChildPure_identity (visitor : Node -> Node) (node : Node) :
  Forall (fun child => visitor child = child) (children node) ->
  visitEachChildPure visitor node = node.
Proof.
  intros H. unfold visitEachChildPure. rewrite inert_visitEachChild; [ reflexivity | ].
  eapply Forall_impl; [ | exact H ]. intros child Hc u. rewrite Hc. reflexivity.
Qed.

Lemma callExpression_identity (file : string) (node : Node) :
  CallExpression.visitor [] [] file node = node.
Proof.
  induction node as [node IH] using Node_children_ind.
  pose proof (visitEachChildPure_identity (CallExpression.visitor [] [] file) node IH)
    as Hdefault.
  destruct node; try exact Hdefault;
    match goal with
    | |- CallExpression.visitor _ _ _ (_ ?callee _) = _ =>
        destruct callee; exact Hdefault
    end.
Qed.

Lemma exportExpression_inert (file : string) (node : Node) :
  inert (ExportExpression.visitor [] [] file node) node.
Proof.
  induction node as [node IH] using Node_children_ind.
  pose proof (inert_visitEachChild (ExportExpression.visitor [] [] file) node IH)
    as Hdefault.
  destruct node; try exact Hdefault;
    match goal with
    | |- inert (ExportExpression.visitor _ _ _ (_ _ _ ?exported)) _ =>
        destruct exported; exact Hdefault
    | |- inert (ExportExpression.visitor _ _ _ (_ _ ?exported)) _ =>
        destruct exported; exact Hdefault
    end.
Qed.

Lemma importExpression_declaration (cwd : string) (getText : Node -> string)
      (exportNameMap : NamesSets) (file : string)
      (importClause : option Node) (moduleSpecifier : Node) :
  ImportExpression.visitor cwd getText exportNameMap file
    (ImportDeclaration importClause moduleSpecifier)
  = let node := ImportDeclaration importClause moduleSpecifier in
    let moduleKey := getModuleKeyFromSpecifier cwd getText moduleSpecifier file in
    let next :=
      ImportExpression.namedImports exportNameMap file moduleKey node
        (visitEachChild (ImportExpression.visitor cwd getText exportNameMap file) node) in
    match importClause with
    | Some (ImportClause phaseModifier (Some (Identifier text)) namedBindings) =>
        match findEntry exportNameMap (trim text) moduleKey with
        | Some mapping =>
            _ <- ImportExpression.pushImport file mapping ;;
            ret (ImportDeclaration
                   (Some (ImportClause phaseModifier
                                       (Some (Identifier (newName mapping)))
                                       namedBindings))
                   moduleSpecifier)
        | None => next
        end
    | _ => next
    end.
Proof. reflexivity. Qed.

Lemma importExpression_inert (cwd : string) (getText : Node -> string) (file : string)
      (node : Node) :
  inert (ImportExpression.visitor cwd getText [] file node) node.
Proof.
  induction node as [node IH] using Node_children_ind.
  pose proof (inert_visitEachChild (ImportExpression.visitor cwd getText [] file) node IH)
    as Hdefault.
  destruct node; try exact Hdefault.
  assert (Helements : forall moduleKey elements,
             inert (mapM (ImportExpression.updateElement [] file moduleKey) elements)
                   elements).
  { intros moduleKey elements. apply inert_mapM. apply Forall_forall. intros el _ s.
    destruct el; try reflexivity.
    match goal with
    | |- ImportExpression.updateElement _ _ _ (_ _ _ ?local) _ = _ =>
        destruct local; reflexivity
    end. }
  rewrite importExpression_declaration. cbv zeta.
  match goal with
  | |- context [ImportExpression.namedImports [] file ?key ?decl ?otherwise] =>
      assert (Hnamed : inert (ImportExpression.namedImports [] file key decl otherwise) decl)
  end.
  { unfold ImportExpression.namedImports.
    repeat match goal with
           | |- inert (match ?x with _ => _ end) _ => destruct x; try exact Hdefault
           end.
    eapply inert_bind; [ apply Helements | apply inert_ret ]. }
  repeat match goal with
         | |- inert (match ?x with _ => _ end) _ => destruct x; try exact Hnamed
         end.
Qed.

Lemma stage_inert {S : Type} (handler : DepsFile -> State S DepsFile)
      (visitor : string -> Node -> State S Node) (deps : list DepsFile) :
  (forall dep, handler dep = (_content <- visitor (file dep) (content dep) ;;
                              ret (mkDeps (file dep) _content))) ->
  (forall file node, inert (visitor file node) node) ->
  inert (mapM handler deps) deps.
Proof.
  intros Hhandler Hvisitor. apply inert_mapM. apply Forall_forall. intros dep _.
  rewrite Hhandler. eapply inert_bind; [ apply Hvisitor | ].
  destruct dep. apply inert_ret.
Qed.

Lemma collector_returns_deps (deps : list DepsFile) :
  returns (mapM collector deps) deps.
Proof.
  apply returns_mapM. apply Forall_forall. intros dep _. unfold collector.
  eapply returns_bind; [ apply collector_returns_node | ].
  destruct dep. apply returns_ret.
Qed.

(** X1.  With fresh maps, a batch in whose index no name has more than
    one entry is returned tree for tree: no name is generated and the three
    maps stay empty. *)
Lemma renamed_without_duplicate (cwd : string) (getText : Node -> string)
      (deps : list DepsFile) (namesMap : DuplicatesNameMap) (names : list string) :
  hasDuplicate (collected deps namesMap) = false ->
  renamed cwd getText deps namesMap [] [] [] names
  = mkRenamed deps (collected deps namesMap) names [] [] [].
Proof.
  intros Hno. unfold renamed, collected in *.
  pose proof (collector_returns_deps deps namesMap) as Hdeps.
  destruct (mapM collector deps namesMap) as [deps1 namesMap1]. simpl in Hdeps, Hno. subst deps1.
  rewrite (@stage_inert _ (updater namesMap1) (Updater.visitor namesMap1) deps);
    [ | reflexivity
      | intros; apply updater_inert; intros; apply no_duplicate_nothing_to_rename; exact Hno ].
  assert (Hcall : map (callExpression [] []) deps = deps).
  { rewrite <- (map_id deps) at 2. apply map_ext. intros [f c].
    unfold callExpression. simpl. rewrite callExpression_identity. reflexivity. }
  rewrite Hcall.
  rewrite (@stage_inert _ (exportExpression [] []) (ExportExpression.visitor [] []) deps);
    [ | reflexivity | intros; apply exportExpression_inert ].
  rewrite (@stage_inert _ (importExpression cwd getText [])
                        (ImportExpression.visitor cwd getText []) deps);
    [ | reflexivity | intros; apply importExpression_inert ].
  rewrite Hcall.
  rewrite (@stage_inert _ (exportExpression [] []) (ExportExpression.visitor [] []) deps);
    [ | reflexivity | intros; apply exportExpression_inert ].
  reflexivity.
Qed.

(* ================================================================== *)
(** ** Names declared in two modules are reported *)

Lemma size_add (namesMap : DuplicatesNameMap) (key file key' : string) :
  has namesMap key = true ->
  size (add namesMap key file) key'
  = if String.eqb key key' then S (size namesMap key') else size namesMap key'.
Proof.
  unfold size. induction namesMap as [|[k v] rest IH]; simpl; intros Hhas;
    [ discriminate | ].
  destruct (String.eqb_spec k key) as [-> | Hk]; simpl.
  - destruct (String.eqb key key'); [ rewrite length_app; simpl; lia | reflexivity ].
  - destruct (String.eqb_spec k key') as [-> | Hk'].
    + destruct (String.eqb_spec key key'); [ congruence | reflexivity ].
    + apply IH. exact Hhas.
Qed.

Lemma size_setNew (namesMap : DuplicatesNameMap) (key file key' : string) :
  has namesMap key = false ->
  size (setNew namesMap key file) key'
  = if String.eqb key key' then S (size namesMap key') else size namesMap key'.
Proof.
  unfold size, setNew. induction namesMap as [|[k v] rest IH]; simpl; intros Hhas.
  - destruct (String.eqb key key'); reflexivity.
  - destruct (String.eqb_spec k key) as [-> | Hk]; [ discriminate | ].
    destruct (String.eqb_spec k key') as [-> | Hk'].
    + destruct (String.eqb_spec key key'); [ congruence | reflexivity ].
    + apply IH. exact Hhas.
Qed.

Lemma size_record (namesMap : DuplicatesNameMap) (key file key' : string) :
  size (record namesMap key file) key'
  = if String.eqb key key' then S (size namesMap key') else size namesMap key'.
Proof.
  unfold record. destruct (has namesMap key) eqn:Hhas; simpl.
  - apply size_add. exact Hhas.
  - apply size_setNew. exact Hhas.
Qed.

Lemma grows_refl (namesMap : DuplicatesNameMap) : grows namesMap namesMap.
Proof. intros name. lia. Qed.

Lemma grows_trans (a b c : DuplicatesNameMap) : grows a b -> grows b c -> grows a c.
Proof. intros Hab Hbc name. specialize (Hab name). specialize (Hbc name). lia. Qed.

Lemma grows_record (namesMap : DuplicatesNameMap) (key file : string) :
  grows namesMap (record namesMap key file).
Proof. intros name. rewrite size_record. destruct (String.eqb key name); lia. Qed.

#[local] Hint Resolve grows_refl grows_trans grows_record : renames.

Lemma record_counts (namesMap : DuplicatesNameMap) (declared file name : string) :
  size namesMap name + (if String.eqb name declared then 1 else 0)
  <= size (record namesMap declared file) name.
Proof.
  rewrite size_record, (String.eqb_sym name declared).
  destruct (String.eqb declared name); lia.
Qed.

Lemma record_truthy_counts (namesMap : DuplicatesNameMap) (declared file name : string) :
  size namesMap name
  + (if existsb (String.eqb name) (if String.eqb declared "" then [] else [declared])
     then 1 else 0)
  <= size (if String.eqb declared "" then namesMap else record namesMap declared file) name.
Proof.
  destruct (String.eqb declared ""); simpl; [ lia | ].
  rewrite orb_false_r. apply record_counts.
Qed.

Lemma declarations_count (file : string) (declarations : list Node)
      (namesMap : DuplicatesNameMap) (name : string) :
  size namesMap name
  + (if existsb (String.eqb name)
                (flat_map (fun decl => match decl with
                                       | VariableDeclaration (Identifier declared) _ =>
                                           [declared]
                                       | _ => []
                                       end) declarations)
     then 1 else 0)
  <= size (fold_left
             (fun m decl =>
                match decl with
                | VariableDeclaration (Identifier declared) _ => record m declared file
                | _ => m
                end)
             declarations namesMap) name.
Proof.
  revert namesMap. induction declarations as [|decl rest IH]; intros namesMap; simpl.
  - lia.
  - rewrite existsb_app.
    match goal with
    | |- context [fold_left ?f rest ?stepped] =>
        specialize (IH stepped);
        assert (Hstep : size namesMap name
                        + (if existsb (String.eqb name)
                                      match decl with
                                      | VariableDeclaration (Identifier declared) _ =>
                                          [declared]
                                      | _ => []
                                      end
                           then 1 else 0)
                        <= size stepped name)
    end.
    { destruct decl; simpl; try lia.
      match goal with
      | |- context [match ?bound with _ => _ end] =>
          is_var bound;
          match type of bound with Node => destruct bound; simpl; try lia end
      end.
      rewrite ?orb_false_r. apply record_counts. }
    repeat match goal with
           | H : context [if ?b then _ else _] |- _ => destruct b
           end; simpl in *; lia.
Qed.

(** Visiting a statement at global scope adds an entry for every name it
    declares with an identifier and takes none away. *)
Lemma collectDeclared_counts (file : string) (statement : Node)
      (namesMap : DuplicatesNameMap) (name : string) :
  size namesMap name
  + (if existsb (String.eqb name) (recordedNames statement) then 1 else 0)
  <= size (collectDeclared file statement namesMap) name.
Proof.
  destruct statement; simpl; try lia;
    repeat match goal with
           | |- context [match ?x with _ => _ end] =>
               is_var x;
               match type of x with
               | Node => destruct x
               | option Node => destruct x
               end; simpl; try lia
           end;
    first [ apply declarations_count | apply record_truthy_counts ].
Qed.

Lemma collectDeclared_grows (file : string) (node : Node) (namesMap : DuplicatesNameMap) :
  grows namesMap (collectDeclared file node namesMap).
Proof.
  intros name. pose proof (collectDeclared_counts file node namesMap name). lia.
Qed.

(** After the declarations of a node are recorded, the rest of its visit
    takes no entry away if the visits of its children take none. *)
Lemma visitNode_descent_grows (file : string) (node : Node) (isGlobalScope : bool)
      (namesMap : DuplicatesNameMap) :
  Forall (fun child => forall flag, preserves grows (visitNode file child flag))
         (children node) ->
  grows (if isGlobalScope then collectDeclared file node namesMap else namesMap)
        (snd (visitNode file node isGlobalScope namesMap)).
Proof.
  intros Hchildren. rewrite visitNode_unfold. cbv zeta.
  set (namesMap1 := if isGlobalScope then collectDeclared file node namesMap else namesMap).
  clearbody namesMap1.
  assert (Hdefault :
            preserves grows
              (visitEachChild (fun child => visitNode file child isGlobalScope) node)).
  { apply preserves_visitEachChild; eauto with renames.
    eapply Forall_impl; [ | exact Hchildren ]. intros child Hc. apply Hc. }
  assert (Hlocal : grows namesMap1
                     (forEachChild (fun child s => snd (visitNode file child false s))
                                   node namesMap1)).
  { unfold forEachChild.
    apply (@preserves_visitEachChild _ grows grows_refl grows_trans
             (fun child s' => (child, snd (visitNode file child false s')))).
    eapply Forall_impl; [ | exact Hchildren ]. intros child Hc s. apply Hc. }
  destruct node; try exact (Hdefault namesMap1); try exact Hlocal.
  (* Block *)
  simpl in Hchildren.
  pose proof (@preserves_mapM _ grows grows_refl grows_trans _ _
                (fun child => visitNode file child false) statements) as Hblock.
  specialize (Hblock (Forall_impl _ (fun child Hc => Hc false) Hchildren) namesMap1).
  destruct (mapM (fun child => visitNode file child false) statements namesMap1).
  exact Hblock.
Qed.

(** The collector never takes an entry away. *)
Lemma visitNode_grows (file : string) (node : Node) (isGlobalScope : bool) :
  preserves grows (visitNode file node isGlobalScope).
Proof.
  revert isGlobalScope. induction node as [node IH] using Node_children_ind.
  intros isGlobalScope namesMap.
  eapply grows_trans; [ | apply visitNode_descent_grows; exact IH ].
  destruct isGlobalScope; [ apply collectDeclared_grows | apply grows_refl ].
Qed.

Lemma visitNode_counts (file : string) (statement : Node) (namesMap : DuplicatesNameMap)
      (name : string) :
  size namesMap name
  + (if existsb (String.eqb name) (recordedNames statement) then 1 else 0)
  <= size (snd (visitNode file statement true namesMap)) name.
Proof.
  pose proof (collectDeclared_counts file statement namesMap name) as Hfirst.
  assert (Hrest : grows (collectDeclared file statement namesMap)
                        (snd (visitNode file statement true namesMap))).
  { apply (@visitNode_descent_grows file statement true namesMap).
    apply Forall_forall. intros child _ flag. apply visitNode_grows. }
  specialize (Hrest name). lia.
Qed.

Lemma statements_count (file : string) (statements : list Node)
      (namesMap : DuplicatesNameMap) (name : string) :
  size namesMap name
  + (if existsb (String.eqb name) (flat_map recordedNames statements) then 1 else 0)
  <= size (snd (mapM (fun child => visitNode file child true) statements namesMap)) name.
Proof.
  revert namesMap. induction statements as [|statement rest IH]; intros namesMap; simpl.
  - lia.
  - rewrite existsb_app. unfold bind.
    pose proof (visitNode_counts file statement namesMap name) as Hfirst.
    destruct (visitNode file statement true namesMap) as [statement' namesMap1].
    specialize (IH namesMap1).
    destruct (mapM (fun child => visitNode file child true) rest namesMap1)
      as [rest' namesMap2].
    simpl in *.
    destruct (existsb (String.eqb name) (recordedNames statement));
      destruct (existsb (String.eqb name) (flat_map recordedNames rest));
      simpl in *; lia.
Qed.

Lemma collector_counts (dep : DepsFile) (namesMap : DuplicatesNameMap) (name : string) :
  size namesMap name + (if declares name dep then 1 else 0)
  <= size (snd (collector dep namesMap)) name.
Proof.
  unfold collector, declares, bind.
  destruct (content dep) eqn:Hcontent;
    try (pose proof (visitNode_grows (file dep) (content dep) true namesMap name) as H;
         rewrite Hcontent in H;
         match goal with
         | |- context [visitNode ?f ?n true namesMap] =>
             destruct (visitNode f n true namesMap)
         end; simpl in *; lia).
  pose proof (statements_count (file dep) statements namesMap name) as H.
  rewrite visitNode_unfold. cbv zeta iota. simpl collectDeclared.
  simpl visitEachChild. unfold bind.
  destruct (mapM (fun child => visitNode (file dep) child true) statements namesMap).
  simpl in *. exact H.
Qed.

Lemma collected_counts (deps : list DepsFile) (namesMap : DuplicatesNameMap) (name : string) :
  size namesMap name + List.length (filter (declares name) deps)
  <= size (collected deps namesMap) name.
Proof.
  unfold collected. revert namesMap.
  induction deps as [|dep rest IH]; intros namesMap; simpl.
  - lia.
  - unfold bind. pose proof (collector_counts dep namesMap name) as Hfirst.
    destruct (collector dep namesMap) as [dep' namesMap1].
    specialize (IH namesMap1).
    destruct (mapM collector rest namesMap1) as [rest' namesMap2].
    simpl in *. destruct (declares name dep); simpl; lia.
Qed.

(** X2.  A name declared with an identifier, directly in the body, by two
    modules with different paths is reported by [notRenamed], and the process
    exits with code 1. *)
Lemma collision_is_reported (deps : list DepsFile) (namesMap : DuplicatesNameMap)
      (name : string) :
  2 <= List.length (nodup string_dec (map file (filter (declares name) deps))) ->
  reports (notRenamed deps namesMap) name = true
  /\ v_completion (notRenamed deps namesMap) = Exited 1.
Proof.
  intros Htwo.
  assert (Hlen : List.length (nodup string_dec (map file (filter (declares name) deps)))
                 <= List.length (filter (declares name) deps)).
  { rewrite <- (length_map file (filter (declares name) deps)).
    apply NoDup_incl_length; [ apply NoDup_nodup | ].
    intros x Hx. apply nodup_In in Hx. exact Hx. }
  pose proof (collected_counts deps namesMap name) as Hsize.
  assert (Hget : exists files, get (collected deps namesMap) name = Some files
                               /\ 1 < List.length files).
  { unfold size in Hsize. destruct (get (collected deps namesMap) name) as [files|].
    - exists files. split; [ reflexivity | lia ].
    - lia. }
  destruct Hget as (files & Hget & Hfiles). apply get_In in Hget.
  split.
  - eapply notRenamed_reports; eassumption.
  - rewrite notRenamed_completion.
    assert (Hdup : hasDuplicate (collected deps namesMap) = true).
    { unfold hasDuplicate. apply existsb_exists.
      exists (name, files). split; [ assumption | ]. simpl. apply Nat.ltb_lt. exact Hfiles. }
    rewrite Hdup. reflexivity.
Qed.

(* ================================================================== *)
(** ** The name generator *)

Lemma getStored_app (storedPrefix : Prefixes) (key value key' : string) :
  getStored (storedPrefix ++ [(key, value)]) key'
  = match getStored storedPrefix key' with
    | Some stored => Some stored
    | None => if String.eqb key key' then Some value else None
    end.
Proof.
  induction storedPrefix as [|[k v] rest IH]; simpl.
  - reflexivity.
  - destruct (String.eqb k key'); [ reflexivity | exact IH ].
Qed.

Lemma hasStored_getStored (storedPrefix : Prefixes) (key : string) :
  hasStored storedPrefix key
  = match getStored storedPrefix key with Some _ => true | None => false end.
Proof.
  induction storedPrefix as [|[k v] rest IH]; simpl.
  - reflexivity.
  - destruct (String.eqb k key); [ reflexivity | exact IH ].
Qed.

(** X3.  A prefix, once stored, stays: whatever [storedPrefix] holds, after
    [setPrefix({key, value})] has run (whether it returned or threw)
    [getPrefix(key)] is the value stored first for [key], every later
    [setPrefix] with the same key throws after warning and leaves
    [storedPrefix] as it is, and [getPrefix] of any other key is what it
    was before. *)
Theorem setPrefix_keeps_first_value (storedPrefix : Prefixes) (key value : string) :
  let stored := snd (setPrefix key value storedPrefix) in
  getPrefix key stored
  = Some (match getPrefix key storedPrefix with Some first => first | None => value end)
  /\ (forall value',
         setPrefix key value' stored = (Thrown (key ++ " already exist")%string, stored))
  /\ (forall other, other <> key -> getPrefix other stored = getPrefix other storedPrefix).
Proof.
  cbv zeta.
  destruct (getStored storedPrefix key) as [first|] eqn:Hkey.
  - assert (Hhas : hasStored storedPrefix key = true)
      by (rewrite hasStored_getStored, Hkey; reflexivity).
    unfold setPrefix, getPrefix. rewrite ?Hhas. simpl. rewrite ?Hhas, ?Hkey.
    split; [ reflexivity | split; reflexivity ].
  - assert (Hhas : hasStored storedPrefix key = false)
      by (rewrite hasStored_getStored, Hkey; reflexivity).
    assert (Hstored : getStored (storedPrefix ++ [(key, value)]) key = Some value)
      by (rewrite getStored_app, Hkey, String.eqb_refl; reflexivity).
    assert (Hhas' : hasStored (storedPrefix ++ [(key, value)]) key = true)
      by (rewrite hasStored_getStored, Hstored; reflexivity).
    unfold setPrefix, getPrefix. rewrite ?Hhas. simpl. rewrite ?Hhas', ?Hstored.
    split; [ reflexivity | split; [ reflexivity | ] ].
    intros other Hother.
    rewrite !hasStored_getStored, getStored_app.
    destruct (getStored storedPrefix other); [ reflexivity | ].
    destruct (String.eqb key other) eqn:E; [ | reflexivity ].
    apply String.eqb_eq in E. congruence.
Qed.

(** Decimal numerals: one for each number, made of digits only. *)
Lemma decimal_injective (n n' : nat) : decimal n = decimal n' -> n = n'.
Proof.
  unfold decimal. intros H.
  assert (Huint : Some (Nat.to_uint n) = Some (Nat.to_uint n'))
    by (rewrite <- !NilEmpty.usu, H; reflexivity).
  injection Huint as Huint.
  rewrite <- (DecimalNat.Unsigned.of_to n), <- (DecimalNat.Unsigned.of_to n'), Huint.
  reflexivity.
Qed.

Lemma numeral_without_underscore (d : Decimal.uint) (before after : string) :
  NilEmpty.string_of_uint d <> (before ++ "_" ++ after)%string.
Proof.
  revert before.
  induction d; intros [|c before]; simpl; try discriminate;
    intros H; injection H as _ H; exact (IHd _ H).
Qed.

Lemma append_cancel (prefix a b : string) :
  (prefix ++ a)%string = (prefix ++ b)%string -> a = b.
Proof. induction prefix; simpl; intros H; [ exact H | injection H as H; auto ]. Qed.

(** A generated name shows its number: what follows the last underscore. *)
Lemma numbered_name_injective (prefix input input' : string) (n n' : nat) :
  (prefix ++ input ++ "_" ++ decimal n)%string
  = (prefix ++ input' ++ "_" ++ decimal n')%string ->
  n = n'.
Proof.
  intros H. apply append_cancel in H. apply decimal_injective.
  revert input' H.
  induction input as [|c input IH]; intros [|c' input'] H; simpl in H.
  - injection H as H. exact H.
  - injection H as _ H. exfalso. exact (numeral_without_underscore _ _ _ H).
  - injection H as _ H. exfalso. symmetry in H.
    exact (numeral_without_underscore _ _ _ H).
  - injection H as _ H. exact (IH _ H).
Qed.

Lemma numberedWith_above (prefix : string) (count : nat) (inputs : list string)
      (given : string) :
  In given (numberedWith prefix count inputs) ->
  exists input n, count < n /\ given = (prefix ++ input ++ "_" ++ decimal n)%string.
Proof.
  revert count. induction inputs as [|input rest IH]; intros count; simpl.
  - contradiction.
  - intros [H | H].
    + exists input, (count + 1). split; [ lia | auto ].
    + destruct (IH _ H) as (i & n & Hn & E). exists i, n. split; [ lia | exact E ].
Qed.

Lemma numberedWith_distinct (prefix : string) (count : nat) (inputs : list string) :
  NoDup (numberedWith prefix count inputs).
Proof.
  revert count. induction inputs as [|input rest IH]; intros count; simpl.
  - constructor.
  - constructor; [ | apply IH ].
    intros H. apply numberedWith_above in H. destruct H as (i & n & Hn & E).
    apply numbered_name_injective in E. lia.
Qed.

Lemma numberedWith_app (prefix : string) (count : nat) (a b : list string) :
  numberedWith prefix count (a ++ b)
  = numberedWith prefix count a ++ numberedWith prefix (count + List.length a) b.
Proof.
  revert count. induction a as [|x a IH]; intros count; simpl.
  - rewrite Nat.add_0_r. reflexivity.
  - rewrite IH. do 3 f_equal. lia.
Qed.

Lemma numberedFrom_numberedWith (count : nat) (bases : list string) :
  numberedFrom count bases = numberedWith "d_" count bases.
Proof.
  revert count. induction bases as [|b rest IH]; intros count; simpl;
    [ reflexivity | rewrite IH; reflexivity ].
Qed.

Lemma getName_numbers (_fix : string) (inputs names : list string) :
  mapM (getName _fix) inputs names
  = (numberedWith (prefixOf _fix) (List.length names) inputs,
     names ++ numberedWith (prefixOf _fix) (List.length names) inputs).
Proof.
  revert names. induction inputs as [|input rest IH]; intros names; simpl.
  - unfold ret. rewrite app_nil_r. reflexivity.
  - unfold bind, ret, getName at 1. rewrite IH.
    rewrite length_app, Nat.add_comm. simpl.
    replace (List.length names + 1) with (1 + List.length names) by lia. simpl.
    rewrite <- app_assoc. simpl.
    unfold prefixOf. destruct (negb (String.eqb _fix "")); reflexivity.
Qed.

(** X4.  A generator never hands out the same name twice: the names that
    [getName] returns for any sequence of inputs, repeated inputs included,
    from the empty [names] of a new generator are pairwise distinct, and
    they are exactly what [names] holds afterwards, in the order of the
    calls. *)
Theorem getName_never_repeats (_fix : string) (inputs : list string) :
  let (given, names) := mapM (getName _fix) inputs [] in
  given = names /\ NoDup given.
Proof.
  rewrite getName_numbers. simpl.
  split; [ reflexivity | apply numberedWith_distinct ].
Qed.

Lemma NoDup_app_disjoint {A : Type} (a b : list A) (x : A) :
  NoDup (a ++ b) -> In x a -> ~ In x b.
Proof.
  induction a as [|h a IH]; simpl; intros Hnd Ha Hb; [ contradiction | ].
  inversion Hnd as [|? ? Hnot Hrest]; subst.
  destruct Ha as [-> | Ha].
  - apply Hnot. apply in_or_app. right. exact Hb.
  - exact (IH Hrest Ha Hb).
Qed.

Lemma renamed_is_extended (cwd : string) (getText : Node -> string) (deps : list DepsFile)
      (namesMap : DuplicatesNameMap)
      (callNameMap importNameMap exportNameMap : NamesSets) (names : list string) :
  let r := renamed cwd getText deps namesMap callNameMap importNameMap exportNameMap names in
  extends (mkRenames names callNameMap) (mkRenames (r_names r) (r_callNameMap r)).
Proof.
  unfold renamed.
  destruct (mapM collector deps namesMap) as [deps1 namesMap1].
  pose proof (updater_extends namesMap1 deps1 (mkRenames names callNameMap)) as H.
  destruct (mapM (updater namesMap1) deps1 (mkRenames names callNameMap))
    as [deps2 [names2 callNameMap2]].
  repeat match goal with
         | |- context [let (_, _) := ?m in _] => destruct m
         end.
  exact H.
Qed.

(** X5.  The names a run of [renamed] generates are new: when the
    generator's [names] is what earlier runs left there (the names numbered
    from 1 for some bases), the entries the run appends to the call-site map
    carry new names that are pairwise distinct and that differ from every
    name handed out before, so [names] stays free of repetitions. *)
Theorem renamed_generates_new_names
        (cwd : string) (getText : Node -> string) (deps : list DepsFile)
        (namesMap : DuplicatesNameMap)
        (callNameMap importNameMap exportNameMap : NamesSets) (earlier : list string) :
  let names := numberedFrom 0 earlier in
  let r := renamed cwd getText deps namesMap callNameMap importNameMap exportNameMap names in
  exists added : NamesSets,
    r_callNameMap r = callNameMap ++ added
    /\ r_names r = names ++ map newName added
    /\ NoDup (map newName added)
    /\ (forall entry, In entry added -> ~ In (newName entry) names)
    /\ NoDup (r_names r).
Proof.
  cbv zeta.
  destruct (renamed_is_extended cwd getText deps namesMap callNameMap importNameMap
                                exportNameMap (numberedFrom 0 earlier))
    as (added & Hcall & Hnames & Hnum).
  simpl in Hcall, Hnames, Hnum.
  assert (Hall : NoDup (numberedFrom 0 earlier ++ map newName added)).
  { rewrite Hnum, !numberedFrom_numberedWith.
    replace (List.length (numberedWith "d_" 0 earlier)) with (0 + List.length earlier).
    - rewrite <- numberedWith_app. apply numberedWith_distinct.
    - simpl. clear. generalize 0.
      induction earlier; intros; simpl; [ reflexivity | rewrite <- IHearlier; reflexivity ]. }
  exists added. repeat split; try assumption.
  - apply NoDup_app_remove_l in Hall. exact Hall.
  - intros entry Hentry Hin.
    eapply NoDup_app_disjoint; [ exact Hall | exact Hin | apply in_map; exact Hentry ].
  - rewrite Hnames. exact Hall.
Qed.

(* ================================================================== *)
(** ** What the collector records *)

Lemma get_add (namesMap : DuplicatesNameMap) (key file key' : string) :
  get (add namesMap key file) key'
  = match get namesMap key' with
    | Some files => Some (if String.eqb key key' then files ++ [file] else files)
    | None => None
    end.
Proof.
  induction namesMap as [|[k v] rest IH]; simpl; [ reflexivity | ].
  destruct (String.eqb k key) eqn:Ek; simpl.
  - apply String.eqb_eq in Ek. subst k.
    destruct (String.eqb key key'); [ reflexivity | ].
    destruct (get rest key'); reflexivity.
  - destruct (String.eqb k key') eqn:Ek'; [ | exact IH ].
    apply String.eqb_eq in Ek'. subst k. rewrite String.eqb_sym, Ek. reflexivity.
Qed.

Lemma get_setNew (namesMap : DuplicatesNameMap) (key file key' : string) :
  get (setNew namesMap key file) key'
  = match get namesMap key' with
    | Some files => Some files
    | None => if String.eqb key key' then Some [file] else None
    end.
Proof.
  unfold setNew. induction namesMap as [|[k v] rest IH]; simpl; [ reflexivity | ].
  destruct (String.eqb k key'); [ reflexivity | exact IH ].
Qed.

Lemma has_get (namesMap : DuplicatesNameMap) (key : string) :
  has namesMap key = match get namesMap key with Some _ => true | None => false end.
Proof.
  induction namesMap as [|[k v] rest IH]; simpl; [ reflexivity | ].
  destruct (String.eqb k key); [ reflexivity | exact IH ].
Qed.

(** X6.  What the has / set / add sequence of the collector does to the
    index: the set of the declared name gets one more [{ file }] at its end
    (a new set with that one member when the name was not there), also when
    the same file is already in it, and the set of every other name is left
    as it is. *)
Theorem record_appends_one_file (namesMap : DuplicatesNameMap) (name file other : string) :
  get (record namesMap name file) name
  = Some (match get namesMap name with Some files => files ++ [file] | None => [file] end)
  /\ (other <> name -> get (record namesMap name file) other = get namesMap other).
Proof.
  unfold record. rewrite has_get.
  destruct (get namesMap name) as [files|] eqn:Hname; simpl.
  - rewrite !get_add, Hname, String.eqb_refl. split; [ reflexivity | ].
    intros Hother. destruct (get namesMap other); [ | reflexivity ].
    destruct (String.eqb name other) eqn:E; [ | reflexivity ].
    apply String.eqb_eq in E. congruence.
  - rewrite !get_setNew, Hname, String.eqb_refl. split; [ reflexivity | ].
    intros Hother. destruct (get namesMap other); [ reflexivity | ].
    destruct (String.eqb name other) eqn:E; [ | reflexivity ].
    apply String.eqb_eq in E. congruence.
Qed.

(** X7.  The collector only reads the modules and only adds to the index:
    for every batch and every index it is given, mapping [collector] over the
    batch returns the batch tree for tree, and no name of the index ends with
    fewer entries than it had. *)
Theorem collector_reads_modules_and_adds_to_index
        (deps : list DepsFile) (namesMap : DuplicatesNameMap) :
  fst (mapM collector deps namesMap) = deps
  /\ forall name, size namesMap name <= size (collected deps namesMap) name.
Proof.
  split.
  - apply collector_returns_deps.
  - intros name. pose proof (collected_counts deps namesMap name). lia.
Qed.

(** X8.  Scope boundaries of the collector.  At a block, a function
    declaration, a function expression, an arrow function, a method or a
    class declaration the collector records at most the node's own name (and
    only when the node is visited in global scope): whatever is declared
    below the node, at any depth, leaves the index untouched. *)
Theorem collector_records_nothing_below_a_scope
        (file : string) (node : Node) (isGlobalScope : bool)
        (namesMap : DuplicatesNameMap) :
  introducesScope node = true ->
  visitNode file node isGlobalScope namesMap
  = (node, if isGlobalScope then collectDeclared file node namesMap else namesMap).
Proof.
  intros Hscope. rewrite visitNode_unfold. cbv zeta.
  set (namesMap1 := if isGlobalScope then collectDeclared file node namesMap else namesMap).
  clearbody namesMap1.
  assert (Hlocal : Forall (fun child => inert (visitNode file child false) child)
                          (children node))
    by (apply Forall_forall; intros child _; apply visitNode_local).
  destruct node; try discriminate Hscope;
    try (rewrite forEachChild_local; [ reflexivity | exact Hlocal ]).
  simpl in Hlocal.
  rewrite (inert_mapM (fun child => visitNode file child false) Hlocal). reflexivity.
Qed.

Lemma collector_records_nothing_below_a_scope_witness :
  let body := Block [constDecl [] "foo" (NumericLiteral "1");
                     FunctionDeclaration [] (Some (Identifier "bar")) [] (Some (Block []))] in
  let outer := FunctionDeclaration [] (Some (Identifier "outer")) [] (Some body) in
  visitNode "/project/a.ts" outer true [("foo", ["/project/b.ts"])]
  = (outer, [("foo", ["/project/b.ts"]); ("outer", ["/project/a.ts"])]).
Proof.
  cbv zeta.
  exact (@collector_records_nothing_below_a_scope "/project/a.ts"
           (FunctionDeclaration [] (Some (Identifier "outer")) []
              (Some (Block [constDecl [] "foo" (NumericLiteral "1");
                            FunctionDeclaration [] (Some (Identifier "bar")) []
                                                (Some (Block []))])))
           true [("foo", ["/project/b.ts"])] eq_refl).
Defined.

(* ================================================================== *)
(** ** What a run keeps *)

Lemma mapM_files {S : Type} (handler : DepsFile -> State S DepsFile)
      (deps : list DepsFile) (s : S) :
  (forall dep s', file (fst (handler dep s')) = file dep) ->
  map file (fst (mapM handler deps s)) = map file deps.
Proof.
  intros Hfile. revert s. induction deps as [|dep rest IH]; intros s; simpl.
  - reflexivity.
  - unfold bind. specialize (Hfile dep s).
    destruct (handler dep s) as [dep' s1]. simpl in Hfile.
    specialize (IH s1). destruct (mapM handler rest s1) as [rest' s2]. simpl in *.
    congruence.
Qed.

Lemma stage_files {S : Type} (visitor : string -> Node -> State S Node)
      (dep : DepsFile) (s : S) :
  file (fst ((_content <- visitor (file dep) (content dep) ;;
              ret (mkDeps (file dep) _content)) s)) = file dep.
Proof. unfold bind. destruct (visitor (file dep) (content dep) s). reflexivity. Qed.

Lemma callExpression_files (callNameMap importNameMap : NamesSets) (deps : list DepsFile) :
  map file (map (callExpression callNameMap importNameMap) deps) = map file deps.
Proof. rewrite map_map. apply map_ext. reflexivity. Qed.

(** X9.  A run of [renamed] returns the modules it was given, by path: as
    many modules, in the same order, each with the [file] it came with,
    whatever the contents and the maps are. *)
Theorem renamed_keeps_paths_and_order
        (cwd : string) (getText : Node -> string) (deps : list DepsFile)
        (namesMap : DuplicatesNameMap)
        (callNameMap importNameMap exportNameMap : NamesSets) (names : list string) :
  map file
      (r_deps (renamed cwd getText deps namesMap callNameMap importNameMap exportNameMap
                       names))
  = map file deps.
Proof.
  unfold renamed.
  pose proof (@mapM_files _ collector deps namesMap
                (fun dep s => stage_files (fun f n => visitNode f n true) dep s)) as H1.
  destruct (mapM collector deps namesMap) as [deps1 namesMap1]. simpl in H1.
  pose proof (@mapM_files _ (updater namesMap1) deps1 (mkRenames names callNameMap)
                (fun dep s => stage_files (Updater.visitor namesMap1) dep s)) as H2.
  destruct (mapM (updater namesMap1) deps1 (mkRenames names callNameMap))
    as [deps2 [names2 callNameMap2]]. simpl in H2.
  pose proof (callExpression_files callNameMap2 importNameMap deps2) as H3.
  set (deps3 := map (callExpression callNameMap2 importNameMap) deps2) in *.
  pose proof (@mapM_files _ (exportExpression callNameMap2 importNameMap) deps3
                exportNameMap
                (fun dep s =>
                   stage_files (ExportExpression.visitor callNameMap2 importNameMap) dep s))
    as H4.
  destruct (mapM (exportExpression callNameMap2 importNameMap) deps3 exportNameMap)
    as [deps4 exportNameMap4]. simpl in H4.
  pose proof (@mapM_files _ (importExpression cwd getText exportNameMap4) deps4
                importNameMap
                (fun dep s =>
                   stage_files (ImportExpression.visitor cwd getText exportNameMap4) dep s))
    as H5.
  destruct (mapM (importExpression cwd getText exportNameMap4) deps4 importNameMap)
    as [deps5 importNameMap5]. simpl in H5.
  pose proof (callExpression_files callNameMap2 importNameMap5 deps5) as H6.
  set (deps6 := map (callExpression callNameMap2 importNameMap5) deps5) in *.
  pose proof (@mapM_files _ (exportExpression callNameMap2 importNameMap5) deps6
                exportNameMap4
                (fun dep s =>
                   stage_files (ExportExpression.visitor callNameMap2 importNameMap5) dep s))
    as H7.
  destruct (mapM (exportExpression callNameMap2 importNameMap5) deps6 exportNameMap4)
    as [deps7 exportNameMap7]. simpl in *.
  congruence.
Qed.

(* ================================================================== *)
(** ** Where the entries of the three maps come from *)

Lemma appends_refl {A : Type} (P : A -> Prop) (s : list A) : appends P s s.
Proof. exists []. rewrite app_nil_r. auto. Qed.

Lemma appends_trans {A : Type} (P : A -> Prop) (a b c : list A) :
  appends P a b -> appends P b c -> appends P a c.
Proof.
  intros (x & -> & Hx) (y & -> & Hy). exists (x ++ y).
  rewrite app_assoc. split; [ reflexivity | apply Forall_app; auto ].
Qed.

Lemma appends_one {A : Type} (P : A -> Prop) (s : list A) (x : A) :
  P x -> appends P s (s ++ [x]).
Proof. intros H. exists [x]. auto. Qed.

Lemma appends_impl {A : Type} (P Q : A -> Prop) (s s' : list A) :
  (forall x, P x -> Q x) -> appends P s s' -> appends Q s s'.
Proof.
  intros HPQ (x & -> & Hx). exists x. split; [ reflexivity | ].
  eapply Forall_impl; [ exact HPQ | exact Hx ].
Qed.

Lemma pushes_refl (P : NameEntry -> Prop) (st : Renames) : pushes P st st.
Proof. apply appends_refl. Qed.

Lemma pushes_trans (P : NameEntry -> Prop) (a b c : Renames) :
  pushes P a b -> pushes P b c -> pushes P a c.
Proof. apply appends_trans. Qed.

Create HintDb entries.
#[local] Hint Resolve appends_refl appends_trans pushes_refl pushes_trans : entries.

Lemma findEntry_In (map : NamesSets) (b f : string) (m : NameEntry) :
  findEntry map b f = Some m -> In m map /\ base m = b /\ efile m = f.
Proof.
  unfold findEntry. intros H. apply find_some in H. destruct H as [Hin H].
  apply andb_true_iff in H. destruct H as [Hb Hf].
  apply String.eqb_eq in Hb. apply String.eqb_eq in Hf. auto.
Qed.

Lemma rename_pushes (namesMap : DuplicatesNameMap) (file base : string) :
  isDuplicated namesMap base = true ->
  preserves (pushes (renamesOf namesMap file)) (rename file base).
Proof.
  intros Hdup st. unfold rename, dupName, getName. simpl.
  apply appends_one. split; [ reflexivity | exact Hdup ].
Qed.

Lemma renamed_node_pushes (namesMap : DuplicatesNameMap) (file base : string)
      (rebuilt : string -> Node) :
  isDuplicated namesMap base = true ->
  preserves (pushes (renamesOf namesMap file))
            (newName <- rename file base ;; ret (rebuilt newName)).
Proof.
  intros Hdup. apply preserves_bind; eauto with entries.
  - apply rename_pushes. exact Hdup.
  - intros newName. apply preserves_ret; eauto with entries.
Qed.

Lemma updateDeclaration_pushes (namesMap : DuplicatesNameMap) (file : string) (decl : Node) :
  preserves (pushes (renamesOf namesMap file))
            (Updater.updateDeclaration namesMap file decl).
Proof.
  unfold Updater.updateDeclaration.
  destruct decl; try (apply preserves_ret; eauto with entries).
  destruct decl; try (apply preserves_ret; eauto with entries).
  destruct (isDuplicated namesMap text) eqn:Hdup.
  - apply renamed_node_pushes. exact Hdup.
  - apply preserves_ret; eauto with entries.
Qed.

Lemma updater_visitor_pushes (namesMap : DuplicatesNameMap) (file : string) (node : Node) :
  preserves (pushes (renamesOf namesMap file)) (Updater.visitor namesMap file node).
Proof.
  induction node as [node IH] using Node_children_ind.
  assert (Hdefault : preserves (pushes (renamesOf namesMap file))
                       (visitEachChild (Updater.visitor namesMap file) node))
    by (apply preserves_visitEachChild; eauto with entries).
  destruct node; try exact Hdefault.
  - destruct node; try (apply preserves_ret; eauto with entries).
    rewrite updater_variableStatement.
    apply preserves_bind;
      [ eauto with entries | | intros ?; apply preserves_ret; eauto with entries ].
    apply preserves_mapM; eauto with entries.
    apply Forall_forall. intros. apply updateDeclaration_pushes.
  - match goal with
    | |- preserves _ (Updater.visitor _ _ (FunctionDeclaration _ ?declared _ _)) =>
        destruct declared as [[]|]; try exact Hdefault
    end.
    rewrite updater_functionDeclaration.
    match goal with
    | |- context [isDuplicated namesMap ?b] =>
        destruct (isDuplicated namesMap b) eqn:Hdup; [ | exact Hdefault ]
    end.
    apply renamed_node_pushes. exact Hdup.
  - match goal with
    | |- preserves _ (Updater.visitor _ _ (ClassDeclaration _ ?declared _)) =>
        destruct declared as [[]|]; try exact Hdefault
    end.
    rewrite updater_classDeclaration.
    match goal with
    | |- context [isDuplicated namesMap ?b] =>
        destruct (isDuplicated namesMap b) eqn:Hdup; [ | exact Hdefault ]
    end.
    apply renamed_node_pushes. exact Hdup.
Qed.

Lemma updater_batch_pushes (namesMap : DuplicatesNameMap) (deps : list DepsFile) :
  preserves
    (pushes (fun entry => In (efile entry) (map file deps)
                          /\ isDuplicated namesMap (base entry) = true))
    (mapM (updater namesMap) deps).
Proof.
  apply preserves_mapM; eauto with entries.
  apply Forall_forall. intros dep Hdep. unfold updater.
  apply preserves_bind; eauto with entries.
  - intros st. eapply appends_impl; [ | apply updater_visitor_pushes ].
    intros entry [Hfile Hdup]. split; [ | exact Hdup ].
    rewrite Hfile. apply in_map. exact Hdep.
  - intros ?. apply preserves_ret; eauto with entries.
Qed.

(** X10.  What a run of [renamed] adds to the call-site map: it only
    appends, and every entry it appends pairs the path of a module of the
    batch with a base name that has more than one entry in the index the run
    collected.  Nothing else is ever renamed. *)
Theorem renamed_call_site_entries_are_duplicates
        (cwd : string) (getText : Node -> string) (deps : list DepsFile)
        (namesMap : DuplicatesNameMap)
        (callNameMap importNameMap exportNameMap : NamesSets) (names : list string) :
  let r := renamed cwd getText deps namesMap callNameMap importNameMap exportNameMap names in
  exists added : NamesSets,
    r_callNameMap r = callNameMap ++ added
    /\ Forall (fun entry => In (efile entry) (map file deps)
                            /\ isDuplicated (r_namesMap r) (base entry) = true) added.
Proof.
  unfold renamed.
  pose proof (collector_returns_deps deps namesMap) as Hdeps.
  destruct (mapM collector deps namesMap) as [deps1 namesMap1]. simpl in Hdeps. subst deps1.
  pose proof (updater_batch_pushes namesMap1 deps (mkRenames names callNameMap)) as H.
  destruct (mapM (updater namesMap1) deps (mkRenames names callNameMap))
    as [deps2 [names2 callNameMap2]].
  repeat match goal with
         | |- context [let (_, _) := ?m in _] => destruct m
         end.
  exact H.
Qed.

(** The defining equations of the export visitor. *)
Lemma exportExpression_specifier callNameMap importNameMap file isTypeOnly propertyName base :
  ExportExpression.visitor callNameMap importNameMap file
    (ExportSpecifier isTypeOnly propertyName (Identifier base))
  = (new_name <- ExportExpression.lookup callNameMap importNameMap file base ;;
     match truthy new_name with
     | Some n => ret (ExportSpecifier isTypeOnly propertyName (Identifier n))
     | None => visitEachChild (ExportExpression.visitor callNameMap importNameMap file)
                 (ExportSpecifier isTypeOnly propertyName (Identifier base))
     end).
Proof. reflexivity. Qed.

Lemma exportExpression_assignment callNameMap importNameMap file isExportEquals base :
  ExportExpression.visitor callNameMap importNameMap file
    (ExportAssignment isExportEquals (Identifier base))
  = (new_name <- ExportExpression.lookup callNameMap importNameMap file base ;;
     match truthy new_name with
     | Some n => ret (ExportAssignment isExportEquals (Identifier n))
     | None => visitEachChild (ExportExpression.visitor callNameMap importNameMap file)
                 (ExportAssignment isExportEquals (Identifier base))
     end).
Proof. reflexivity. Qed.

Lemma lookup_appends (callNameMap importNameMap : NamesSets) (file base : string) :
  preserves (appends (exportedFrom callNameMap file))
            (ExportExpression.lookup callNameMap importNameMap file base).
Proof.
  intros exportNameMap. unfold ExportExpression.lookup.
  destruct (findEntry callNameMap base file) as [m|] eqn:Hm; simpl.
  - apply findEntry_In in Hm. destruct Hm as (Hin & Hbase & Hfile).
    apply appends_one. split; [ reflexivity | ].
    exists m. simpl. auto.
  - destruct (findEntry importNameMap base file); apply appends_refl.
Qed.

Lemma exportExpression_visitor_appends (callNameMap importNameMap : NamesSets)
      (file : string) (node : Node) :
  preserves (appends (exportedFrom callNameMap file))
            (ExportExpression.visitor callNameMap importNameMap file node).
Proof.
  induction node as [node IH] using Node_children_ind.
  assert (Hdefault : preserves (appends (exportedFrom callNameMap file))
                       (visitEachChild
                          (ExportExpression.visitor callNameMap importNameMap file) node))
    by (apply preserves_visitEachChild; eauto with entries).
  destruct node; try exact Hdefault;
    match goal with
    | |- preserves _ (ExportExpression.visitor _ _ _ (_ _ _ ?exported)) =>
        destruct exported; try exact Hdefault
    | |- preserves _ (ExportExpression.visitor _ _ _ (_ _ ?exported)) =>
        destruct exported; try exact Hdefault
    end.
  - rewrite exportExpression_specifier.
    apply preserves_bind; [ eauto with entries | apply lookup_appends | ].
    intros new_name. destruct (truthy new_name); [ | exact Hdefault ].
    apply preserves_ret; eauto with entries.
  - rewrite exportExpression_assignment.
    apply preserves_bind; [ eauto with entries | apply lookup_appends | ].
    intros new_name. destruct (truthy new_name); [ | exact Hdefault ].
    apply preserves_ret; eauto with entries.
Qed.

(** X11.  What [exportExpression] adds to the export map while it rewrites
    a module: it only appends, and every entry it appends is keyed by
    [getFileKey(file)] and repeats the base name and the new name of an entry
    that the call-site map holds for this module. *)
Theorem exportExpression_appends_call_site_entries
        (callNameMap importNameMap exportNameMap : NamesSets) (dep : DepsFile) :
  exists added : NamesSets,
    snd (exportExpression callNameMap importNameMap dep exportNameMap)
    = exportNameMap ++ added
    /\ Forall (exportedFrom callNameMap (file dep)) added.
Proof.
  unfold exportExpression.
  apply (@preserves_bind _ (appends (exportedFrom callNameMap (file dep))));
    eauto with entries.
  - apply exportExpression_visitor_appends.
  - intros ?. apply preserves_ret; eauto with entries.
Qed.

Lemma findEntry_absent (map : NamesSets) (b f : string) :
  (forall entry, In entry map -> ~ entryFor b f entry) -> findEntry map b f = None.
Proof.
  intros Hnone. unfold findEntry.
  destruct (find (fun m => String.eqb (base m) b && String.eqb (efile m) f) map)
    as [m|] eqn:Hfind; [ | reflexivity ].
  apply find_some in Hfind. destruct Hfind as [Hin Hm].
  apply andb_true_iff in Hm. destruct Hm as [Hb Hf].
  apply String.eqb_eq in Hb. apply String.eqb_eq in Hf.
  exfalso. exact (Hnone m Hin (conj Hb Hf)).
Qed.

(** X28.  A name that a module only imports is rewritten at its export
    sites without an export entry: when the call-site map holds no entry for
    [(base, file)] and the import map holds one with a truthy new name (the
    first for the pair counts), [exportExpression] puts that new name on an
    export specifier and on an export assignment of [base] and leaves the
    export map as it is. *)
Theorem exportExpression_rewrites_imported_names_without_entry
        (callNameMap importNameMap exportNameMap : NamesSets) (file base : string)
        (mapping : NameEntry)
        (isTypeOnly isExportEquals : bool) (propertyName : option Node) :
  (forall entry, In entry callNameMap -> ~ entryFor base file entry) ->
  firstEntryFor importNameMap base file mapping ->
  newName mapping <> "" ->
  ExportExpression.visitor callNameMap importNameMap file
    (ExportSpecifier isTypeOnly propertyName (Identifier base)) exportNameMap
  = (ExportSpecifier isTypeOnly propertyName (Identifier (newName mapping)), exportNameMap)
  /\ ExportExpression.visitor callNameMap importNameMap file
       (ExportAssignment isExportEquals (Identifier base)) exportNameMap
     = (ExportAssignment isExportEquals (Identifier (newName mapping)), exportNameMap).
Proof.
  intros Hcall Himport Hname.
  apply findEntry_absent in Hcall. apply findEntry_first in Himport.
  assert (Hlookup : ExportExpression.lookup callNameMap importNameMap file base
                                            exportNameMap
                    = (Some (newName mapping), exportNameMap))
    by (unfold ExportExpression.lookup; rewrite Hcall, Himport; reflexivity).
  assert (Htruthy : truthy (Some (newName mapping)) = Some (newName mapping)).
  { unfold truthy. destruct (String.eqb_spec (newName mapping) ""); congruence. }
  split.
  - rewrite exportExpression_specifier. unfold bind. rewrite Hlookup, Htruthy.
    reflexivity.
  - rewrite exportExpression_assignment. unfold bind. rewrite Hlookup, Htruthy.
    reflexivity.
Qed.

Lemma exportExpression_rewrites_imported_names_without_entry_witness :
  let callNameMap := [mkEntry "foo" "/project/a.ts" "d_foo_1"] in
  let importNameMap := [mkEntry "foo" "/project/main.ts" "d_foo_1"] in
  ExportExpression.visitor callNameMap importNameMap "/project/main.ts"
    (ExportSpecifier false None (Identifier "foo")) []
  = (ExportSpecifier false None (Identifier "d_foo_1"), []).
Proof.
  cbv zeta.
  refine (proj1 (@exportExpression_rewrites_imported_names_without_entry
                   [mkEntry "foo" "/project/a.ts" "d_foo_1"]
                   [mkEntry "foo" "/project/main.ts" "d_foo_1"] []
                   "/project/main.ts" "foo" (mkEntry "foo" "/project/main.ts" "d_foo_1")
                   false false None _ _ _)).
  - intros entry [<- | []] [_ Hfile]. discriminate Hfile.
  - exists [], []. split; [ reflexivity | ].
    split; [ split; reflexivity | intros entry [] ].
  - simpl. discriminate.
Defined.

Lemma pushImport_appends (exportNameMap : NamesSets) (file : string) (mapping : NameEntry) :
  In mapping exportNameMap ->
  preserves (appends (importedFrom exportNameMap file))
            (ImportExpression.pushImport file mapping).
Proof.
  intros Hin importNameMap. unfold ImportExpression.pushImport. simpl.
  apply appends_one. split; [ reflexivity | ]. exists mapping. auto.
Qed.

Lemma updateElement_appends (exportNameMap : NamesSets) (file moduleKey : string)
      (el : Node) :
  preserves (appends (importedFrom exportNameMap file))
            (ImportExpression.updateElement exportNameMap file moduleKey el).
Proof.
  unfold ImportExpression.updateElement.
  destruct el; try (apply preserves_ret; eauto with entries).
  match goal with
  | |- preserves _ (match ?local with _ => _ end) =>
      destruct local; try (apply preserves_ret; eauto with entries)
  end.
  match goal with
  | |- preserves _ (match ?found with _ => _ end) => destruct found as [mapping|] eqn:Hm
  end.
  - apply findEntry_In in Hm. destruct Hm as (Hin & _).
    apply preserves_bind; [ eauto with entries | apply pushImport_appends; exact Hin | ].
    intros ?. apply preserves_ret; eauto with entries.
  - apply preserves_ret; eauto with entries.
Qed.

Lemma importExpression_visitor_appends (cwd : string) (getText : Node -> string)
      (exportNameMap : NamesSets) (file : string) (node : Node) :
  preserves (appends (importedFrom exportNameMap file))
            (ImportExpression.visitor cwd getText exportNameMap file node).
Proof.
  induction node as [node IH] using Node_children_ind.
  assert (Hdefault : preserves (appends (importedFrom exportNameMap file))
                       (visitEachChild
                          (ImportExpression.visitor cwd getText exportNameMap file) node))
    by (apply preserves_visitEachChild; eauto with entries).
  destruct node; try exact Hdefault.
  rewrite importExpression_declaration. cbv zeta.
  match goal with
  | |- context [ImportExpression.namedImports exportNameMap file ?key ?decl ?otherwise] =>
      assert (Hnamed : preserves (appends (importedFrom exportNameMap file))
                         (ImportExpression.namedImports exportNameMap file key decl
                                                        otherwise))
  end.
  { unfold ImportExpression.namedImports.
    repeat match goal with
           | |- preserves _ (match ?x with _ => _ end) => destruct x; try exact Hdefault
           end.
    apply preserves_bind; [ eauto with entries | | ].
    - apply preserves_mapM; eauto with entries.
      apply Forall_forall. intros el _. apply updateElement_appends.
    - intros ?. apply preserves_ret; eauto with entries. }
  repeat match goal with
         | |- preserves _ (match ?x with _ => _ end) =>
             destruct x eqn:?; try exact Hnamed
         end.
  match goal with
  | Hm : findEntry _ _ _ = Some ?mapping |- _ =>
      apply findEntry_In in Hm; destruct Hm as (Hin & _)
  end.
  apply preserves_bind; [ eauto with entries | apply pushImport_appends; exact Hin | ].
  intros ?. apply preserves_ret; eauto with entries.
Qed.

(** X12.  What [importExpression] adds to the import map while it rewrites
    a module: it only appends, and every entry it appends carries the path of
    this module and repeats the base name and the new name of an entry of the
    export map it was given. *)
Theorem importExpression_appends_export_entries
        (cwd : string) (getText : Node -> string)
        (exportNameMap importNameMap : NamesSets) (dep : DepsFile) :
  exists added : NamesSets,
    snd (importExpression cwd getText exportNameMap dep importNameMap)
    = importNameMap ++ added
    /\ Forall (importedFrom exportNameMap (file dep)) added.
Proof.
  unfold importExpression.
  apply (@preserves_bind _ (appends (importedFrom exportNameMap (file dep))));
    eauto with entries.
  - apply importExpression_visitor_appends.
  - intros ?. apply preserves_ret; eauto with entries.
Qed.

Lemma exportExpression_batch_appends (callNameMap importNameMap : NamesSets)
      (deps : list DepsFile) :
  preserves (appends (fromCallSite callNameMap))
            (mapM (exportExpression callNameMap importNameMap) deps).
Proof.
  apply preserves_mapM; eauto with entries.
  apply Forall_forall. intros dep _ exportNameMap.
  pose proof (exportExpression_visitor_appends callNameMap importNameMap (file dep)
                                               (content dep) exportNameMap) as H.
  unfold exportExpression, bind.
  destruct (ExportExpression.visitor callNameMap importNameMap (file dep) (content dep)
                                     exportNameMap) as [_content exportNameMap'].
  simpl in *. eapply appends_impl; [ | exact H ].
  intros entry (Hkey & m & Hin & Hbase & Hfile & Hnew).
  exists m. rewrite Hfile. auto.
Qed.

Lemma importExpression_batch_appends (cwd : string) (getText : Node -> string)
      (exportNameMap : NamesSets) (deps : list DepsFile) :
  preserves (appends (fromExport exportNameMap))
            (mapM (importExpression cwd getText exportNameMap) deps).
Proof.
  apply preserves_mapM; eauto with entries.
  apply Forall_forall. intros dep _ importNameMap.
  pose proof (importExpression_visitor_appends cwd getText exportNameMap (file dep)
                                               (content dep) importNameMap) as H.
  unfold importExpression, bind.
  destruct (ImportExpression.visitor cwd getText exportNameMap (file dep) (content dep)
                                     importNameMap) as [_content importNameMap'].
  simpl in *. eapply appends_impl; [ | exact H ].
  intros entry (Hfile & m & Hin & Hbase & Hnew). exists m. auto.
Qed.

(** X13.  In a run of [renamed] that starts with an empty export map and an
    empty import map, a new name reaches an export or an import only from a
    renamed declaration: every entry of the export map the run leaves
    repeats the base name and the new name of an entry of the call-site map,
    under the key of that entry's file, and every entry of the import map
    repeats the base name and the new name of an entry of the call-site
    map. *)
Theorem renamed_propagates_call_site_names
        (cwd : string) (getText : Node -> string) (deps : list DepsFile)
        (namesMap : DuplicatesNameMap) (callNameMap : NamesSets) (names : list string) :
  let r := renamed cwd getText deps namesMap callNameMap [] [] names in
  (forall entry, In entry (r_exportNameMap r) ->
     exists c, In c (r_callNameMap r)
               /\ base entry = base c /\ newName entry = newName c
               /\ efile entry = getFileKey (efile c))
  /\ (forall entry, In entry (r_importNameMap r) ->
        exists c, In c (r_callNameMap r)
                  /\ base entry = base c /\ newName entry = newName c).
Proof.
  unfold renamed.
  destruct (mapM collector deps namesMap) as [deps1 namesMap1].
  destruct (mapM (updater namesMap1) deps1 (mkRenames names callNameMap))
    as [deps2 [names2 callNameMap2]].
  set (deps3 := map (callExpression callNameMap2 []) deps2).
  pose proof (exportExpression_batch_appends callNameMap2 [] deps3 []) as H4.
  destruct (mapM (exportExpression callNameMap2 []) deps3 []) as [deps4 exportNameMap4].
  pose proof (importExpression_batch_appends cwd getText exportNameMap4 deps4 []) as H5.
  destruct (mapM (importExpression cwd getText exportNameMap4) deps4 [])
    as [deps5 importNameMap5].
  set (deps6 := map (callExpression callNameMap2 importNameMap5) deps5).
  pose proof (exportExpression_batch_appends callNameMap2 importNameMap5 deps6
                                             exportNameMap4) as H7.
  destruct (mapM (exportExpression callNameMap2 importNameMap5) deps6 exportNameMap4)
    as [deps7 exportNameMap7].
  simpl in *.
  destruct H4 as (added4 & -> & H4). destruct H5 as (added5 & -> & H5).
  destruct H7 as (added7 & -> & H7). simpl in *.
  assert (Hexport : Forall (fromCallSite callNameMap2) (added4 ++ added7))
    by (apply Forall_app; auto).
  split; intros entry Hin.
  - exact (proj1 (Forall_forall _ _) Hexport entry Hin).
  - destruct (proj1 (Forall_forall _ _) H5 entry Hin) as (m & Hm & Hbase & Hnew).
    destruct (proj1 (Forall_forall _ _) H4 m Hm) as (c & Hc & Hbase' & Hnew' & _).
    exists c. repeat split; [ exact Hc | congruence | congruence ].
Qed.

(* ================================================================== *)
(** ** What [callExpression] rewrites *)

(** The defining equations of its visitor. *)
Lemma callExpression_call callNameMap importNameMap file base arguments :
  CallExpression.visitor callNameMap importNameMap file
    (CallExpression (Identifier base) arguments)
  = match truthy (lookupNewName callNameMap importNameMap base file) with
    | Some new_name => CallExpression (Identifier new_name) arguments
    | None => visitEachChildPure (CallExpression.visitor callNameMap importNameMap file)
                (CallExpression (Identifier base) arguments)
    end.
Proof. reflexivity. Qed.

Lemma callExpression_propertyAccess callNameMap importNameMap file base name :
  CallExpression.visitor callNameMap importNameMap file
    (PropertyAccessExpression (Identifier base) name)
  = match truthy (lookupNewName callNameMap importNameMap base file) with
    | Some new_name => PropertyAccessExpression (Identifier new_name) name
    | None => visitEachChildPure (CallExpression.visitor callNameMap importNameMap file)
                (PropertyAccessExpression (Identifier base) name)
    end.
Proof. reflexivity. Qed.

Lemma callExpression_new callNameMap importNameMap file base arguments :
  CallExpression.visitor callNameMap importNameMap file
    (NewExpression (Identifier base) arguments)
  = match truthy (lookupNewName callNameMap importNameMap base file) with
    | Some new_name => NewExpression (Identifier new_name) arguments
    | None => visitEachChildPure (CallExpression.visitor callNameMap importNameMap file)
                (NewExpression (Identifier base) arguments)
    end.
Proof. reflexivity. Qed.

Lemma findEntry_elsewhere (map : NamesSets) (b f : string) :
  mentions map f = false -> findEntry map b f = None.
Proof.
  unfold mentions, findEntry. induction map as [|m rest IH]; simpl; [ reflexivity | ].
  intros H. apply orb_false_iff in H. destruct H as [Hm Hrest].
  rewrite Hm, andb_false_r. exact (IH Hrest).
Qed.

Lemma callExpression_elsewhere (callNameMap importNameMap : NamesSets) (file : string)
      (node : Node) :
  mentions callNameMap file = false -> mentions importNameMap file = false ->
  CallExpression.visitor callNameMap importNameMap file node = node.
Proof.
  intros Hcall Himport.
  assert (Hlookup : forall b, truthy (lookupNewName callNameMap importNameMap b file) = None).
  { intros b. unfold lookupNewName.
    rewrite (@findEntry_elsewhere callNameMap b file Hcall),
            (@findEntry_elsewhere importNameMap b file Himport).
    reflexivity. }
  induction node as [node IH] using Node_children_ind.
  pose proof (visitEachChildPure_identity
                (CallExpression.visitor callNameMap importNameMap file) node IH)
    as Hdefault.
  destruct node; try exact Hdefault;
    match goal with
    | |- CallExpression.visitor _ _ _ (_ ?callee _) = _ =>
        destruct callee; try exact Hdefault
    end;
    rewrite ?callExpression_call, ?callExpression_propertyAccess, ?callExpression_new,
            Hlookup;
    exact Hdefault.
Qed.

(** X14.  Entries are per module: when neither the call-site map nor the
    import map holds an entry for the path of a module, [callExpression]
    returns the module as it is, whatever the maps hold for other modules and
    whatever names the module calls. *)
Theorem callExpression_ignores_entries_of_other_modules
        (callNameMap importNameMap : NamesSets) (dep : DepsFile) :
  mentions callNameMap (file dep) = false ->
  mentions importNameMap (file dep) = false ->
  callExpression callNameMap importNameMap dep = dep.
Proof.
  intros Hcall Himport. unfold callExpression.
  rewrite (@callExpression_elsewhere callNameMap importNameMap (file dep) (content dep)
                                     Hcall Himport).
  destruct dep. reflexivity.
Qed.

Lemma callExpression_ignores_entries_of_other_modules_witness :
  let caller :=
    mkDeps "/project/c.ts"
           (SourceFile [ExpressionStatement (CallExpression (Identifier "foo") [])]) in
  callExpression [mkEntry "foo" "/project/a/index.ts" "d_foo_1"]
                 [mkEntry "foo" "/project/main.ts" "d_foo_1"] caller
  = caller.
Proof.
  cbv zeta.
  exact (@callExpression_ignores_entries_of_other_modules
           [mkEntry "foo" "/project/a/index.ts" "d_foo_1"]
           [mkEntry "foo" "/project/main.ts" "d_foo_1"]
           (mkDeps "/project/c.ts"
                   (SourceFile [ExpressionStatement (CallExpression (Identifier "foo") [])]))
           eq_refl eq_refl).
Defined.

Lemma everyNode_children (p : Node -> bool) (node : Node) :
  everyNode p node = p node && forallb (everyNode p) (children node).
Proof.
  destruct node; simpl; f_equal;
    repeat match goal with
           | o : option Node |- _ => destruct o
           end;
    simpl; rewrite ?forallb_app; simpl; rewrite ?andb_true_r, ?andb_assoc; reflexivity.
Qed.

Lemma everyNode_Forall (p : Node -> bool) (Q : Node -> Prop) (node : Node) :
  Forall (fun child => everyNode p child = true -> Q child) (children node) ->
  everyNode p node = true ->
  p node = true /\ Forall Q (children node).
Proof.
  intros IH H. rewrite everyNode_children in H. apply andb_true_iff in H.
  destruct H as [Hp Hchildren]. split; [ exact Hp | ].
  exact (Forall_forallb_impl _ _ IH Hchildren).
Qed.

(** X15.  [callExpression] rewrites nothing but the leading identifier of a
    call, of a property access and of a [new] expression: a tree without any
    of these three kinds of node is returned as it is, whatever the two maps
    hold.  A renamed name that is only mentioned (assigned, passed as an
    argument, returned, listed in an array) keeps its old spelling. *)
Theorem callExpression_rewrites_at_reference_sites_only
        (callNameMap importNameMap : NamesSets) (file : string) (node : Node) :
  everyNode (fun n => negb (isReferenceSite n)) node = true ->
  CallExpression.visitor callNameMap importNameMap file node = node.
Proof.
  induction node as [node IH] using Node_children_ind.
  intros Hfree. apply (@everyNode_Forall _ _ node IH) in Hfree.
  destruct Hfree as [Hnode Hchildren].
  pose proof (visitEachChildPure_identity
                (CallExpression.visitor callNameMap importNameMap file) node Hchildren)
    as Hdefault.
  destruct node; try exact Hdefault; discriminate Hnode.
Qed.

Lemma callExpression_rewrites_at_reference_sites_only_witness :
  let statement := constDecl [ExportKeyword] "alias" (Identifier "foo") in
  CallExpression.visitor [mkEntry "foo" "/project/a.ts" "d_foo_1"] [] "/project/a.ts"
                         statement
  = statement.
Proof.
  cbv zeta.
  exact (@callExpression_rewrites_at_reference_sites_only
           [mkEntry "foo" "/project/a.ts" "d_foo_1"] [] "/project/a.ts"
           (constDecl [ExportKeyword] "alias" (Identifier "foo")) eq_refl).
Defined.

(** X16.  Member names are never renamed: the result of the visitor of
    [callExpression] on a property access [object.member] is a property
    access with the same member name, also when [member] is spelled like a
    renamed base name. *)
Theorem callExpression_keeps_member_names
        (callNameMap importNameMap : NamesSets) (file : string)
        (object : Node) (member : string) :
  exists object',
    CallExpression.visitor callNameMap importNameMap file
      (PropertyAccessExpression object (Identifier member))
    = PropertyAccessExpression object' (Identifier member).
Proof.
  destruct object; try (eexists; reflexivity).
  rewrite callExpression_propertyAccess.
  destruct (truthy (lookupNewName callNameMap importNameMap text file));
    eexists; reflexivity.
Qed.




(* ================================================================== *)
(** ** What [exportExpression] and [importExpression] pass over *)

Lemma exportExpression_elsewhere (callNameMap importNameMap : NamesSets) (file : string)
      (node : Node) :
  everyNode (fun n => negb (isExportSite n)) node = true ->
  inert (ExportExpression.visitor callNameMap importNameMap file node) node.
Proof.
  induction node as [node IH] using Node_children_ind.
  intros Hfree. apply (@everyNode_Forall _ _ node IH) in Hfree.
  destruct Hfree as [Hnode Hchildren].
  pose proof (inert_visitEachChild
                (ExportExpression.visitor callNameMap importNameMap file) node Hchildren)
    as Hdefault.
  destruct node; try exact Hdefault; discriminate Hnode.
Qed.

(** X18.  [exportExpression] looks at export specifiers and at export
    assignments only.  A module without either (one that exports its
    declarations with the [export] modifier, say) comes back as it is and
    adds no entry to the export map, whatever the call-site map holds for
    it: the new name of such a declaration never reaches the export map. *)
Theorem exportExpression_passes_over_export_modifiers
        (callNameMap importNameMap exportNameMap : NamesSets) (dep : DepsFile) :
  everyNode (fun n => negb (isExportSite n)) (content dep) = true ->
  exportExpression callNameMap importNameMap dep exportNameMap = (dep, exportNameMap).
Proof.
  intros Hfree. unfold exportExpression, bind.
  rewrite (@exportExpression_elsewhere callNameMap importNameMap (file dep) (content dep)
                                       Hfree exportNameMap).
  destruct dep. reflexivity.
Qed.

Lemma exportExpression_passes_over_export_modifiers_witness :
  let exporter :=
    mkDeps "/project/a.ts"
           (SourceFile [constDecl [ExportKeyword] "d_foo_1" (NumericLiteral "1")]) in
  exportExpression [mkEntry "foo" "/project/a.ts" "d_foo_1"] [] exporter []
  = (exporter, []).
Proof.
  cbv zeta.
  exact (@exportExpression_passes_over_export_modifiers
           [mkEntry "foo" "/project/a.ts" "d_foo_1"] [] []
           (mkDeps "/project/a.ts"
                   (SourceFile [constDecl [ExportKeyword] "d_foo_1" (NumericLiteral "1")]))
           eq_refl).
Defined.

Lemma importExpression_elsewhere (cwd : string) (getText : Node -> string)
      (exportNameMap : NamesSets) (file : string) (node : Node) :
  everyNode (fun n => negb (isImportDeclaration n)) node = true ->
  inert (ImportExpression.visitor cwd getText exportNameMap file node) node.
Proof.
  induction node as [node IH] using Node_children_ind.
  intros Hfree. apply (@everyNode_Forall _ _ node IH) in Hfree.
  destruct Hfree as [Hnode Hchildren].
  pose proof (inert_visitEachChild
                (ImportExpression.visitor cwd getText exportNameMap file) node Hchildren)
    as Hdefault.
  destruct node; try exact Hdefault; discriminate Hnode.
Qed.

(** X19.  An import declaration is rewritten only through the key of its
    module specifier: when the export map holds no entry under the key that
    [getModuleKeyFromSpecifier] gives for the specifier, [importExpression]
    returns the declaration as it is and adds no entry to the import map,
    whatever names it imports and whatever the export map holds under other
    keys.  (The parts of an import declaration hold no import declaration.) *)
Theorem importExpression_needs_an_entry_under_the_module_key
        (cwd : string) (getText : Node -> string) (exportNameMap : NamesSets)
        (file : string) (importClause : option Node) (moduleSpecifier : Node) :
  let node := ImportDeclaration importClause moduleSpecifier in
  mentions exportNameMap (getModuleKeyFromSpecifier cwd getText moduleSpecifier file)
  = false ->
  forallb (everyNode (fun n => negb (isImportDeclaration n))) (children node) = true ->
  inert (ImportExpression.visitor cwd getText exportNameMap file node) node.
Proof.
  intros node Hkey Hparts. subst node.
  assert (Hfind : forall b,
             findEntry exportNameMap b
                       (getModuleKeyFromSpecifier cwd getText moduleSpecifier file) = None)
    by (intros b; apply findEntry_elsewhere; exact Hkey).
  set (moduleKey := getModuleKeyFromSpecifier cwd getText moduleSpecifier file) in *.
  assert (Hdefault :
            inert (visitEachChild (ImportExpression.visitor cwd getText exportNameMap file)
                                  (ImportDeclaration importClause moduleSpecifier))
                  (ImportDeclaration importClause moduleSpecifier)).
  { apply inert_visitEachChild.
    assert (Hall : Forall (fun child =>
                             everyNode (fun n => negb (isImportDeclaration n)) child = true)
                          (children (ImportDeclaration importClause moduleSpecifier)))
      by (apply Forall_forall; apply forallb_forall; exact Hparts).
    eapply Forall_impl; [ | exact Hall ].
    intros child. apply importExpression_elsewhere. }
  assert (Helements : forall elements,
             inert (mapM (ImportExpression.updateElement exportNameMap file moduleKey)
                         elements) elements).
  { intros elements. apply inert_mapM. apply Forall_forall. intros el _.
    unfold ImportExpression.updateElement.
    destruct el; try apply inert_ret.
    match goal with
    | |- inert (match ?local with _ => _ end) _ => destruct local; try apply inert_ret
    end.
    rewrite Hfind. apply inert_ret. }
  rewrite importExpression_declaration. cbv zeta. fold moduleKey.
  match goal with
  | |- context [ImportExpression.namedImports exportNameMap file moduleKey ?decl
                                              ?otherwise] =>
      assert (Hnamed : inert (ImportExpression.namedImports exportNameMap file moduleKey
                                                           decl otherwise) decl)
  end.
  { unfold ImportExpression.namedImports.
    repeat match goal with
           | |- inert (match ?x with _ => _ end) _ => destruct x; try exact Hdefault
           end.
    eapply inert_bind; [ apply Helements | apply inert_ret ]. }
  repeat first
         [ rewrite Hfind
         | exact Hnamed
         | match goal with
           | |- inert (match ?x with _ => _ end) _ => destruct x
           end ].
Qed.

Lemma importExpression_needs_an_entry_under_the_module_key_witness :
  let node := importNames None ["foo"] "./b" in
  ImportExpression.visitor "/" noText [mkEntry "foo" "/project/a" "d_foo_1"]
                           "/project/main.ts" node []
  = (node, []).
Proof.
  cbv zeta.
  exact (@importExpression_needs_an_entry_under_the_module_key
           "/" noText [mkEntry "foo" "/project/a" "d_foo_1"] "/project/main.ts"
           (Some (ImportClause None None
                    (Some (NamedImports [ImportSpecifier false None (Identifier "foo")]))))
           (StringLiteral "./b") eq_refl eq_refl []).
Defined.

(* ================================================================== *)
(** ** The updater below a scope boundary *)

(** X20.  The updater has no scope flag.  A variable declared in a block
    is never recorded by the collector, yet the updater renames it as soon as
    the index holds more than one entry for its name: the declaration gets
    the next name of the generator and the call-site map gets an entry for
    it. *)
Theorem updater_renames_inside_blocks
        (index namesMap : DuplicatesNameMap) (file : string)
        (modifiers : list Modifier) (flags : DeclarationKind) (base : string)
        (initializer : option Node) (isGlobalScope : bool) (st : Renames) :
  isDuplicated index base = true ->
  let newName := fst (dupName base (names st)) in
  visitNode file (localDeclaration modifiers flags base initializer) isGlobalScope namesMap
  = (localDeclaration modifiers flags base initializer, namesMap)
  /\ Updater.visitor index file (localDeclaration modifiers flags base initializer) st
     = (localDeclaration modifiers flags newName initializer,
        mkRenames (names st ++ [newName])
                  (callNameMap st ++ [mkEntry base file newName])).
Proof.
  intros Hdup newName. subst newName. split.
  - unfold localDeclaration. rewrite visitNode_unfold. cbv zeta.
    match goal with
    | |- context [mapM ?visit ?statements] =>
        assert (Hlocal : inert (mapM visit statements) statements)
          by (apply inert_mapM; repeat constructor; apply visitNode_local)
    end.
    match goal with
    | |- context [if isGlobalScope then ?recorded else namesMap] =>
        replace (if isGlobalScope then recorded else namesMap) with namesMap
          by (destruct isGlobalScope; reflexivity)
    end.
    rewrite Hlocal. reflexivity.
  - unfold localDeclaration. simpl. unfold bind, ret. simpl.
    rewrite Hdup. reflexivity.
Qed.

Lemma updater_renames_inside_blocks_witness :
  let index := [("foo", ["/project/a.ts"; "/project/b.ts"])] in
  let file := "/project/c.ts" in
  visitNode file (localDeclaration [] Const "foo" None) true index
  = (localDeclaration [] Const "foo" None, index)
  /\ Updater.visitor index file (localDeclaration [] Const "foo" None) (mkRenames [] [])
     = (localDeclaration [] Const "d_foo_1" None,
        mkRenames ["d_foo_1"] [mkEntry "foo" file "d_foo_1"]).
Proof.
  cbv zeta.
  exact (@updater_renames_inside_blocks
           [("foo", ["/project/a.ts"; "/project/b.ts"])]
           [("foo", ["/project/a.ts"; "/project/b.ts"])] "/project/c.ts"
           [] Const "foo" None true (mkRenames [] []) eq_refl).
Defined.

(* ================================================================== *)
(** ** The two modes agree *)

Lemma duplicated_has_duplicate (namesMap : DuplicatesNameMap) (name : string) :
  isDuplicated namesMap name = true -> hasDuplicate namesMap = true.
Proof.
  intros H. destruct (hasDuplicate namesMap) eqn:Hno; [ reflexivity | ].
  rewrite (no_duplicate_nothing_to_rename namesMap name Hno) in H. discriminate.
Qed.

(** X21.  [renamed] renames only what [notRenamed] refuses: whenever a run
    of [renamed] appends an entry to the call-site map, [notRenamed] on the
    same batch and the same index ends the process with exit code 1. *)
Theorem renamed_renames_only_what_notRenamed_refuses
        (cwd : string) (getText : Node -> string) (deps : list DepsFile)
        (namesMap : DuplicatesNameMap)
        (callNameMap importNameMap exportNameMap : NamesSets) (names : list string) :
  let r := renamed cwd getText deps namesMap callNameMap importNameMap exportNameMap names in
  List.length callNameMap < List.length (r_callNameMap r) ->
  v_completion (notRenamed deps namesMap) = Exited 1.
Proof.
  intros r Hgrows. subst r. rewrite notRenamed_completion.
  revert Hgrows. unfold renamed, collected.
  pose proof (collector_returns_deps deps namesMap) as Hdeps.
  destruct (mapM collector deps namesMap) as [deps1 namesMap1]. simpl in Hdeps. subst deps1.
  pose proof (updater_batch_pushes namesMap1 deps (mkRenames names callNameMap)) as H.
  destruct (mapM (updater namesMap1) deps (mkRenames names callNameMap))
    as [deps2 [names2 callNameMap2]].
  repeat match goal with
         | |- context [let (_, _) := ?m in _] => destruct m
         end.
  simpl. destruct H as (added & Hadded & Hall). simpl in Hadded. subst callNameMap2.
  rewrite length_app. intros Hgrows.
  destruct added as [|entry added]; [ simpl in Hgrows; lia | ].
  inversion Hall as [|? ? [_ Hdup] _]; subst.
  rewrite (duplicated_has_duplicate _ _ Hdup). reflexivity.
Qed.

Lemma renamed_renames_only_what_notRenamed_refuses_witness :
  v_completion (notRenamed [moduleA; moduleB; moduleMain] []) = Exited 1.
Proof.
  apply (@renamed_renames_only_what_notRenamed_refuses
           "/" noText [moduleA; moduleB; moduleMain] [] [] [] [] []).
  vm_compute. lia.
Defined.

(** A batch without duplicate and a batch with a collision. *)
Lemma renamed_without_duplicate_witness :
  renamed "/" noText [moduleMain] [] [] [] [] []
  = mkRenamed [moduleMain] (collected [moduleMain] []) [] [] [] [].
Proof.
  apply (@renamed_without_duplicate "/" noText [moduleMain] [] []). reflexivity.
Defined.

Lemma collision_is_reported_witness :
  reports (notRenamed [moduleA; moduleB; moduleMain] []) "foo" = true
  /\ v_completion (notRenamed [moduleA; moduleB; moduleMain] []) = Exited 1.
Proof.
  apply (@collision_is_reported [moduleA; moduleB; moduleMain] [] "foo").
  vm_compute. lia.
Defined.

(* ================================================================== *)
(** ** Paths *)

Import Path.

Lemma eqChars_eq (a b : chars) : eqChars a b = true <-> a = b.
Proof.
  revert b. induction a as [|x a IH]; intros [|y b]; simpl; split; intros H;
    try reflexivity; try discriminate.
  - apply andb_prop in H. destruct H as [Hx Ha].
    apply Ascii.eqb_eq in Hx. apply IH in Ha. congruence.
  - inversion H; subst. rewrite Ascii.eqb_refl. simpl. apply IH. reflexivity.
Qed.

Lemma ofString_app (a b : string) : ofString (a ++ b) = ofString a ++ ofString b.
Proof. unfold ofString. induction a; simpl; congruence. Qed.

Lemma ofString_toString (l : chars) : ofString (toString l) = l.
Proof. apply list_ascii_of_string_of_list_ascii. Qed.

Lemma toString_ofString (s : string) : toString (ofString s) = s.
Proof. apply string_of_list_ascii_of_string. Qed.

(** *** Splitting and joining *)

Lemma split_not_nil (path : chars) : split path <> [].
Proof.
  induction path as [|c rest IH]; simpl; [ discriminate | ].
  destruct (isSlash c); [ discriminate | ].
  destruct (split rest); discriminate.
Qed.

Lemma split_without_separator (segment : chars) :
  forallb notSlash segment = true -> split segment = [segment].
Proof.
  induction segment as [|c rest IH]; simpl; intros H; [ reflexivity | ].
  apply andb_prop in H. destruct H as [Hc Hrest].
  unfold notSlash in Hc. apply negb_true_iff in Hc. rewrite Hc, (IH Hrest). reflexivity.
Qed.

Lemma split_app_separator (a b : chars) :
  split (a ++ "/"%char :: b) = split a ++ split b.
Proof.
  induction a as [|c rest IH]; simpl; [ reflexivity | ].
  destruct (isSlash c); [ rewrite IH; reflexivity | ].
  rewrite IH. pose proof (split_not_nil rest) as Hne.
  destruct (split rest); [ contradiction | reflexivity ].
Qed.

Lemma split_segments (path : chars) :
  Forall (fun segment => forallb notSlash segment = true) (split path).
Proof.
  induction path as [|c rest IH]; simpl.
  - repeat constructor.
  - destruct (isSlash c) eqn:Hc.
    + constructor; [ reflexivity | exact IH ].
    + destruct (split rest) as [|seg segs].
      * repeat constructor. simpl. unfold notSlash. rewrite Hc. reflexivity.
      * inversion IH; subst. constructor; [ | assumption ].
        simpl. unfold notSlash at 1. rewrite Hc. assumption.
Qed.

Lemma joinWith_cons (segment : chars) (rest : list chars) :
  rest <> [] -> joinWith (segment :: rest) = segment ++ "/"%char :: joinWith rest.
Proof. destruct rest; [ contradiction | reflexivity ]. Qed.

Lemma joinWith_snoc (segments : list chars) (segment : chars) :
  segments <> [] ->
  joinWith (segments ++ [segment]) = joinWith segments ++ "/"%char :: segment.
Proof.
  induction segments as [|s rest IH]; intros Hne; [ contradiction | ].
  destruct rest as [|t rest].
  - reflexivity.
  - change ((s :: t :: rest) ++ [segment]) with (s :: ((t :: rest) ++ [segment])).
    rewrite joinWith_cons by (simpl; discriminate).
    rewrite IH by discriminate.
    rewrite (@joinWith_cons s (t :: rest)) by discriminate.
    rewrite <- app_assoc. reflexivity.
Qed.

Lemma joinWith_split (path : chars) : joinWith (split path) = path.
Proof.
  induction path as [|c rest IH]; simpl; [ reflexivity | ].
  pose proof (split_not_nil rest) as Hne.
  destruct (isSlash c) eqn:Hc.
  - rewrite joinWith_cons by assumption. rewrite IH. simpl.
    unfold isSlash in Hc. apply Ascii.eqb_eq in Hc. subst. reflexivity.
  - destruct (split rest) as [|seg segs]; [ contradiction | ].
    destruct segs as [|seg' segs].
    + simpl in *. congruence.
    + rewrite joinWith_cons by discriminate.
      rewrite joinWith_cons in IH by discriminate.
      rewrite <- IH. reflexivity.
Qed.

Lemma split_joinWith (segments : list chars) :
  segments <> [] ->
  Forall (fun segment => forallb notSlash segment = true) segments ->
  split (joinWith segments) = segments.
Proof.
  induction segments as [|s rest IH]; intros Hne Hall; [ contradiction | ].
  inversion Hall; subst. destruct rest as [|t rest].
  - simpl. apply split_without_separator. assumption.
  - rewrite joinWith_cons by discriminate.
    rewrite split_app_separator, split_without_separator by assumption.
    rewrite IH by (discriminate || assumption). reflexivity.
Qed.

(** *** Scans *)

Lemma forallb_rev (p : ascii -> bool) (l : chars) :
  forallb p l = true -> forallb p (rev l) = true.
Proof.
  rewrite !forallb_forall. intros H c Hc. apply H. apply in_rev. exact Hc.
Qed.

Lemma takeWhile_app (p : ascii -> bool) (a b : chars) :
  forallb p a = true -> takeWhile p (a ++ b) = a ++ takeWhile p b.
Proof.
  induction a as [|c a IH]; simpl; intros H; [ reflexivity | ].
  apply andb_prop in H. destruct H as [Hc Ha]. rewrite Hc, (IH Ha). reflexivity.
Qed.

Lemma dropWhile_app (p : ascii -> bool) (a b : chars) :
  forallb p a = true -> dropWhile p (a ++ b) = dropWhile p b.
Proof.
  induction a as [|c a IH]; simpl; intros H; [ reflexivity | ].
  apply andb_prop in H. destruct H as [Hc Ha]. rewrite Hc. apply IH. exact Ha.
Qed.

Lemma dropWhile_stops (p : ascii -> bool) (a b : chars) :
  a <> [] -> forallb (fun c => negb (p c)) a = true -> dropWhile p (a ++ b) = a ++ b.
Proof.
  destruct a as [|c a]; [ contradiction | ]. simpl. intros _ H.
  apply andb_prop in H. destruct H as [Hc _]. apply negb_true_iff in Hc.
  rewrite Hc. reflexivity.
Qed.

Lemma rev_not_nil (l : chars) : l <> [] -> rev l <> [].
Proof.
  intros H Hrev. apply H. rewrite <- (rev_involutive l), Hrev. reflexivity.
Qed.

(** *** Plain names and kept segments *)

Lemma plain_parts (segment : chars) :
  isPlainName segment = true ->
  segment <> [] /\ forallb notSlash segment = true /\ forallb notDot segment = true.
Proof.
  unfold isPlainName. intros H. apply andb_prop in H. destruct H as [Hne Hall].
  split; [ destruct segment; [ discriminate | discriminate ] | ].
  rewrite forallb_forall in Hall. split; apply forallb_forall; intros c Hc;
    specialize (Hall c Hc); apply andb_prop in Hall; tauto.
Qed.

Lemma plain_is_kept (segment : chars) : isPlainName segment = true -> isKept segment = true.
Proof.
  intros H. destruct (@plain_parts _ H) as (Hne & Hslash & Hdot).
  unfold isKept. rewrite Hslash.
  destruct segment as [|c rest]; [ contradiction | ].
  simpl in Hdot. apply andb_prop in Hdot. destruct Hdot as [Hc _].
  unfold notDot, isDot in Hc. apply negb_true_iff in Hc.
  simpl. rewrite Hc. reflexivity.
Qed.

Lemma kept_parts (segment : chars) :
  isKept segment = true -> segment <> [] /\ forallb notSlash segment = true.
Proof.
  unfold isKept. intros H.
  repeat (apply andb_prop in H; destruct H as [H ?]).
  split; [ destruct segment; [ discriminate | discriminate ] | assumption ].
Qed.

Lemma normalizeSegment_kept (allowAboveRoot : bool) (res : list chars) (segment : chars) :
  isKept segment = true -> normalizeSegment allowAboveRoot res segment = segment :: res.
Proof.
  unfold isKept, normalizeSegment. intros H.
  repeat (apply andb_prop in H; destruct H as [H ?]).
  repeat match goal with H : negb _ = true |- _ => apply negb_true_iff in H; rewrite H end.
  reflexivity.
Qed.

Lemma normalize_kept_segments (allowAboveRoot : bool) (segments res : list chars) :
  Forall (fun s => isKept s = true) segments ->
  fold_left (normalizeSegment allowAboveRoot) segments res = rev segments ++ res.
Proof.
  intros H. revert res. induction H as [|s rest Hs _ IH]; intros res; simpl.
  - reflexivity.
  - rewrite normalizeSegment_kept by assumption. rewrite IH, <- app_assoc. reflexivity.
Qed.

(** Below the root [normalizeString] keeps only segments of that kind. *)
Lemma normalizeSegment_invariant (res : list chars) (segment : chars) :
  forallb notSlash segment = true ->
  Forall (fun s => isKept s = true) res ->
  Forall (fun s => isKept s = true) (normalizeSegment false res segment).
Proof.
  intros Hslash Hres. unfold normalizeSegment.
  destruct (isEmpty segment) eqn:He; simpl; [ assumption | ].
  destruct (eqChars segment ["."%char]) eqn:Hd; [ assumption | ].
  destruct (eqChars segment ["."%char; "."%char]) eqn:Hdd.
  - destruct res as [|top below]; [ assumption | ].
    destruct (eqChars top ["."%char; "."%char]); [ assumption | ].
    inversion Hres; assumption.
  - constructor; [ | assumption ].
    unfold isKept. rewrite He, Hslash, Hd, Hdd. reflexivity.
Qed.

Lemma normalize_segments_invariant (segments res : list chars) :
  Forall (fun segment => forallb notSlash segment = true) segments ->
  Forall (fun s => isKept s = true) res ->
  Forall (fun s => isKept s = true) (fold_left (normalizeSegment false) segments res).
Proof.
  intros H. revert res. induction H as [|s rest Hs _ IH]; intros res Hres; simpl.
  - assumption.
  - apply IH. apply normalizeSegment_invariant; assumption.
Qed.

Lemma joinWith_not_empty (segments : list chars) :
  segments <> [] -> Forall (fun s => isKept s = true) segments ->
  isEmpty (joinWith segments) = false.
Proof.
  destruct segments as [|s rest]; [ contradiction | ]. intros _ H.
  inversion H; subst. destruct (@kept_parts _ H2) as [Hne _].
  destruct s; [ contradiction | ]. destruct rest; reflexivity.
Qed.

Lemma no_trailing_separator (before segment : chars) :
  isKept segment = true -> hasTrailingSeparator (before ++ segment) = false.
Proof.
  intros H. destruct (@kept_parts _ H) as [Hne Hslash].
  unfold hasTrailingSeparator. rewrite rev_app_distr.
  pose proof (@rev_not_nil _ Hne) as Hrev. apply forallb_rev in Hslash.
  destruct (rev segment) as [|c r]; [ contradiction | ].
  simpl in *. apply andb_prop in Hslash. destruct Hslash as [Hc _].
  unfold notSlash in Hc. apply negb_true_iff in Hc. exact Hc.
Qed.

(** The path [/s1/.../sn] of kept segments is already normal. *)
Lemma normalizeString_kept (segments : list chars) :
  segments <> [] -> Forall (fun s => isKept s = true) segments ->
  normalizeString ("/"%char :: joinWith segments) false = joinWith segments.
Proof.
  intros Hne Hkept. unfold normalizeString.
  change ("/"%char :: joinWith segments) with ([] ++ "/"%char :: joinWith segments).
  rewrite split_app_separator, split_joinWith; try assumption.
  - simpl. rewrite normalize_kept_segments by assumption.
    rewrite app_nil_r, rev_involutive. reflexivity.
  - eapply Forall_impl; [ | exact Hkept ]. intros s Hs. apply (@kept_parts _ Hs).
Qed.

Lemma joinWith_ends_with_last (segments : list chars) (segment : chars) :
  exists before, joinWith (segments ++ [segment]) = before ++ segment.
Proof.
  destruct segments as [|s rest].
  - exists []. reflexivity.
  - rewrite joinWith_snoc by discriminate.
    exists (joinWith (s :: rest) ++ ["/"%char]). rewrite <- app_assoc. reflexivity.
Qed.

Lemma normalize_kept (segments : list chars) (segment : chars) :
  Forall (fun s => isKept s = true) (segments ++ [segment]) ->
  normalize ("/"%char :: joinWith (segments ++ [segment]))
  = "/"%char :: joinWith (segments ++ [segment]).
Proof.
  intros Hkept.
  assert (Hne : segments ++ [segment] <> []) by (destruct segments; discriminate).
  unfold normalize.
  change (isEmpty ("/"%char :: joinWith (segments ++ [segment]))) with false.
  change (isAbsolute ("/"%char :: joinWith (segments ++ [segment]))) with true.
  cbv iota. simpl negb.
  rewrite normalizeString_kept by assumption.
  rewrite joinWith_not_empty by assumption.
  destruct (joinWith_ends_with_last segments segment) as [before Hbefore].
  rewrite Hbefore.
  change ("/"%char :: before ++ segment) with (("/"%char :: before) ++ segment).
  rewrite no_trailing_separator; [ reflexivity | ].
  apply Forall_app in Hkept. destruct Hkept as [_ Hlast]. inversion Hlast. assumption.
Qed.

(** *** [path.parse] on a path that ends in a plain name *)

Lemma scan_last_name (segment before : chars) :
  isPlainName segment = true ->
  before = [] \/ (exists rest, before = "/"%char :: rest) ->
  dropWhile isSlash (rev segment ++ before) = rev segment ++ before
  /\ takeWhile notSlash (rev segment ++ before) = rev segment
  /\ dropWhile notSlash (rev segment ++ before) = before.
Proof.
  intros Hplain Hbefore. destruct (@plain_parts _ Hplain) as (Hne & Hslash & _).
  apply forallb_rev in Hslash. split; [ | split ].
  - apply dropWhile_stops; [ apply rev_not_nil; assumption | exact Hslash ].
  - rewrite takeWhile_app by assumption.
    destruct Hbefore as [-> | [rest ->]]; simpl; apply app_nil_r.
  - rewrite dropWhile_app by assumption.
    destruct Hbefore as [-> | [rest ->]]; reflexivity.
Qed.

Lemma splitExt_plain (atRoot : bool) (segment : chars) :
  isPlainName segment = true -> splitExt atRoot segment = (segment, []).
Proof.
  intros Hplain. destruct (@plain_parts _ Hplain) as (_ & _ & Hdot).
  apply forallb_rev in Hdot. unfold splitExt.
  rewrite <- (app_nil_r (rev segment)), dropWhile_app by assumption. reflexivity.
Qed.

Lemma parse_in_directory (directory segment : chars) :
  isPlainName segment = true ->
  parse ("/"%char :: directory ++ "/"%char :: segment)
  = mkParsed ["/"%char] ("/"%char :: directory) segment [] segment.
Proof.
  intros Hplain. unfold parse.
  change (isEmpty ("/"%char :: directory ++ "/"%char :: segment)) with false.
  change (isAbsolute ("/"%char :: directory ++ "/"%char :: segment)) with true.
  cbv iota. simpl tl.
  assert (Hrev : rev (directory ++ "/"%char :: segment)
                 = rev segment ++ "/"%char :: rev directory)
    by (rewrite rev_app_distr; simpl; rewrite <- app_assoc; reflexivity).
  rewrite Hrev.
  destruct (@scan_last_name segment ("/"%char :: rev directory) Hplain) as (H1 & H2 & H3);
    [ right; eexists; reflexivity | ].
  rewrite H1, H2, H3, !rev_involutive. simpl.
  rewrite splitExt_plain by assumption. reflexivity.
Qed.

Lemma parse_in_root (segment : chars) :
  isPlainName segment = true ->
  parse ("/"%char :: segment) = mkParsed ["/"%char] ["/"%char] segment [] segment.
Proof.
  intros Hplain. unfold parse.
  change (isEmpty ("/"%char :: segment)) with false.
  change (isAbsolute ("/"%char :: segment)) with true.
  cbv iota. simpl tl.
  destruct (@scan_last_name segment [] Hplain) as (H1 & H2 & H3); [ left; reflexivity | ].
  rewrite app_nil_r in H1, H2, H3.
  rewrite H1, H2, H3, rev_involutive. simpl.
  rewrite splitExt_plain by assumption. reflexivity.
Qed.

(** *** Keys of normal absolute paths *)

Lemma plain_not_empty (segment : chars) : isPlainName segment = true -> isEmpty segment = false.
Proof. destruct segment; [ discriminate | reflexivity ]. Qed.

Lemma name_is_not_index (segment : chars) :
  segment <> ofString "index" -> String.eqb (toString segment) "index" = false.
Proof.
  intros H. apply String.eqb_neq. intros Heq. apply H.
  rewrite <- (ofString_toString segment), Heq. reflexivity.
Qed.

(** A path of kept segments whose last one is a plain name other than
    [index] is its own key. *)
Lemma normalizePathKey_kept (segments : list chars) (segment : chars) :
  Forall (fun s => isKept s = true) segments ->
  isPlainName segment = true ->
  segment <> ofString "index" ->
  normalizePathKey (toString ("/"%char :: joinWith (segments ++ [segment])))
  = toString ("/"%char :: joinWith (segments ++ [segment])).
Proof.
  intros Hkept Hplain Hindex.
  assert (Hall : Forall (fun s => isKept s = true) (segments ++ [segment]))
    by (apply Forall_app; split; [ assumption | repeat constructor; apply plain_is_kept; assumption ]).
  pose proof (normalize_kept segments segment Hall) as Hnormal.
  unfold normalizePathKey. rewrite ofString_toString.
  destruct segments as [|s rest].
  - simpl app in *. simpl joinWith in *.
    rewrite parse_in_root by assumption. simpl dir. simpl name.
    rewrite name_is_not_index by assumption.
    unfold join. simpl filter. rewrite (@plain_not_empty segment Hplain).
    simpl negb. cbv iota.
    change (joinWith [["/"%char]; segment]) with ("/"%char :: "/"%char :: segment).
    change (isEmpty ("/"%char :: "/"%char :: segment)) with false. cbv iota.
    assert (Hdouble : normalize ("/"%char :: "/"%char :: segment) = "/"%char :: segment).
    { unfold normalize.
      change (isEmpty ("/"%char :: "/"%char :: segment)) with false.
      change (isAbsolute ("/"%char :: "/"%char :: segment)) with true.
      cbv iota. simpl negb.
      assert (Hstring : normalizeString ("/"%char :: "/"%char :: segment) false = segment).
      { unfold normalizeString.
        change ("/"%char :: "/"%char :: segment) with (["/"%char] ++ "/"%char :: segment).
        rewrite split_app_separator.
        destruct (@plain_parts _ Hplain) as (_ & Hslash & _).
        rewrite (split_without_separator _ Hslash). simpl.
        rewrite normalizeSegment_kept by (apply plain_is_kept; assumption).
        reflexivity. }
      rewrite Hstring, (@plain_not_empty segment Hplain).
      change ("/"%char :: "/"%char :: segment) with (["/"%char; "/"%char] ++ segment).
      rewrite no_trailing_separator by (apply plain_is_kept; assumption).
      reflexivity. }
    rewrite Hdouble, Hnormal. reflexivity.
  - rewrite joinWith_snoc in * by discriminate.
    set (directory := joinWith (s :: rest)) in *. clearbody directory.
    rewrite parse_in_directory by assumption. simpl dir. simpl name.
    rewrite name_is_not_index by assumption.
    unfold join. simpl filter. rewrite (@plain_not_empty segment Hplain). simpl negb.
    cbv iota.
    change (joinWith [("/"%char :: directory); segment])
      with ("/"%char :: directory ++ "/"%char :: segment).
    change (isEmpty ("/"%char :: directory ++ "/"%char :: segment)) with false.
    cbv iota. rewrite !Hnormal. reflexivity.
Qed.

(** The key of [<path>/index] is [<path>]. *)
Lemma normalizePathKey_index (segments : list chars) (segment : chars) :
  Forall (fun s => isKept s = true) (segments ++ [segment]) ->
  normalizePathKey
    (toString ("/"%char :: joinWith ((segments ++ [segment]) ++ [ofString "index"])))
  = toString ("/"%char :: joinWith (segments ++ [segment])).
Proof.
  intros Hall. pose proof (normalize_kept segments segment Hall) as Hnormal.
  unfold normalizePathKey. rewrite ofString_toString.
  rewrite joinWith_snoc by (destruct segments; discriminate).
  set (directory := joinWith (segments ++ [segment])) in *. clearbody directory.
  rewrite parse_in_directory by reflexivity. simpl dir. simpl name.
  match goal with
  | |- context [String.eqb ?a ?b] => change (String.eqb a b) with true
  end.
  cbv iota. rewrite Hnormal. reflexivity.
Qed.

(** *** [path.resolve] of a relative specifier *)

(** With an absolute working directory the loop of [path.resolve] stops at
    an absolute path; what it puts in front of a relative specifier depends
    on the directory and the working directory only. *)
Lemma resolveLoop_relative (cwd baseDir : chars) :
  isAbsolute cwd = true ->
  exists front,
    forall spec, isEmpty spec = false -> isAbsolute spec = false ->
      resolveLoop [spec; baseDir; cwd] []
      = (front ++ "/"%char :: spec ++ ["/"%char], true).
Proof.
  intros Hcwd.
  assert (Hne : isEmpty cwd = false) by (destruct cwd; [ discriminate | reflexivity ]).
  destruct (isEmpty baseDir) eqn:Hb; [ | destruct (isAbsolute baseDir) eqn:Ha ].
  - exists cwd. intros spec Hs Hr. simpl. rewrite Hs, Hr, Hb, Hne, Hcwd. reflexivity.
  - exists baseDir. intros spec Hs Hr. simpl. rewrite Hs, Hr, Hb, Ha. reflexivity.
  - exists (cwd ++ "/"%char :: baseDir). intros spec Hs Hr. simpl.
    rewrite Hs, Hr, Hb, Ha, Hne, Hcwd. rewrite <- app_assoc. reflexivity.
Qed.

Lemma resolve_relative (cwd baseDir : chars) :
  isAbsolute cwd = true ->
  exists above,
    Forall (fun s => isKept s = true) above
    /\ forall names,
         names <> [] -> Forall (fun s => isPlainName s = true) names ->
         resolve cwd [baseDir; "."%char :: "/"%char :: joinWith names]
         = "/"%char :: joinWith (above ++ names).
Proof.
  intros Hcwd. destruct (@resolveLoop_relative cwd baseDir Hcwd) as [front Hfront].
  exists (rev (fold_left (normalizeSegment false) (split front) [])). split.
  - apply Forall_rev. apply normalize_segments_invariant; [ apply split_segments | constructor ].
  - intros names Hne Hplain. unfold resolve.
    change (rev [baseDir; "."%char :: "/"%char :: joinWith names] ++ [cwd])
      with ["."%char :: "/"%char :: joinWith names; baseDir; cwd].
    rewrite Hfront by reflexivity. simpl negb. cbv iota.
    f_equal. unfold normalizeString. f_equal.
    assert (Hkept : Forall (fun s => isKept s = true) names)
      by (eapply Forall_impl; [ | exact Hplain ]; intros s; apply plain_is_kept).
    assert (Hsplit : split (("."%char :: "/"%char :: joinWith names) ++ ["/"%char])
                     = ["."%char] :: names ++ [[]]).
    { change (("."%char :: "/"%char :: joinWith names) ++ ["/"%char])
        with (["."%char] ++ "/"%char :: (joinWith names ++ "/"%char :: [])).
      rewrite !split_app_separator. rewrite split_joinWith.
      - reflexivity.
      - assumption.
      - eapply Forall_impl; [ | exact Hkept ]. intros s Hs. apply (@kept_parts _ Hs). }
    rewrite split_app_separator, Hsplit, fold_left_app.
    set (kept := fold_left (normalizeSegment false) (split front) []).
    change (fold_left (normalizeSegment false) (["."%char] :: names ++ [[]]) kept)
      with (fold_left (normalizeSegment false) (names ++ [[]]) kept).
    rewrite fold_left_app, (@normalize_kept_segments false names kept Hkept).
    change (fold_left (normalizeSegment false) [[]] (rev names ++ kept))
      with (rev names ++ kept).
    rewrite rev_app_distr, rev_involutive. reflexivity.
Qed.

(* ================================================================== *)
(** ** File keys and the specifiers that reach them *)

Lemma scan_last_component (segment before : chars) :
  segment <> [] -> forallb notSlash segment = true ->
  before = [] \/ (exists rest, before = "/"%char :: rest) ->
  dropWhile isSlash (rev segment ++ before) = rev segment ++ before
  /\ takeWhile notSlash (rev segment ++ before) = rev segment
  /\ dropWhile notSlash (rev segment ++ before) = before.
Proof.
  intros Hne Hslash Hbefore.
  apply forallb_rev in Hslash. split; [ | split ].
  - apply dropWhile_stops; [ apply rev_not_nil; assumption | exact Hslash ].
  - rewrite takeWhile_app by assumption.
    destruct Hbefore as [-> | [rest ->]]; simpl; apply app_nil_r.
  - rewrite dropWhile_app by assumption.
    destruct Hbefore as [-> | [rest ->]]; reflexivity.
Qed.

Lemma not_two_dots (stem extension : chars) :
  stem <> [] -> extension <> [] ->
  eqChars (stem ++ "."%char :: extension) ["."%char; "."%char] = false.
Proof.
  intros Hstem Hextension.
  destruct stem as [|a [|b s]]; [ contradiction | | ];
    destruct extension as [|e es]; try contradiction; simpl.
  - rewrite !andb_false_r. reflexivity.
  - destruct s; simpl; rewrite !andb_false_r; reflexivity.
Qed.

Lemma splitExt_extension (atRoot : bool) (stem extension : chars) :
  stem <> [] -> isPlainName extension = true ->
  splitExt atRoot (stem ++ "."%char :: extension) = (stem, "."%char :: extension).
Proof.
  intros Hstem Hplain. destruct (@plain_parts _ Hplain) as (Hne & _ & Hdot).
  apply forallb_rev in Hdot. unfold splitExt.
  assert (Hrev : rev (stem ++ "."%char :: extension)
                 = rev extension ++ "."%char :: rev stem)
    by (rewrite rev_app_distr; simpl; rewrite <- app_assoc; reflexivity).
  rewrite Hrev, dropWhile_app, takeWhile_app by assumption.
  simpl dropWhile. simpl takeWhile. rewrite app_nil_r, rev_involutive.
  rewrite not_two_dots by assumption. simpl andb.
  pose proof (@rev_not_nil _ Hstem) as Hback.
  destruct (rev stem) as [|x xs] eqn:Hx; [ contradiction | ].
  cbv iota. rewrite rev_involutive. reflexivity.
Qed.

Lemma component_parts (stem extension : chars) :
  isKept stem = true -> isPlainName extension = true ->
  stem ++ "."%char :: extension <> []
  /\ forallb notSlash (stem ++ "."%char :: extension) = true.
Proof.
  intros Hkept Hplain.
  destruct (@kept_parts _ Hkept) as (Hne & Hslash).
  destruct (@plain_parts _ Hplain) as (_ & Hslash' & _).
  split; [ destruct stem; [ contradiction | discriminate ] | ].
  rewrite forallb_app, Hslash. simpl. exact Hslash'.
Qed.

Lemma parse_extension_in_directory (directory stem extension : chars) :
  isKept stem = true -> isPlainName extension = true ->
  parse ("/"%char :: directory ++ "/"%char :: stem ++ "."%char :: extension)
  = mkParsed ["/"%char] ("/"%char :: directory) (stem ++ "."%char :: extension)
             ("."%char :: extension) stem.
Proof.
  intros Hkept Hplain.
  destruct (@component_parts _ _ Hkept Hplain) as (Hne & Hslash).
  destruct (@kept_parts _ Hkept) as (Hstem & _).
  set (component := stem ++ "."%char :: extension) in *.
  unfold parse.
  change (isEmpty ("/"%char :: directory ++ "/"%char :: component)) with false.
  change (isAbsolute ("/"%char :: directory ++ "/"%char :: component)) with true.
  cbv iota. simpl tl.
  assert (Hrev : rev (directory ++ "/"%char :: component)
                 = rev component ++ "/"%char :: rev directory)
    by (rewrite rev_app_distr; simpl; rewrite <- app_assoc; reflexivity).
  rewrite Hrev.
  destruct (@scan_last_component component ("/"%char :: rev directory) Hne Hslash)
    as (H1 & H2 & H3); [ right; eexists; reflexivity | ].
  rewrite H1, H2, H3, !rev_involutive. simpl.
  unfold component. rewrite splitExt_extension by assumption. reflexivity.
Qed.

Lemma parse_extension_in_root (stem extension : chars) :
  isKept stem = true -> isPlainName extension = true ->
  parse ("/"%char :: stem ++ "."%char :: extension)
  = mkParsed ["/"%char] ["/"%char] (stem ++ "."%char :: extension)
             ("."%char :: extension) stem.
Proof.
  intros Hkept Hplain.
  destruct (@component_parts _ _ Hkept Hplain) as (Hne & Hslash).
  destruct (@kept_parts _ Hkept) as (Hstem & _).
  set (component := stem ++ "."%char :: extension) in *.
  unfold parse.
  change (isEmpty ("/"%char :: component)) with false.
  change (isAbsolute ("/"%char :: component)) with true.
  cbv iota. simpl tl.
  destruct (@scan_last_component component [] Hne Hslash) as (H1 & H2 & H3);
    [ left; reflexivity | ].
  rewrite app_nil_r in H1, H2, H3.
  rewrite H1, H2, H3, rev_involutive. simpl.
  unfold component. rewrite splitExt_extension by assumption. reflexivity.
Qed.

Lemma kept_not_empty (segment : chars) : isKept segment = true -> isEmpty segment = false.
Proof. destruct segment; [ discriminate | reflexivity ]. Qed.

Lemma normalize_double_root (segment : chars) :
  isKept segment = true ->
  normalize ("/"%char :: "/"%char :: segment) = "/"%char :: segment.
Proof.
  intros Hkept. unfold normalize.
  change (isEmpty ("/"%char :: "/"%char :: segment)) with false.
  change (isAbsolute ("/"%char :: "/"%char :: segment)) with true.
  cbv iota. simpl negb.
  assert (Hstring : normalizeString ("/"%char :: "/"%char :: segment) false = segment).
  { unfold normalizeString.
    change ("/"%char :: "/"%char :: segment) with (["/"%char] ++ "/"%char :: segment).
    rewrite split_app_separator.
    destruct (@kept_parts _ Hkept) as (_ & Hslash).
    rewrite (split_without_separator _ Hslash). simpl.
    rewrite normalizeSegment_kept by assumption.
    reflexivity. }
  rewrite Hstring, (@kept_not_empty segment Hkept).
  change ("/"%char :: "/"%char :: segment) with (["/"%char; "/"%char] ++ segment).
  rewrite no_trailing_separator by assumption.
  reflexivity.
Qed.

(** A directory made of kept segments is normal. *)
Lemma normalize_directory (segments : list chars) :
  Forall (fun s => isKept s = true) segments ->
  normalize ("/"%char :: joinWith segments) = "/"%char :: joinWith segments.
Proof.
  intros Hkept. destruct segments as [|s rest] eqn:Hsegments; [ reflexivity | ].
  rewrite <- Hsegments in *.
  assert (Hne : segments <> []) by (rewrite Hsegments; discriminate).
  destruct (exists_last Hne) as (front & final & Hlast).
  rewrite Hlast in *. apply normalize_kept. exact Hkept.
Qed.

(** The key of [/segments/name]: the components that are left once
    [path.parse] has given [name] as the name of the last one. *)
Lemma key_of_parsed (segments : list chars) (stem component : chars)
      (extension : chars) :
  Forall (fun s => isKept s = true) segments ->
  isKept stem = true ->
  parse ("/"%char :: joinWith (segments ++ [component]))
  = mkParsed ["/"%char] ("/"%char :: joinWith segments) component extension stem ->
  normalizePathKey (toString ("/"%char :: joinWith (segments ++ [component])))
  = absolutePath (if String.eqb (toString stem) "index" then segments
                  else segments ++ [stem]).
Proof.
  intros Hkept Hstem Hparse.
  unfold normalizePathKey, absolutePath. rewrite ofString_toString, Hparse.
  simpl dir. simpl Path.name.
  destruct (String.eqb (toString stem) "index").
  - rewrite normalize_directory by assumption. reflexivity.
  - f_equal. unfold join. simpl filter. rewrite (@kept_not_empty stem Hstem).
    simpl negb. cbv iota.
    destruct segments as [|s rest].
    + change (joinWith ["/"%char :: joinWith []; stem])
        with ("/"%char :: "/"%char :: stem).
      change (joinWith ([] ++ [stem])) with stem.
      change (isEmpty ("/"%char :: "/"%char :: stem)) with false. cbv iota.
      rewrite normalize_double_root by assumption.
      apply (normalize_kept [] stem). repeat constructor. exact Hstem.
    + assert (Hall : Forall (fun s => isKept s = true) ((s :: rest) ++ [stem]))
        by (apply Forall_app; split; [ assumption | repeat constructor; assumption ]).
      pose proof (normalize_kept (s :: rest) stem Hall) as Hnormal.
      rewrite joinWith_snoc in * by discriminate.
      set (directory := joinWith (s :: rest)) in *. clearbody directory.
      change (joinWith [("/"%char :: directory); stem])
        with ("/"%char :: directory ++ "/"%char :: stem).
      change (isEmpty ("/"%char :: directory ++ "/"%char :: stem)) with false.
      cbv iota. rewrite !Hnormal. reflexivity.
Qed.

Lemma key_of_plain_path (segments : list chars) (imported : chars) :
  Forall (fun s => isKept s = true) segments ->
  isPlainName imported = true ->
  normalizePathKey (toString ("/"%char :: joinWith (segments ++ [imported])))
  = absolutePath (if String.eqb (toString imported) "index" then segments
                  else segments ++ [imported]).
Proof.
  intros Hkept Hplain.
  apply key_of_parsed with (extension := []); try assumption.
  - apply plain_is_kept. exact Hplain.
  - destruct segments as [|s rest].
    + simpl app. simpl joinWith. apply parse_in_root. exact Hplain.
    + rewrite joinWith_snoc by discriminate.
      apply parse_in_directory. exact Hplain.
Qed.

(** X22.  The key of a file.  For the absolute path of a file in a
    directory of ordinary names, with a file name [stem.extension],
    [getFileKey] is the path without the extension, and without the file name
    as well when the stem is [index]: [/p/a.ts] and [/p/a/index.ts] have the
    same key [/p/a]. *)
Theorem getFileKey_drops_extension_and_index
        (segments : list chars) (stem extension : chars) :
  Forall (fun s => isKept s = true) segments ->
  isKept stem = true -> isPlainName extension = true ->
  getFileKey (absolutePath (segments ++ [stem ++ "."%char :: extension]))
  = absolutePath (if String.eqb (toString stem) "index" then segments
                  else segments ++ [stem]).
Proof.
  intros Hkept Hstem Hplain. unfold getFileKey, absolutePath at 1.
  apply key_of_parsed with (extension := "."%char :: extension); try assumption.
  destruct segments as [|s rest].
  - simpl app. simpl joinWith. apply parse_extension_in_root; assumption.
  - rewrite joinWith_snoc by discriminate.
    apply parse_extension_in_directory; assumption.
Qed.

Lemma getFileKey_drops_extension_and_index_witness :
  getFileKey "/project/a.ts" = "/project/a"
  /\ getFileKey "/project/a/index.ts" = "/project/a".
Proof.
  split.
  - apply (@getFileKey_drops_extension_and_index
             [ofString "project"] (ofString "a") (ofString "ts"));
      [ repeat constructor | reflexivity | reflexivity ].
  - apply (@getFileKey_drops_extension_and_index
             [ofString "project"; ofString "a"] (ofString "index") (ofString "ts"));
      [ repeat constructor | reflexivity | reflexivity ].
Defined.


(* ================================================================== *)
(** ** Index modules *)

Lemma splitExt_none (atRoot : bool) (segment : chars) :
  hasNoExtension segment = true -> splitExt atRoot segment = (segment, []).
Proof.
  intros Hnone. unfold splitExt. destruct segment as [|c rest]; [ reflexivity | ].
  unfold hasNoExtension in Hnone. simpl tl in Hnone. apply forallb_rev in Hnone.
  simpl rev. rewrite dropWhile_app by assumption. simpl.
  destruct (notDot c); reflexivity.
Qed.

Lemma parse_without_extension (segments : list chars) (segment : chars) :
  isKept segment = true -> hasNoExtension segment = true ->
  parse ("/"%char :: joinWith (segments ++ [segment]))
  = mkParsed ["/"%char] ("/"%char :: joinWith segments) segment [] segment.
Proof.
  intros Hkept Hnone. destruct (@kept_parts _ Hkept) as (Hne & Hslash).
  destruct segments as [|s rest].
  - simpl app. simpl joinWith. unfold parse.
    change (isEmpty ("/"%char :: segment)) with false.
    change (isAbsolute ("/"%char :: segment)) with true.
    cbv iota. simpl tl.
    destruct (@scan_last_component segment [] Hne Hslash) as (H1 & H2 & H3);
      [ left; reflexivity | ].
    rewrite app_nil_r in H1, H2, H3.
    rewrite H1, H2, H3, rev_involutive. simpl.
    rewrite splitExt_none by assumption. reflexivity.
  - rewrite joinWith_snoc by discriminate.
    set (directory := joinWith (s :: rest)). clearbody directory.
    unfold parse.
    change (isEmpty ("/"%char :: directory ++ "/"%char :: segment)) with false.
    change (isAbsolute ("/"%char :: directory ++ "/"%char :: segment)) with true.
    cbv iota. simpl tl.
    assert (Hrev : rev (directory ++ "/"%char :: segment)
                   = rev segment ++ "/"%char :: rev directory)
      by (rewrite rev_app_distr; simpl; rewrite <- app_assoc; reflexivity).
    rewrite Hrev.
    destruct (@scan_last_component segment ("/"%char :: rev directory) Hne Hslash)
      as (H1 & H2 & H3); [ right; eexists; reflexivity | ].
    rewrite H1, H2, H3, !rev_involutive. simpl.
    rewrite splitExt_none by assumption. reflexivity.
Qed.

(** What [path.resolve] makes of [./dir] and of [./dir/index] when [dir]
    ends in a name that is kept: the same names, with [index] after them for
    the second.  The names before the last one of [dir] are free: they may be
    empty, [.] or [..]. *)
Lemma resolve_directory_and_index (cwd baseDir dir : chars) :
  isAbsolute cwd = true ->
  isKept (last (split dir) []) = true ->
  exists above,
    Forall (fun s => isKept s = true) above
    /\ resolve cwd [baseDir; "."%char :: "/"%char :: dir]
       = "/"%char :: joinWith (above ++ [last (split dir) []])
    /\ resolve cwd [baseDir; "."%char :: "/"%char :: dir ++ ofString "/index"]
       = "/"%char :: joinWith ((above ++ [last (split dir) []]) ++ [ofString "index"]).
Proof.
  intros Hcwd Hlast.
  destruct (@resolveLoop_relative cwd baseDir Hcwd) as [front Hfront].
  destruct (exists_last (split_not_nil dir)) as (init & final & Hsplit).
  rewrite Hsplit, last_last in *.
  pose proof (split_segments dir) as Hsegments. rewrite Hsplit in Hsegments.
  apply Forall_app in Hsegments. destruct Hsegments as [Hinit _].
  set (kept := fold_left (normalizeSegment false) (split front ++ ["."%char] :: init) []).
  assert (Hkept : Forall (fun s => isKept s = true) kept).
  { apply normalize_segments_invariant; [ | constructor ].
    apply Forall_app. split; [ apply split_segments | ].
    constructor; [ reflexivity | exact Hinit ]. }
  assert (Hfold : forall more,
             fold_left (normalizeSegment false)
                       (split front ++ ["."%char] :: (init ++ [final]) ++ more) []
             = fold_left (normalizeSegment false) more (final :: kept)).
  { intros more.
    replace (split front ++ ["."%char] :: (init ++ [final]) ++ more)
      with ((split front ++ ["."%char] :: init) ++ final :: more)
      by (rewrite <- !app_assoc; reflexivity).
    rewrite fold_left_app. fold kept.
    change (fold_left (normalizeSegment false) (final :: more) kept)
      with (fold_left (normalizeSegment false) more (normalizeSegment false kept final)).
    rewrite (@normalizeSegment_kept false kept final Hlast). reflexivity. }
  exists (rev kept). split; [ apply Forall_rev; exact Hkept | ].
  split.
  - unfold resolve.
    change (rev [baseDir; "."%char :: "/"%char :: dir] ++ [cwd])
      with ["."%char :: "/"%char :: dir; baseDir; cwd].
    rewrite Hfront by reflexivity. simpl negb. cbv iota.
    f_equal. unfold normalizeString. f_equal.
    change (("."%char :: "/"%char :: dir) ++ ["/"%char])
      with (["."%char] ++ "/"%char :: (dir ++ "/"%char :: [])).
    rewrite !split_app_separator, Hsplit.
    change (split ["."%char]) with [["."%char]]. change (split []) with [@nil ascii].
    change ([["."%char]] ++ (init ++ [final]) ++ [[]])
      with (["."%char] :: (init ++ [final]) ++ [[]]).
    rewrite Hfold. reflexivity.
  - unfold resolve.
    change (rev [baseDir; "."%char :: "/"%char :: dir ++ ofString "/index"] ++ [cwd])
      with ["."%char :: "/"%char :: dir ++ ofString "/index"; baseDir; cwd].
    rewrite Hfront by reflexivity. simpl negb. cbv iota.
    f_equal. unfold normalizeString. f_equal.
    change (("."%char :: "/"%char :: dir ++ ofString "/index") ++ ["/"%char])
      with (["."%char] ++ "/"%char :: ((dir ++ ofString "/index") ++ "/"%char :: [])).
    change (ofString "/index") with ("/"%char :: ofString "index").
    rewrite <- app_assoc.
    change (("/"%char :: ofString "index") ++ ["/"%char])
      with ("/"%char :: (ofString "index" ++ "/"%char :: [])).
    rewrite !split_app_separator, Hsplit.
    change (split ["."%char]) with [["."%char]]. change (split []) with [@nil ascii].
    change (split (ofString "index")) with [ofString "index"].
    change ([["."%char]] ++ (init ++ [final]) ++ [ofString "index"] ++ [[]])
      with (["."%char] :: (init ++ [final]) ++ [ofString "index"; []]).
    rewrite Hfold. simpl fold_left. simpl rev. rewrite <- !app_assoc. reflexivity.
Qed.

(** C7 (amended).  From any importing module, with an absolute working
    directory, the specifiers [./dir] and [./dir/index] get the same key when
    the last name of [dir] (what follows its last separator) is not empty, is
    neither [.] nor [..], has no dot after its first character and is not
    [index].  The names before the last one are free. *)
Theorem index_specifier_has_the_key_of_its_directory
        (cwd : string) (getText : Node -> string) (containingFile dir : string) :
  Path.isAbsolute (ofString cwd) = true ->
  isKept (lastName dir) = true ->
  hasNoExtension (lastName dir) = true ->
  lastName dir <> ofString "index" ->
  getModuleKeyFromSpecifier cwd getText (StringLiteral ("./" ++ dir)) containingFile
  = getModuleKeyFromSpecifier cwd getText (StringLiteral ("./" ++ dir ++ "/index"))
                              containingFile.
Proof.
  unfold lastName. intros Hcwd Hkept Hnone Hindex.
  unfold getModuleKeyFromSpecifier. simpl startsWith. simpl orb. cbv iota.
  destruct (@resolve_directory_and_index (ofString cwd) (dirname (ofString containingFile))
                                         (ofString dir) Hcwd Hkept)
    as (above & Habove & Hdir & Hdirindex).
  set (final := last (split (ofString dir)) []) in *.
  assert (Hspec : ofString ("./" ++ dir) = "."%char :: "/"%char :: ofString dir)
    by reflexivity.
  assert (Hspecindex : ofString ("./" ++ dir ++ "/index")
                       = "."%char :: "/"%char :: ofString dir ++ ofString "/index").
  { change ("./" ++ dir ++ "/index")%string with (String "." (String "/" (dir ++ "/index"))).
    simpl. unfold ofString. f_equal. f_equal. apply (ofString_app dir "/index"). }
  rewrite Hspec, Hspecindex.
  etransitivity;
    [ exact (f_equal (fun p => normalizePathKey (toString p)) Hdir) | ].
  etransitivity;
    [ | symmetry; exact (f_equal (fun p => normalizePathKey (toString p)) Hdirindex) ].
  rewrite (@key_of_parsed above final final []);
    [ | exact Habove | exact Hkept | apply parse_without_extension; assumption ].
  rewrite name_is_not_index by assumption.
  rewrite normalizePathKey_index; [ reflexivity | ].
  apply Forall_app. split; [ exact Habove | repeat constructor; exact Hkept ].
Qed.

(** C7 at [./a] and [./a/index] seen from [/project/main.ts], and at a
    directory below one whose name has a dot. *)
Lemma index_specifier_witness :
  getModuleKeyFromSpecifier "/" noText (StringLiteral "./a") "/project/main.ts"
  = getModuleKeyFromSpecifier "/" noText (StringLiteral "./a/index") "/project/main.ts"
  /\ getModuleKeyFromSpecifier "/" noText (StringLiteral "./v1.2/lib") "/project/main.ts"
     = getModuleKeyFromSpecifier "/" noText (StringLiteral "./v1.2/lib/index")
                                 "/project/main.ts".
Proof.
  split.
  - refine (@index_specifier_has_the_key_of_its_directory
              "/" noText "/project/main.ts" "a" eq_refl eq_refl eq_refl _).
    vm_compute. discriminate.
  - refine (@index_specifier_has_the_key_of_its_directory
              "/" noText "/project/main.ts" "v1.2/lib" eq_refl eq_refl eq_refl _).
    vm_compute. discriminate.
Defined.

(** C7, the claim as stated fails.  A directory that is itself named
    [index]: [./index] is read as the index file of the importing directory,
    [./index/index] as the index file of the directory [index].  A directory
    named [v1.2]: it loses [.2] as an extension when it ends the specifier and
    keeps it before [/index]. *)
Lemma index_specifier_keys_differ :
  getModuleKeyFromSpecifier "/" noText (StringLiteral "./index") "/project/main.ts"
  = "/project"
  /\ getModuleKeyFromSpecifier "/" noText (StringLiteral "./index/index") "/project/main.ts"
     = "/project/index"
  /\ getModuleKeyFromSpecifier "/" noText (StringLiteral "./v1.2") "/project/main.ts"
     = "/project/v1"
  /\ getModuleKeyFromSpecifier "/" noText (StringLiteral "./v1.2/index") "/project/main.ts"
     = "/project/v1.2"
  /\ getModuleKeyFromSpecifier "/" noText (StringLiteral "./index") "/project/main.ts"
     <> getModuleKeyFromSpecifier "/" noText (StringLiteral "./index/index")
                                  "/project/main.ts".
Proof. vm_compute. repeat split; try reflexivity. discriminate. Qed.

Lemma dirname_of_file (segments : list chars) (last : chars) :
  Forall (fun s => isKept s = true) segments ->
  isKept last = true ->
  dirname ("/"%char :: joinWith (segments ++ [last])) = "/"%char :: joinWith segments.
Proof.
  intros Hkept Hlast. destruct (@kept_parts _ Hlast) as (Hne & Hslash).
  unfold dirname. change (isSlash "/"%char) with true.
  destruct segments as [|s rest].
  - simpl app. simpl joinWith.
    destruct (@scan_last_component last [] Hne Hslash) as (H1 & _ & H3);
      [ left; reflexivity | ].
    rewrite app_nil_r in H1, H3. rewrite H1, H3. reflexivity.
  - rewrite joinWith_snoc by discriminate.
    assert (Hdirectory : isEmpty (joinWith (s :: rest)) = false)
      by (apply joinWith_not_empty; [ discriminate | assumption ]).
    set (directory := joinWith (s :: rest)) in *. clearbody directory.
    assert (Hrev : rev (directory ++ "/"%char :: last)
                   = rev last ++ "/"%char :: rev directory)
      by (rewrite rev_app_distr; simpl; rewrite <- app_assoc; reflexivity).
    rewrite Hrev.
    destruct (@scan_last_component last ("/"%char :: rev directory) Hne Hslash)
      as (H1 & _ & H3); [ right; eexists; reflexivity | ].
    rewrite H1, H3, rev_involutive.
    destruct directory as [|c directory]; [ discriminate | ].
    assert (Hback : isEmpty (rev (c :: directory)) = false)
      by (destruct (rev (c :: directory)) eqn:E;
          [ apply (f_equal (@rev ascii)) in E; rewrite rev_involutive in E; discriminate
          | reflexivity ]).
    rewrite Hback. reflexivity.
Qed.

Lemma split_directory (segments : list chars) :
  Forall (fun s => isKept s = true) segments ->
  fold_left (normalizeSegment false) (split ("/"%char :: joinWith segments)) []
  = rev segments.
Proof.
  intros Hkept.
  change ("/"%char :: joinWith segments) with ([] ++ "/"%char :: joinWith segments).
  rewrite split_app_separator. simpl split. simpl app.
  destruct segments as [|s rest]; [ reflexivity | ].
  rewrite split_joinWith.
  - change (fold_left (normalizeSegment false) ([] :: s :: rest) [])
      with (fold_left (normalizeSegment false) (s :: rest) []).
    rewrite normalize_kept_segments by assumption. apply app_nil_r.
  - discriminate.
  - eapply Forall_impl; [ | exact Hkept ]. intros seg Hseg.
    destruct (@kept_parts _ Hseg) as (_ & Hslash). exact Hslash.
Qed.

Lemma resolve_from_directory (cwd : chars) (segments : list chars) (imported : chars) :
  Forall (fun s => isKept s = true) segments ->
  isPlainName imported = true ->
  resolve cwd ["/"%char :: joinWith segments; "."%char :: "/"%char :: imported]
  = "/"%char :: joinWith (segments ++ [imported]).
Proof.
  intros Hkept Hplain. destruct (@plain_parts _ Hplain) as (_ & Hslash & _).
  unfold resolve. simpl rev. simpl app. simpl resolveLoop.
  f_equal. unfold normalizeString. f_equal. simpl negb.
  change ("/"%char :: joinWith segments
            ++ "/"%char :: "."%char :: "/"%char :: imported ++ ["/"%char])
    with (("/"%char :: joinWith segments)
          ++ "/"%char :: (["."%char] ++ "/"%char :: (imported ++ "/"%char :: []))).
  rewrite !split_app_separator, fold_left_app, split_directory by assumption.
  rewrite (split_without_separator _ Hslash). simpl split. simpl app.
  simpl fold_left.
  change (normalizeSegment false (rev segments) ["."%char]) with (rev segments).
  rewrite (@normalizeSegment_kept false (rev segments) imported)
    by (apply plain_is_kept; exact Hplain).
  change (normalizeSegment false (imported :: rev segments) [])
    with (imported :: rev segments).
  simpl rev. rewrite rev_involutive. reflexivity.
Qed.

(** X23.  A relative specifier reaches the file it names.  For an importing
    module [/dir/importer] in a directory of ordinary names and a plain name
    [imported], the key that [getModuleKeyFromSpecifier] gives for the
    specifier [./imported] is the key that [getFileKey] gives for the file
    [/dir/imported.extension], whatever the extension and the working
    directory are; for [./index] both are the key of the directory. *)
Theorem relative_specifier_has_the_key_of_the_file
        (cwd : string) (getText : Node -> string)
        (segments : list chars) (importer imported extension : chars) :
  Forall (fun s => isKept s = true) segments ->
  isKept importer = true -> isPlainName imported = true ->
  isPlainName extension = true ->
  getModuleKeyFromSpecifier cwd getText
    (StringLiteral ("./" ++ toString imported)) (absolutePath (segments ++ [importer]))
  = getFileKey (absolutePath (segments ++ [imported ++ "."%char :: extension])).
Proof.
  intros Hkept Himporter Hplain Hextension.
  assert (Hstem : isKept imported = true) by (apply plain_is_kept; exact Hplain).
  assert (Hfile : getFileKey (absolutePath (segments ++ [imported ++ "."%char :: extension]))
                  = absolutePath (if String.eqb (toString imported) "index" then segments
                                  else segments ++ [imported])).
  { unfold getFileKey, absolutePath at 1.
    apply key_of_parsed with (extension := "."%char :: extension); try assumption.
    destruct segments as [|s rest].
    - simpl app. simpl joinWith. apply parse_extension_in_root; assumption.
    - rewrite joinWith_snoc by discriminate.
      apply parse_extension_in_directory; assumption. }
  rewrite Hfile.
  unfold getModuleKeyFromSpecifier. simpl startsWith. cbv iota.
  unfold absolutePath at 1. rewrite ofString_toString, dirname_of_file by assumption.
  change (ofString ("./" ++ toString imported))
    with ("."%char :: "/"%char :: ofString (toString imported)).
  rewrite ofString_toString, resolve_from_directory by assumption.
  apply key_of_plain_path; assumption.
Qed.

Lemma relative_specifier_has_the_key_of_the_file_witness :
  getModuleKeyFromSpecifier "/" noText (StringLiteral "./a") "/project/main.ts"
  = getFileKey "/project/a.ts".
Proof.
  apply (@relative_specifier_has_the_key_of_the_file
           "/" noText [ofString "project"] (ofString "main.ts") (ofString "a")
           (ofString "ts"));
    [ repeat constructor | reflexivity | reflexivity | reflexivity ].
Defined.

Lemma normalize_absolute (path : chars) :
  isAbsolute path = true -> isAbsolute (normalize path) = true.
Proof.
  intros Habsolute. unfold normalize.
  destruct path as [|c rest]; [ discriminate | ].
  change (isEmpty (c :: rest)) with false. cbv iota. rewrite Habsolute.
  destruct (isEmpty (normalizeString (c :: rest) (negb true))); reflexivity.
Qed.

Lemma parse_absolute (path : chars) :
  isAbsolute path = true -> isAbsolute (dir (parse path)) = true.
Proof.
  intros Habsolute. unfold parse.
  destruct path as [|c rest]; [ discriminate | ].
  change (isEmpty (c :: rest)) with false. cbv iota. rewrite Habsolute.
  destruct (splitExt _ _).
  destruct (dropWhile notSlash (dropWhile isSlash (rev (tl (c :: rest))))); reflexivity.
Qed.

Lemma join_absolute (directory last : chars) :
  isAbsolute directory = true -> isAbsolute (join [directory; last]) = true.
Proof.
  intros Habsolute. destruct directory as [|c rest]; [ discriminate | ].
  unfold join. simpl filter.
  destruct (negb (isEmpty last)).
  - destruct rest; simpl joinWith; apply normalize_absolute; exact Habsolute.
  - simpl joinWith. apply normalize_absolute. exact Habsolute.
Qed.

Lemma absolute_starts_with_separator (path : chars) :
  isAbsolute path = true -> startsWith (toString path) "/" = true.
Proof. destruct path as [|c rest]; [ discriminate | ]. intros H. exact H. Qed.

(** X24.  The key of a module given by an absolute path is an absolute
    path, and the key of a specifier that starts neither with a dot nor with
    a separator (a package name) is the specifier itself: the two are never
    equal, so a package import never meets the export entries of a module of
    the batch. *)
Theorem package_specifier_never_has_the_key_of_a_file
        (cwd : string) (getText : Node -> string)
        (filePath spec containingFile : string) :
  isAbsolute (ofString filePath) = true ->
  startsWith spec "." = false -> startsWith spec "/" = false ->
  startsWith (getFileKey filePath) "/" = true
  /\ getModuleKeyFromSpecifier cwd getText (StringLiteral spec) containingFile = spec
  /\ getFileKey filePath
     <> getModuleKeyFromSpecifier cwd getText (StringLiteral spec) containingFile.
Proof.
  intros Habsolute Hdot Hseparator.
  assert (Hkey : startsWith (getFileKey filePath) "/" = true).
  { unfold getFileKey, normalizePathKey.
    apply absolute_starts_with_separator, normalize_absolute.
    pose proof (parse_absolute _ Habsolute) as Hdir.
    destruct (String.eqb (toString (Path.name (parse (ofString filePath)))) "index");
      [ exact Hdir | apply join_absolute; exact Hdir ]. }
  assert (Hspec : getModuleKeyFromSpecifier cwd getText (StringLiteral spec) containingFile
                  = spec)
    by (unfold getModuleKeyFromSpecifier; rewrite Hdot, Hseparator; reflexivity).
  split; [ exact Hkey | split; [ exact Hspec | ] ].
  rewrite Hspec. intros Heq. rewrite Heq, Hseparator in Hkey. discriminate.
Qed.

Lemma package_specifier_never_has_the_key_of_a_file_witness :
  getFileKey "/project/node_modules/lodash/index.js"
  <> getModuleKeyFromSpecifier "/" noText (StringLiteral "lodash") "/project/main.ts".
Proof.
  apply (@package_specifier_never_has_the_key_of_a_file
           "/" noText "/project/node_modules/lodash/index.js" "lodash" "/project/main.ts");
    reflexivity.
Defined.


(* ================================================================== *)
(** ** Helpers of the build *)

(** X25.  [getEntryPath] drops the dots an entry starts with and the one
    character after them, whatever that character is, and trims the rest:
    [./src/index.ts] gives [src/index.ts], and [.config/index.ts] gives
    [onfig/index.ts]. *)
Theorem getEntryPath_drops_the_character_after_the_dots
        (dots : chars) (c : ascii) (rest : chars) :
  dots <> [] -> forallb isDot dots = true -> isDot c = false ->
  isAscii (c :: rest) = true ->
  getEntryPath (toString (dots ++ c :: rest)) = trim (toString rest).
Proof.
  intros Hne Hdots Hc _. unfold getEntryPath. rewrite ofString_toString.
  rewrite takeWhile_app by assumption. simpl takeWhile. rewrite Hc, app_nil_r.
  destruct dots as [|d dots'] eqn:Hd; [ contradiction | ]. rewrite <- Hd.
  do 2 f_equal. rewrite skipn_app, skipn_all2 by lia.
  replace (List.length dots + 1 - List.length dots) with 1 by lia. reflexivity.
Qed.

Lemma getEntryPath_drops_the_character_after_the_dots_witness :
  getEntryPath "./src/index.ts" = "src/index.ts"
  /\ getEntryPath ".config/index.ts" = "onfig/index.ts".
Proof.
  split.
  - apply (@getEntryPath_drops_the_character_after_the_dots
             (ofString ".") "/"%char (ofString "src/index.ts"));
      [ discriminate | reflexivity | reflexivity | reflexivity ].
  - apply (@getEntryPath_drops_the_character_after_the_dots
             (ofString ".") "c"%char (ofString "onfig/index.ts"));
      [ discriminate | reflexivity | reflexivity | reflexivity ].
Defined.


Lemma replaceAll_passes (pattern : list Atom) (replacement stem tail : chars) :
  (forall before here,
      stem = before ++ here -> here <> [] -> matchesAt pattern (here ++ tail) = false) ->
  replaceAll pattern replacement 0 (stem ++ tail)
  = stem ++ replaceAll pattern replacement 0 tail.
Proof.
  induction stem as [|c stem IH]; intros Hnone; [ reflexivity | ].
  assert (Hhere : matchesAt pattern (c :: stem ++ tail) = false)
    by (apply (Hnone [] (c :: stem) eq_refl); discriminate).
  change ((c :: stem) ++ tail) with (c :: stem ++ tail).
  cbn [replaceAll]. rewrite Hhere.
  change ((c :: stem) ++ replaceAll pattern replacement 0 tail)
    with (c :: stem ++ replaceAll pattern replacement 0 tail).
  f_equal. apply IH. intros before here Hsplit.
  apply (Hnone (c :: before)). rewrite Hsplit. reflexivity.
Qed.

Lemma pairOccurs_suffix (x y : ascii) (before here : chars) :
  pairOccurs x y (before ++ here) = false -> pairOccurs x y here = false.
Proof.
  induction before as [|a before IH]; [ auto | ].
  intros H. apply IH. simpl in H.
  destruct (before ++ here) as [|b rest]; [ reflexivity | ].
  apply orb_false_iff in H. destruct H as [_ H]. exact H.
Qed.

(** The tests a match would have to pass, settled one character at a time. *)
Ltac settle_tests :=
  repeat match goal with
         | |- context [Ascii.eqb ?a ?x] => is_var x; destruct (Ascii.eqb a x)
         | |- context [isLineTerminator ?x] => is_var x; destruct (isLineTerminator x)
         end;
  simpl in *; rewrite ?orb_true_r in *; first [ reflexivity | discriminate ].

Ltac no_match_in_stem Hjs Hts :=
  intros before here Hstem Hhere; subst;
  apply pairOccurs_suffix in Hjs; apply pairOccurs_suffix in Hts;
  destruct here as [|x1 [|x2 [|x3 [|x4 [|x5 [|x6 [|x7 here]]]]]]];
  [ contradiction | .. ];
  cbn [matchesAt matchesAtom app andb pairOccurs dotJs dotMapJs dotDTs] in *;
  settle_tests.

(** X26.  The names of the emitted files.  For a path [stem] in which
    neither [js] nor [ts] occurs, [Compilers.commonjs] (with [c]) and
    [Compilers.esm] (with [m]) write the emitted [stem.js] as [stem.cjs] or
    [stem.mjs], the source map [stem.js.map] as [stem.cjs.map] or
    [stem.mjs.map], and the declarations [stem.d.ts] as [stem.d.cts] or
    [stem.d.mts]. *)
Theorem writtenName_of_emitted_files (kind : ascii) (stem : chars) :
  kind = "c"%char \/ kind = "m"%char ->
  pairOccurs "j" "s" stem = false -> pairOccurs "t" "s" stem = false ->
  writtenName kind (stem ++ ofString ".js") = stem ++ "."%char :: kind :: ofString "js"
  /\ writtenName kind (stem ++ ofString ".js.map")
     = stem ++ "."%char :: kind :: ofString "js.map"
  /\ writtenName kind (stem ++ ofString ".d.ts")
     = stem ++ ofString ".d." ++ kind :: ofString "ts".
Proof.
  intros Hkind Hjs Hts. unfold writtenName.
  destruct Hkind as [-> | ->]; repeat split;
    rewrite (@replaceAll_passes dotJs _ stem) by (no_match_in_stem Hjs Hts);
    match goal with
    | |- context [replaceAll dotJs ?r 0 ?tail] =>
        let v := eval vm_compute in (replaceAll dotJs r 0 tail) in
        change (replaceAll dotJs r 0 tail) with v
    end;
    rewrite (@replaceAll_passes dotMapJs _ stem) by (no_match_in_stem Hjs Hts);
    match goal with
    | |- context [replaceAll dotMapJs ?r 0 ?tail] =>
        let v := eval vm_compute in (replaceAll dotMapJs r 0 tail) in
        change (replaceAll dotMapJs r 0 tail) with v
    end;
    rewrite (@replaceAll_passes dotDTs _ stem) by (no_match_in_stem Hjs Hts);
    reflexivity.
Qed.

Lemma writtenName_of_emitted_files_witness :
  writtenName "c" (ofString "dist/index.js") = ofString "dist/index.cjs"
  /\ writtenName "c" (ofString "dist/index.js.map") = ofString "dist/index.cjs.map"
  /\ writtenName "c" (ofString "dist/index.d.ts") = ofString "dist/index.d.cts".
Proof.
  apply (@writtenName_of_emitted_files "c"%char (ofString "dist/index"));
    [ left; reflexivity | reflexivity | reflexivity ].
Defined.

(** X27.  The dot of [/.js/g] is not escaped.  In an ASCII name without
    [j] before it, [outName.replace(/.js/g, ".cjs")] (and the same call with
    [.mjs]) replaces the letters [js] together with the character before
    them, whatever that character is, and not only in the extension; it goes
    on with what follows them.  A directory [nodejs/] becomes [nod.cjs/] in
    the name under which the file is written. *)
Theorem replace_takes_any_character_before_js
        (kind : ascii) (before : chars) (c : ascii) (after : chars) :
  kind = "c"%char \/ kind = "m"%char ->
  isAscii (before ++ c :: "j"%char :: "s"%char :: after) = true ->
  forallb (fun x => negb (Ascii.eqb "j" x)) before = true ->
  isLineTerminator c = false ->
  let replacement := "."%char :: kind :: ofString "js" in
  replaceAll dotJs replacement 0 (before ++ c :: "j"%char :: "s"%char :: after)
  = before ++ replacement ++ replaceAll dotJs replacement 0 after.
Proof.
  intros _ _ Hj Hc replacement. induction before as [|x before IH].
  - simpl. rewrite Hc. simpl. destruct after; reflexivity.
  - simpl in Hj. apply andb_true_iff in Hj. destruct Hj as [_ Hj].
    assert (Hmatch : matchesAt dotJs (x :: before ++ c :: "j"%char :: "s"%char :: after)
                     = false).
    { destruct before as [|y before]; simpl.
      - destruct (Ascii.eqb "j" c); simpl; rewrite ?andb_false_r; reflexivity.
      - simpl in Hj. apply andb_true_iff in Hj. destruct Hj as [Hy _].
        apply negb_true_iff in Hy. rewrite Hy, andb_false_r. reflexivity. }
    change ((x :: before) ++ c :: "j"%char :: "s"%char :: after)
      with (x :: before ++ c :: "j"%char :: "s"%char :: after).
    cbn [replaceAll]. rewrite Hmatch.
    change ((x :: before) ++ replacement ++ replaceAll dotJs replacement 0 after)
      with (x :: before ++ replacement ++ replaceAll dotJs replacement 0 after).
    f_equal. apply IH. exact Hj.
Qed.

Lemma replace_takes_any_character_before_js_witness :
  replaceAll dotJs (ofString ".cjs") 0 (ofString "nodejs/index.js")
  = ofString "nod.cjs/index.cjs".
Proof.
  exact (@replace_takes_any_character_before_js
           "c"%char (ofString "nod") "e"%char (ofString "/index.js")
           (or_introl eq_refl) eq_refl eq_refl eq_refl).
Defined.

